(** * A dynamic loose octree of bounding boxes (src/ts/shapes/nuke.ts, classes
    [Octree] and [OctreeNode]): shallow embedding and verification.

    Numbers.  JavaScript numbers are modelled by exact rationals [Q]
    (coordinates, sizes) and by [Z] (the [count] and [depth] fields, which
    only ever hold integers).  Rounding, infinities and NaN are therefore
    outside the model; equalities between coordinates are stated with [==].
    For instance [largerThan] compares the exact extent of a box with the
    size of a node, where the code compares the rounded difference
    [box.max - box.min]: a box whose extent rounds up to the size of the node
    is accepted by the model and refused by the code.

    Identity.  An [OctreeObject] is a reference: it is modelled by a key, and
    its (caller-mutable) [boundingBox] is read through a store
    [bb : OctreeObject -> Box3] handed to every operation.  A node reference
    is modelled by the allocation number [nid] the node received when it was
    created with [new OctreeNode]; [objectToNode] maps object keys to such
    numbers.  The [parent] back-reference of a node is its position in the
    tree: the tree is a value whose [octants] own their children.  An
    [octants] array is a list; every list the methods build has the eight
    entries of [createOctants].

    Recursion.  [insert] and [split] call each other down to [MAX_DEPTH], and
    [shrink] and the growth loop of [Octree.insert] recurse over the levels of
    the tree: they take a bound on the number of nested calls, computed from
    the depth of the node, and answer [Err OutOfFuel] beyond it.  Under the
    invariant of the index the bound is never reached ([operations_total]).

    Queries.  [raycast], [intersectAabb] and [intersectSphere] are modelled;
    the geometric tests of three.js they call ([Box3.intersectsBox],
    [Sphere.intersectsBox]) are written out over [Q], the ray tests are
    parameters.  Not modelled: the [beforeOperation] hook.

    The last two parts of the file model the class [Nuke] of the same source
    file and two loops of [MissionLibrary.init]
    (src/ts/mission_library.ts). *)

From Stdlib Require Import ZArith QArith Qpower Lia Lqa List Permutation Sorted String.
From stdpp Require Import base option list gmap.

Local Open Scope Z_scope.

(** ** Results of fallible computations *)

Inductive error :=
| OutOfFuel   (* the recursion bound of the model was reached *)
| TypeError   (* a property of [undefined] was read *)
| Detached.   (* a node reference that is not part of the tree was used *)

Inductive Res (A : Type) :=
| Ok (a : A)
| Err (e : error).
Arguments Ok {A} a.
Arguments Err {A} e.

#[global] Instance Res_ret : MRet Res := fun A a => Ok a.
#[global] Instance Res_bind : MBind Res :=
  fun A B f m => match m with Ok a => f a | Err e => Err e end.

Fixpoint foldM {A S : Type} (f : S -> A -> Res S) (l : list A) (s : S) : Res S :=
  match l with
  | [] => Ok s
  | a :: r => s' ← f s a; foldM f r s'
  end.

(** ** Geometry primitives (three.js) *)

Definition Qltb (a b : Q) : bool := negb (Qle_bool b a).

Module THREE.
Record Vector3 := mkVector3 { x : Q; y : Q; z : Q }.
Record Box3 := mkBox3 { min : Vector3; max : Vector3 }.

Definition add (a b : Vector3) : Vector3 :=
  mkVector3 (x a + x b)%Q (y a + y b)%Q (z a + z b)%Q.
Definition sub (a b : Vector3) : Vector3 :=
  mkVector3 (x a - x b)%Q (y a - y b)%Q (z a - z b)%Q.
Definition multiplyScalar (a : Vector3) (s : Q) : Vector3 :=
  mkVector3 (x a * s)%Q (y a * s)%Q (z a * s)%Q.
Definition setScalar (s : Q) : Vector3 := mkVector3 s s s.
Definition addScalar (a : Vector3) (s : Q) : Vector3 :=
  mkVector3 (x a + s)%Q (y a + s)%Q (z a + s)%Q.

(** [Math.max] and [Math.min]. *)
Definition Math_max (a b : Q) : Q := if Qle_bool a b then b else a.
Definition Math_min (a b : Q) : Q := if Qle_bool a b then a else b.

(** [Box3.intersectsBox]: six splitting planes rule an intersection out. *)
Definition intersectsBox (this box : Box3) : bool :=
  if Qltb (x (max box)) (x (min this)) || Qltb (x (max this)) (x (min box)) ||
     Qltb (y (max box)) (y (min this)) || Qltb (y (max this)) (y (min box)) ||
     Qltb (z (max box)) (z (min this)) || Qltb (z (max this)) (z (min box))
  then false else true.

Record Sphere := mkSphere { center : Vector3; radius : Q }.

(** [Vector3.clamp], [Box3.clampPoint], [Vector3.distanceToSquared]. *)
Definition clamp (v lo hi : Vector3) : Vector3 :=
  mkVector3 (Math_max (x lo) (Math_min (x hi) (x v)))
            (Math_max (y lo) (Math_min (y hi) (y v)))
            (Math_max (z lo) (Math_min (z hi) (z v))).
Definition clampPoint (this : Box3) (point : Vector3) : Vector3 :=
  clamp point (min this) (max this).
Definition distanceToSquared (a v : Vector3) : Q :=
  let dx := (x a - x v)%Q in
  let dy := (y a - y v)%Q in
  let dz := (z a - z v)%Q in
  (dx * dx + dy * dy + dz * dz)%Q.

(** [Box3.intersectsSphere]: the point of the box closest to the centre of
    the sphere lies inside the sphere.  [Sphere.intersectsBox] delegates to
    it. *)
Definition intersectsSphere (this : Box3) (sphere : Sphere) : bool :=
  Qle_bool (distanceToSquared (clampPoint this (center sphere)) (center sphere))
           (radius sphere * radius sphere)%Q.
Definition sphereIntersectsBox (this : Sphere) (box : Box3) : bool :=
  intersectsSphere box this.
End THREE.

Definition OctreeObject := nat.
Definition NodeId := nat.

Definition DEFAULT_ROOT_NODE_SIZE : Q := 1.
Definition MIN_DEPTH : Z := -32.
Definition MAX_DEPTH : Z := 8.

(** What a node reaches through [this.octree]: the reverse lookup, and the
    allocator that gives every [new OctreeNode] its identity. *)
Record Shared := mkShared {
  objectToNode : gmap OctreeObject NodeId;
  nextId : NodeId
}.

(** A JavaScript [Set] iterates in insertion order: a duplicate-free list. *)
Definition set_add (o : OctreeObject) (l : list OctreeObject) : list OctreeObject :=
  if decide (o ∈ l) then l else l ++ [o].
Definition set_delete (o : OctreeObject) (l : list OctreeObject) : list OctreeObject :=
  filter (fun o' => o' ≠ o) l.

(** ** class OctreeNode *)

Module OctreeNode.

#[warnings="-register-all"] Inductive t := mk {
  nid : NodeId;
  min : THREE.Vector3;
  size : Q;
  octants : option (list t);
  objects : list OctreeObject;
  count : Z;
  depth : Z
}.

Definition set_count (n : t) (c : Z) : t :=
  mk (nid n) (min n) (size n) (octants n) (objects n) c (depth n).
Definition set_objects (n : t) (l : list OctreeObject) : t :=
  mk (nid n) (min n) (size n) (octants n) l (count n) (depth n).
Definition set_octants (n : t) (os : option (list t)) : t :=
  mk (nid n) (min n) (size n) os (objects n) (count n) (depth n).

Section Geometry.
Variable bb : OctreeObject -> THREE.Box3.
Local Open Scope Q_scope.

Definition largerThan (this : t) (object : OctreeObject) : bool :=
  let box := bb object in
  Qltb (THREE.x (THREE.max box) - THREE.x (THREE.min box)) (size this) &&
  Qltb (THREE.y (THREE.max box) - THREE.y (THREE.min box)) (size this) &&
  Qltb (THREE.z (THREE.max box) - THREE.z (THREE.min box)) (size this).

Definition containsPoint (this : t) (point : THREE.Vector3) : bool :=
  let x := THREE.x point in
  let y := THREE.y point in
  let z := THREE.z point in
  Qle_bool (THREE.x (min this)) x && Qltb x (THREE.x (min this) + size this) &&
  Qle_bool (THREE.y (min this)) y && Qltb y (THREE.y (min this) + size this) &&
  Qle_bool (THREE.z (min this)) z && Qltb z (THREE.z (min this) + size this).

Definition center (box : THREE.Box3) : THREE.Vector3 :=
  THREE.mkVector3
    (THREE.x (THREE.min box) + (THREE.x (THREE.max box) - THREE.x (THREE.min box)) / 2)
    (THREE.y (THREE.min box) + (THREE.y (THREE.max box) - THREE.y (THREE.min box)) / 2)
    (THREE.z (THREE.min box) + (THREE.z (THREE.max box) - THREE.z (THREE.min box)) / 2).

Definition containsCenter (this : t) (object : OctreeObject) : bool :=
  let box := bb object in
  let x := THREE.x (THREE.min box) + (THREE.x (THREE.max box) - THREE.x (THREE.min box)) / 2 in
  let y := THREE.y (THREE.min box) + (THREE.y (THREE.max box) - THREE.y (THREE.min box)) / 2 in
  let z := THREE.z (THREE.min box) + (THREE.z (THREE.max box) - THREE.z (THREE.min box)) / 2 in
  Qle_bool (THREE.x (min this)) x && Qltb x (THREE.x (min this) + size this) &&
  Qle_bool (THREE.y (min this)) y && Qltb y (THREE.y (min this) + size this) &&
  Qle_bool (THREE.z (min this)) z && Qltb z (THREE.z (min this) + size this).
End Geometry.

(** [(i & mask) >> k] as a coordinate factor. *)
Definition bit (i : nat) (mask : Z) (k : Z) : Q :=
  inject_Z (Z.shiftr (Z.land (Z.of_nat i) mask) k).

Definition newOctant (this : t) (fresh : NodeId) (i : nat) : t :=
  let newSize := (size this / 2)%Q in
  mk (fresh + i)%nat
     (THREE.mkVector3
        (THREE.x (min this) + newSize * bit i 1 0)%Q
        (THREE.y (min this) + newSize * bit i 2 1)%Q
        (THREE.z (min this) + newSize * bit i 4 2)%Q)
     newSize None [] 0 (depth this + 1).

(** The eight nodes that [createOctants] pushes; they take the identities
    [fresh .. fresh+7]. *)
Definition createOctants (this : t) (fresh : NodeId) : list t :=
  newOctant this fresh <$> seq 0 8.

Definition merge (this : t) (sh : Shared) : t * Shared :=
  match octants this with
  | Some os =>
      if 8 <? count this then (this, sh)
      else
        let '(objs, otn) :=
          foldl (fun acc octant =>
                   foldl (fun '(objs, otn) object =>
                            (set_add object objs, <[object := nid this]> otn))
                         acc (objects octant))
                (objects this, objectToNode sh) os in
        (mk (nid this) (min this) (size this) None objs (count this) (depth this),
         mkShared otn (nextId sh))
  | None => (this, sh)
  end.

Section Insert.
Variable bb : OctreeObject -> THREE.Box3.

(** The loop [for j < 8] of [split]: every octant whose region contains
    the centre receives the object (there is no [break]); the flag tells
    whether [this.objects.delete(object)] ran. *)
Definition placeInOctants (ins : t -> Shared -> Res (t * Shared))
    (object : OctreeObject) (os : list t) (sh : Shared)
  : Res (list t * Shared * bool) :=
  foldM (fun '((done, sh, moved) : list t * Shared * bool) octant =>
           if containsCenter bb octant object
           then '(octant', sh') ← ins octant sh; Ok (done ++ [octant'], sh', true)
           else Ok (done ++ [octant], sh, moved))
        os ([], sh, false).

Fixpoint insert (fuel : nat) (this : t) (object : OctreeObject) (sh : Shared)
    {struct fuel} : Res (t * Shared) :=
  match fuel with
  | O => Err OutOfFuel
  | S fuel' =>
      let this := set_count this (count this + 1) in
      let here :=
        (set_objects this (set_add object (objects this)),
         mkShared (<[object := nid this]> (objectToNode sh)) (nextId sh)) in
      match octants this with
      | Some os =>
          match os with
          | [] => Err TypeError
          | first :: _ =>
              match (if largerThan bb first object
                     then list_find (fun c => containsCenter bb c object = true) os
                     else None) with
              | Some (i, octant) =>
                  '(octant', sh') ← insert fuel' octant object sh;
                  Ok (set_octants this (Some (<[i := octant']> os)), sh')
              | None => Ok here
              end
          end
      | None => split fuel' (fst here) (snd here)
      end
  end
with split (fuel : nat) (this : t) (sh : Shared) {struct fuel} : Res (t * Shared) :=
  match fuel with
  | O => Err OutOfFuel
  | S fuel' =>
      if (length (objects this) <=? 8)%nat || (depth this =? MAX_DEPTH) then Ok (this, sh)
      else
        let os0 := createOctants this (nextId sh) in
        let sh0 := mkShared (objectToNode sh) (nextId sh + 8)%nat in
        '(os1, objs1, sh1) ←
          foldM (fun '((os, objs, sh) : list t * list OctreeObject * Shared) object =>
                   match os with
                   | [] => Err TypeError
                   | first :: _ =>
                       if largerThan bb first object then
                         '(os', sh', moved) ←
                           placeInOctants (fun c s => insert fuel' c object s) object os sh;
                         Ok (os', if (moved : bool) then set_delete object objs else objs, sh')
                       else Ok (os, objs, sh)
                   end)
                (objects this) (os0, objects this, sh0);
        '(os2, sh2) ←
          foldM (fun '((done, sh) : list t * Shared) octant =>
                   '(octant', sh') ← split fuel' octant sh; Ok (done ++ [octant'], sh'))
                os1 ([], sh1);
        Ok (mk (nid this) (min this) (size this) (Some os2) objs1 (count this) (depth this),
            sh2)
  end.
End Insert.

(** [remove] is called on the node reference stored in [objectToNode].  The
    reference is resolved to its position in the tree; the first part of the
    method runs there, and the [while (node)] loop over [parent] runs on the
    way back to the root.  [None]: no node of this subtree has identity
    [target]. *)
Fixpoint remove (this : t) (target : NodeId) (object : OctreeObject) (sh : Shared)
    {struct this} : option (t * Shared) :=
  if decide (nid this = target) then
    let this := set_objects this (set_delete object (objects this)) in
    let this := set_count this (count this - 1) in
    Some (merge this sh)
  else
    match octants this with
    | None => None
    | Some os =>
        match (fix go (os : list t) : option (list t * Shared) :=
                 match os with
                 | [] => None
                 | c :: r =>
                     match remove c target object sh with
                     | Some (c', sh') => Some (c' :: r, sh')
                     | None =>
                         match go r with
                         | Some (r', sh') => Some (c :: r', sh')
                         | None => None
                         end
                     end
                 end) os with
        | None => None
        | Some (os', sh') =>
            let node := set_octants this (Some os') in
            let node := set_count node (count node - 1) in
            Some (merge node sh')
        end
    end.

End OctreeNode.

(** ** Ray queries of a node

    [Util.rayIntersectsBox] (util.ts), the objects' [isIntersectedByRay] and
    three.js's [Vector3.distanceTo] are not part of the octree: they are
    parameters.  [isIntersectedByRay] yields the intersection point it writes
    into its third argument when it answers [true]. *)

Record OctreeIntersection := mkIntersection {
  object : OctreeObject;
  point : THREE.Vector3;
  distance : Q
}.

Section Raycast.
Variable rayIntersectsBox : THREE.Vector3 -> THREE.Vector3 -> THREE.Box3 -> bool.
Variable isIntersectedByRay :
  OctreeObject -> THREE.Vector3 -> THREE.Vector3 -> option THREE.Vector3.
Variable distanceTo : THREE.Vector3 -> THREE.Vector3 -> Q.

Definition looseBoundingBox (this : OctreeNode.t) : THREE.Box3 :=
  THREE.mkBox3
    (THREE.addScalar (OctreeNode.min this) (- OctreeNode.size this / 2)%Q)
    (THREE.addScalar (OctreeNode.min this) (OctreeNode.size this * 3 / 2)%Q).

Definition testObjects (rayOrigin rayDirection : THREE.Vector3)
    (objs : list OctreeObject) (intersections : list OctreeIntersection)
  : list OctreeIntersection :=
  foldl (fun acc object =>
           match isIntersectedByRay object rayOrigin rayDirection with
           | Some vec => acc ++ [mkIntersection object vec (distanceTo rayOrigin vec)]
           | None => acc
           end) intersections objs.

Fixpoint node_raycast (this : OctreeNode.t) (rayOrigin rayDirection : THREE.Vector3)
    (intersections : list OctreeIntersection) {struct this} : list OctreeIntersection :=
  if negb (rayIntersectsBox rayOrigin rayDirection (looseBoundingBox this))
  then intersections
  else
    let intersections := testObjects rayOrigin rayDirection (OctreeNode.objects this) intersections in
    match OctreeNode.octants this with
    | Some os =>
        (fix go (os : list OctreeNode.t) (acc : list OctreeIntersection) :=
           match os with
           | [] => acc
           | octant :: r => go r (node_raycast octant rayOrigin rayDirection acc)
           end) os intersections
    | None => intersections
    end.

(** [Array.prototype.sort] with the comparator [a.distance - b.distance]:
    a stable sort (ECMAScript 2019), here by insertion. *)
Fixpoint sortInsert (a : OctreeIntersection) (l : list OctreeIntersection)
  : list OctreeIntersection :=
  match l with
  | [] => [a]
  | b :: r => if Qle_bool (distance a) (distance b) then a :: b :: r else b :: sortInsert a r
  end.

Definition sortByDistance (l : list OctreeIntersection) : list OctreeIntersection :=
  foldr sortInsert [] l.
End Raycast.

(** ** Volume queries of a node

    [intersectAabb] and [intersectSphere] are the same traversal with a
    different test: [aabb.intersectsBox] in the one, [sphere.intersectsBox] in
    the other, applied first to the loose bounding box of the node and then
    to the bounding box of each of its objects. *)

Section VolumeQuery.
Variable bb : OctreeObject -> THREE.Box3.
Variable intersectsBox : THREE.Box3 -> bool.

Definition collectObjects (objs : list OctreeObject) (intersections : list OctreeObject)
  : list OctreeObject :=
  foldl (fun acc object => if intersectsBox (bb object) then acc ++ [object] else acc)
        intersections objs.

Fixpoint node_intersect (this : OctreeNode.t) (intersections : list OctreeObject)
    {struct this} : list OctreeObject :=
  if negb (intersectsBox (looseBoundingBox this)) then intersections
  else
    let intersections := collectObjects (OctreeNode.objects this) intersections in
    match OctreeNode.octants this with
    | Some os =>
        (fix go (os : list OctreeNode.t) (acc : list OctreeObject) :=
           match os with
           | [] => acc
           | octant :: r => go r (node_intersect octant acc)
           end) os intersections
    | None => intersections
    end.
End VolumeQuery.

Definition node_intersectAabb (bb : OctreeObject -> THREE.Box3) (this : OctreeNode.t)
    (aabb : THREE.Box3) (intersections : list OctreeObject) : list OctreeObject :=
  node_intersect bb (THREE.intersectsBox aabb) this intersections.

Definition node_intersectSphere (bb : OctreeObject -> THREE.Box3) (this : OctreeNode.t)
    (sphere : THREE.Sphere) (intersections : list OctreeObject) : list OctreeObject :=
  node_intersect bb (THREE.sphereIntersectsBox sphere) this intersections.

(** ** class Octree *)

Module Octree.

Record t := mk {
  root : OctreeNode.t;
  shared : Shared;
  console : list string
}.

(** [constructor()]: the root is the first node ever allocated. *)
Definition new : t :=
  mk (OctreeNode.mk 0%nat (THREE.mkVector3 0%Q 0%Q 0%Q) DEFAULT_ROOT_NODE_SIZE None [] 0 0)
     (mkShared ∅ 1%nat) [].

Definition warning : string :=
  "Can't insert large object into octree; the octree has already expanded to its maximum size.".

(** Recursion bound for [OctreeNode.insert] and [split] below a node, and
    for the levels [shrink] can descend. *)
Definition nodeFuel (n : OctreeNode.t) : nat :=
  Z.to_nat (2 * (MAX_DEPTH - OctreeNode.depth n) + 2).

Definition corner (box : THREE.Box3) (i : nat) : THREE.Vector3 :=
  THREE.mkVector3
    (if Z.land (Z.of_nat i) 1 =? 0 then THREE.x (THREE.max box) else THREE.x (THREE.min box))
    (if Z.land (Z.of_nat i) 2 =? 0 then THREE.y (THREE.max box) else THREE.y (THREE.min box))
    (if Z.land (Z.of_nat i) 4 =? 0 then THREE.z (THREE.max box) else THREE.z (THREE.min box)).

(** First half of [grow]: the direction from the root centre to the average
    of the box corners outside the root. *)
Definition outsideCorners (r : OctreeNode.t) (box : THREE.Box3) : THREE.Vector3 * nat :=
  foldl (fun '((averagePoint, count) : THREE.Vector3 * nat) i =>
           let vec := corner box i in
           if negb (OctreeNode.containsPoint r vec)
           then (THREE.add averagePoint vec, S count)
           else (averagePoint, count))
        (THREE.mkVector3 0%Q 0%Q 0%Q, O) (seq 0 8).

(** With no corner outside, [count] is 0: the code then multiplies by
    [1 / 0], an infinite factor, and gets a direction of NaN components, for
    which every [< 0] test is false, while [1 / 0] is [0] in [Q].  In the
    exact arithmetic of the model [insert] does not call [grow] in that case
    ([grow_divides_by_positive]). *)
Definition growthDirection (r : OctreeNode.t) (box : THREE.Box3) : THREE.Vector3 :=
  let '(averagePoint, count) := outsideCorners r box in
  let averagePoint := THREE.multiplyScalar averagePoint (1 / inject_Z (Z.of_nat count))%Q in
  let rootCenter := THREE.add (OctreeNode.min r) (THREE.setScalar (OctreeNode.size r / 2)%Q) in
  THREE.sub averagePoint rootCenter.

Definition octantIndex (direction : THREE.Vector3) : nat :=
  ((if Qltb (THREE.x direction) 0%Q then 1 else 0) +
   (if Qltb (THREE.y direction) 0%Q then 2 else 0) +
   (if Qltb (THREE.z direction) 0%Q then 4 else 0))%nat.

(** The new root before anything is hung into it. *)
Definition newRootFor (r : OctreeNode.t) (direction : THREE.Vector3) (fresh : NodeId)
  : OctreeNode.t :=
  OctreeNode.mk fresh
    (THREE.mkVector3
       (if Qltb (THREE.x direction) 0%Q
        then THREE.x (OctreeNode.min r) - OctreeNode.size r else THREE.x (OctreeNode.min r))%Q
       (if Qltb (THREE.y direction) 0%Q
        then THREE.y (OctreeNode.min r) - OctreeNode.size r else THREE.y (OctreeNode.min r))%Q
       (if Qltb (THREE.z direction) 0%Q
        then THREE.z (OctreeNode.min r) - OctreeNode.size r else THREE.z (OctreeNode.min r))%Q)
    (OctreeNode.size r * 2)%Q None [] 0 (OctreeNode.depth r - 1).

(** The new root once [createOctants] has run, the old root has been put
    into its octant and its count has been copied. *)
Definition adoptOldRoot (newRoot r : OctreeNode.t) (direction : THREE.Vector3)
    (fresh : NodeId) : OctreeNode.t :=
  let os := <[octantIndex direction := r]> (OctreeNode.createOctants newRoot fresh) in
  OctreeNode.set_count (OctreeNode.set_octants newRoot (Some os)) (OctreeNode.count r).

Definition grow (bb : OctreeObject -> THREE.Box3) (this : t) (towards : OctreeObject) : t :=
  let r := root this in
  let direction := growthDirection r (bb towards) in
  let newRoot := newRootFor r direction (nextId (shared this)) in
  let sh := mkShared (objectToNode (shared this)) (S (nextId (shared this))) in
  if 0 <? OctreeNode.count r then
    let newRoot := adoptOldRoot newRoot r direction (nextId sh) in
    let sh := mkShared (objectToNode sh) (nextId sh + 8)%nat in
    let '(newRoot, sh) := OctreeNode.merge newRoot sh in
    mk newRoot sh (console this)
  else mk newRoot sh (console this).

(** The scan of [shrink] for the only non-empty octant.  [None]: the loop
    returned from [shrink] on meeting a second one. *)
Definition onlyNonEmpty (os : list OctreeNode.t) : option (option OctreeNode.t) :=
  foldl (fun acc octant =>
           match acc with
           | None => None
           | Some nonEmptyOctant =>
               if 0 <? OctreeNode.count octant then
                 match nonEmptyOctant with
                 | Some _ => None
                 | None => Some (Some octant)
                 end
               else Some nonEmptyOctant
           end) (Some None) os.

Fixpoint shrinkRoot (fuel : nat) (r : OctreeNode.t) : Res OctreeNode.t :=
  match fuel with
  | O => Err OutOfFuel
  | S fuel' =>
      if Qltb (OctreeNode.size r) DEFAULT_ROOT_NODE_SIZE
         || (0 <? length (OctreeNode.objects r))%nat then Ok r
      else if OctreeNode.count r =? 0 then
        Ok (OctreeNode.mk (OctreeNode.nid r) (THREE.mkVector3 0%Q 0%Q 0%Q) DEFAULT_ROOT_NODE_SIZE
              (OctreeNode.octants r) (OctreeNode.objects r) (OctreeNode.count r) 0)
      else
        match OctreeNode.octants r with
        | None => Ok r
        | Some os =>
            match onlyNonEmpty os with
            | None => Ok r
            | Some None => Err TypeError
            | Some (Some nonEmptyOctant) => shrinkRoot fuel' nonEmptyOctant
            end
        end
  end.

Definition shrink (this : t) : Res t :=
  r ← shrinkRoot (nodeFuel (root this)) (root this);
  Ok (mk r (shared this) (console this)).

Section Mutation.
Variable bb : OctreeObject -> THREE.Box3.

(** The [while] loop of [insert].  The flag is [false] when the loop left
    [insert] through the warning. *)
Fixpoint growLoop (fuel : nat) (this : t) (object : OctreeObject) : Res (t * bool) :=
  match fuel with
  | O => Err OutOfFuel
  | S fuel' =>
      if negb (OctreeNode.largerThan bb (root this) object)
         || negb (OctreeNode.containsCenter bb (root this) object) then
        if OctreeNode.depth (root this) =? MIN_DEPTH then
          Ok (mk (root this) (shared this) (console this ++ [warning]), false)
        else growLoop fuel' (grow bb this object) object
      else Ok (this, true)
  end.

Definition insert (this : t) (object : OctreeObject) : Res t :=
  match objectToNode (shared this) !! object with
  | Some _ => Ok this
  | None =>
      '(this, fitted) ←
        growLoop (Z.to_nat (OctreeNode.depth (root this) - MIN_DEPTH) + 1) this object;
      if (fitted : bool) then
        let emptyBefore := OctreeNode.count (root this) =? 0 in
        '(r, sh) ← OctreeNode.insert bb (nodeFuel (root this)) (root this) object (shared this);
        let this := mk r sh (console this) in
        if emptyBefore then shrink this else Ok this
      else Ok this
  end.

Definition remove (this : t) (object : OctreeObject) : Res t :=
  match objectToNode (shared this) !! object with
  | None => Ok this
  | Some node =>
      match OctreeNode.remove (root this) node object (shared this) with
      | None => Err Detached
      | Some (r, sh) =>
          shrink (mk r (mkShared (delete object (objectToNode sh)) (nextId sh)) (console this))
      end
  end.

Definition update (this : t) (object : OctreeObject) : Res t :=
  this ← remove this object;
  insert this object.
End Mutation.

Section Query.
Variable rayIntersectsBox : THREE.Vector3 -> THREE.Vector3 -> THREE.Box3 -> bool.
Variable isIntersectedByRay :
  OctreeObject -> THREE.Vector3 -> THREE.Vector3 -> option THREE.Vector3.
Variable distanceTo : THREE.Vector3 -> THREE.Vector3 -> Q.

(** [beforeOperation] is [null] unless the caller installs a hook; the
    hook is the caller's and is not modelled. *)
Definition raycast (this : t) (rayOrigin rayDirection : THREE.Vector3)
  : list OctreeIntersection :=
  let intersections :=
    node_raycast rayIntersectsBox isIntersectedByRay distanceTo
      (root this) rayOrigin rayDirection [] in
  sortByDistance intersections.
End Query.

Section VolumeQueries.
Variable bb : OctreeObject -> THREE.Box3.

Definition intersectAabb (this : t) (aabb : THREE.Box3) : list OctreeObject :=
  node_intersectAabb bb (root this) aabb [].

Definition intersectSphere (this : t) (sphere : THREE.Sphere) : list OctreeObject :=
  node_intersectSphere bb (root this) sphere [].
End VolumeQueries.

End Octree.

(** * Verification *)

Import OctreeNode (nid, min, size, octants, objects, count, depth).

(** ** The nodes of a tree *)

Definition children (n : OctreeNode.t) : list OctreeNode.t :=
  default [] (octants n).

Fixpoint subnodes (n : OctreeNode.t) : list OctreeNode.t :=
  n :: match octants n with
       | Some os =>
           (fix go (os : list OctreeNode.t) : list OctreeNode.t :=
              match os with
              | [] => []
              | c :: r => subnodes c ++ go r
              end) os
       | None => []
       end.

(** All objects stored in a subtree, the identities of its nodes, and the
    pairs (object, identity of the node whose set holds it). *)
Definition objs (n : OctreeNode.t) : list OctreeObject := subnodes n ≫= objects.
Definition nids (n : OctreeNode.t) : list NodeId := nid <$> subnodes n.
Definition owned (m : OctreeNode.t) : list (OctreeObject * NodeId) :=
  (fun o => (o, nid m)) <$> objects m.
Definition owners (n : OctreeNode.t) : list (OctreeObject * NodeId) :=
  subnodes n ≫= owned.

Definition sumCounts (os : list OctreeNode.t) : Z :=
  foldr (fun c acc => count c + acc) 0 os.

Section TreeInduction.
Variable P : OctreeNode.t -> Prop.
Hypothesis step : forall n, Forall P (children n) -> P n.

Lemma node_ind' : forall n, P n.
Proof.
  fix IH 1. intros n. apply step.
  destruct n as [i m s os ob c d]. unfold children; simpl.
  destruct os as [l|]; simpl; [|constructor].
  induction l as [|a l IHl]; constructor; [apply IH | exact IHl].
Qed.
End TreeInduction.

Lemma subnodes_eq n : subnodes n = n :: (children n ≫= subnodes).
Proof.
  destruct n as [i m s os ob c d]; unfold children; simpl.
  f_equal. destruct os as [l|]; simpl; [|done].
  induction l as [|a l IH]; simpl; [done|]. by rewrite IH.
Qed.

Lemma bind_bind {A B C} (f : A -> list B) (g : B -> list C) (l : list A) :
  (l ≫= f) ≫= g = l ≫= (fun a => f a ≫= g).
Proof.
  induction l as [|a l IH]; [done|].
  by rewrite !bind_cons, bind_app, IH.
Qed.

Lemma objs_eq n : objs n = objects n ++ (children n ≫= objs).
Proof. unfold objs. rewrite subnodes_eq at 1. by rewrite bind_cons, bind_bind. Qed.

Lemma owners_eq n : owners n = owned n ++ (children n ≫= owners).
Proof. unfold owners. rewrite subnodes_eq at 1. by rewrite bind_cons, bind_bind. Qed.

Lemma nids_eq n : nids n = nid n :: (children n ≫= nids).
Proof.
  unfold nids. rewrite subnodes_eq at 1. rewrite fmap_cons. f_equal.
  generalize (children n). intros l.
  induction l as [|a l IH]; [done|].
  by rewrite !bind_cons, fmap_app, IH.
Qed.

Lemma owners_fst n : (owners n).*1 = objs n.
Proof.
  unfold owners, objs. generalize (subnodes n). intros l.
  induction l as [|a l IH]; [done|].
  rewrite !bind_cons, fmap_app, IH. f_equal.
  unfold owned. rewrite <- list_fmap_compose. apply list_fmap_id.
Qed.

Lemma elem_of_owners o m n :
  (o, m) ∈ owners n <-> exists k, k ∈ subnodes n /\ nid k = m /\ o ∈ objects k.
Proof.
  unfold owners. rewrite list_elem_of_bind. split.
  - intros (k & Hin & Hk). exists k. unfold owned in Hin.
    apply list_elem_of_fmap in Hin as (o' & Heq & Ho'). by simplify_eq.
  - intros (k & Hk & <- & Ho). exists k. split; [|done].
    unfold owned. apply list_elem_of_fmap. by exists o.
Qed.

Lemma elem_of_objs o n :
  o ∈ objs n <-> exists k, k ∈ subnodes n /\ o ∈ objects k.
Proof.
  unfold objs. rewrite list_elem_of_bind.
  split; [intros (k & Ho & Hk)|intros (k & Hk & Ho)]; exists k; done.
Qed.

Lemma subnodes_self n : n ∈ subnodes n.
Proof. rewrite subnodes_eq. left. Qed.

Lemma subnodes_child n c k :
  c ∈ children n -> k ∈ subnodes c -> k ∈ subnodes n.
Proof.
  intros Hc Hk. rewrite subnodes_eq. right. apply list_elem_of_bind. eauto.
Qed.

(** ** The invariant of a node *)

Definition P_count (n : OctreeNode.t) : Prop :=
  count n = Z.of_nat (length (objects n)) + sumCounts (children n).
(** What [createOctants] and [grow] make of a child: one level deeper, half
    the edge. *)
Definition childOf (n c : OctreeNode.t) : Prop :=
  depth c = depth n + 1 /\ (size c == size n / 2)%Q.
Definition P_oct (n : OctreeNode.t) : Prop :=
  forall os, octants n = Some os -> length os = 8%nat /\ Forall (childOf n) os.
Definition P_thresh (n : OctreeNode.t) : Prop :=
  octants n <> None -> 8 < count n.
Definition P_leaf (n : OctreeNode.t) : Prop :=
  octants n = None -> depth n <> MAX_DEPTH -> (length (objects n) <= 8)%nat.
Definition P_depth (n : OctreeNode.t) : Prop :=
  depth n <= MAX_DEPTH.

Record local (n : OctreeNode.t) : Prop := mkLocal {
  l_count : P_count n;
  l_oct : P_oct n;
  l_thresh : P_thresh n;
  l_leaf : P_leaf n;
  l_depth : P_depth n
}.

Definition NodeInv (n : OctreeNode.t) : Prop := Forall local (subnodes n).

Lemma NodeInv_eq n : NodeInv n <-> local n /\ Forall NodeInv (children n).
Proof.
  unfold NodeInv. rewrite subnodes_eq at 1.
  rewrite Forall_cons, Forall_bind. reflexivity.
Qed.

Lemma NodeInv_local n : NodeInv n -> local n.
Proof. rewrite NodeInv_eq. tauto. Qed.

Lemma NodeInv_children n : NodeInv n -> Forall NodeInv (children n).
Proof. rewrite NodeInv_eq. tauto. Qed.

Lemma sumCounts_cons c l : sumCounts (c :: l) = count c + sumCounts l.
Proof. reflexivity. Qed.

Lemma sumCounts_nil : sumCounts [] = 0.
Proof. reflexivity. Qed.

Lemma sumCounts_app l k : sumCounts (l ++ k) = sumCounts l + sumCounts k.
Proof.
  induction l as [|a l IH]; [rewrite sumCounts_nil; simpl; lia|].
  rewrite <- app_comm_cons, !sumCounts_cons. lia.
Qed.

Lemma sumCounts_objs l :
  Forall (fun c => count c = Z.of_nat (length (objs c))) l ->
  sumCounts l = Z.of_nat (length (l ≫= objs)).
Proof.
  induction 1 as [|c l Hc _ IH]; [done|].
  rewrite bind_cons, length_app, sumCounts_cons. lia.
Qed.

(** The incrementally maintained [count] is the number of objects below. *)
Lemma count_objs n : NodeInv n -> count n = Z.of_nat (length (objs n)).
Proof.
  induction n as [n IH] using node_ind'. intros Hn.
  apply NodeInv_eq in Hn as [Hl Hc].
  rewrite objs_eq, length_app, (l_count _ Hl).
  rewrite sumCounts_objs; [lia|].
  rewrite Forall_forall in IH, Hc |- *. intros c Hin. auto.
Qed.

Lemma count_nonneg n : NodeInv n -> 0 <= count n.
Proof. intros H. rewrite (count_objs _ H). lia. Qed.

Lemma sumCounts_nonneg l : Forall NodeInv l -> 0 <= sumCounts l.
Proof.
  induction 1 as [|c l Hc _ IH]; [rewrite sumCounts_nil; lia|].
  pose proof (count_nonneg _ Hc). rewrite sumCounts_cons. lia.
Qed.

Lemma sumCounts_elem l c : Forall NodeInv l -> c ∈ l -> count c <= sumCounts l.
Proof.
  intros Hl Hc. apply list_elem_of_split in Hc as (l1 & l2 & ->).
  apply Forall_app in Hl as [H1 H2]. apply Forall_cons in H2 as [Hc H2].
  rewrite sumCounts_app, sumCounts_cons.
  pose proof (sumCounts_nonneg _ H1). pose proof (sumCounts_nonneg _ H2). lia.
Qed.

(** A subtree counting at most eight objects is a single leaf. *)
Lemma small_is_leaf n :
  NodeInv n -> count n <= 8 -> octants n = None /\ objs n = objects n.
Proof.
  intros Hn Hle. pose proof (l_thresh _ (NodeInv_local _ Hn)) as Ht.
  assert (octants n = None) as Hoct.
  { destruct (octants n) eqn:E; [|done]. unfold P_thresh in Ht.
    rewrite E in Ht. assert (8 < count n) by (apply Ht; done). lia. }
  split; [done|]. rewrite objs_eq. unfold children. rewrite Hoct. simpl.
  by rewrite app_nil_r.
Qed.

Lemma empty_no_objs n : NodeInv n -> count n = 0 -> objs n = [] /\ octants n = None.
Proof.
  intros Hn H0. destruct (small_is_leaf n Hn) as [Hoct Hobjs]; [lia|].
  split; [|done]. pose proof (count_objs _ Hn) as Hc.
  destruct (objs n); [done|]. simpl in Hc. lia.
Qed.

(** ** Objects, identities and the reverse lookup of a forest of subtrees *)

Record Heap (F : list OctreeNode.t) (sh : Shared) : Prop := mkHeap {
  H_objs : NoDup (F ≫= objs);
  H_nids : NoDup (F ≫= nids);
  H_fresh : forall m, m ∈ F ≫= nids -> (m < nextId sh)%nat;
  H_agree : forall o m, (o, m) ∈ F ≫= owners -> objectToNode sh !! o = Some m
}.

Lemma bind_Permutation {A B} (f : A -> list B) (l k : list A) :
  l ≡ₚ k -> l ≫= f ≡ₚ k ≫= f.
Proof.
  induction 1 as [|x l k _ IH|x y l|l k m _ IH1 _ IH2]; [done|..].
  - rewrite !bind_cons. by rewrite IH.
  - rewrite !bind_cons. rewrite !(assoc (++)). f_equiv. apply Permutation_app_comm.
  - by etrans.
Qed.

Lemma Heap_perm F F' sh : F ≡ₚ F' -> Heap F sh -> Heap F' sh.
Proof.
  intros HP [H1 H2 H3 H4]. split.
  - by rewrite <- (bind_Permutation objs _ _ HP).
  - by rewrite <- (bind_Permutation nids _ _ HP).
  - intros m. rewrite <- (bind_Permutation nids _ _ HP). apply H3.
  - intros o m. rewrite <- (bind_Permutation owners _ _ HP). apply H4.
Qed.

Lemma Heap_nil sh : Heap [] sh.
Proof.
  split; simpl; try apply NoDup_nil_2; intros *; by rewrite ?elem_of_nil.
Qed.

Lemma Heap_app_l F G sh : Heap (F ++ G) sh -> Heap F sh.
Proof.
  intros [H1 H2 H3 H4]. rewrite !bind_app in *.
  apply NoDup_app in H1 as (? & _ & _). apply NoDup_app in H2 as (? & _ & _).
  split; [done|done|..]; intros *; [intros ?; apply H3|intros ?; apply H4];
    apply elem_of_app; by left.
Qed.

Lemma Heap_app_r F G sh : Heap (F ++ G) sh -> Heap G sh.
Proof. intros H. apply (Heap_app_l G F). eapply Heap_perm; [|exact H]. apply Permutation_app_comm. Qed.

Lemma Heap_elem F c sh : Heap F sh -> c ∈ F -> Heap [c] sh.
Proof.
  intros H Hc. apply list_elem_of_split in Hc as (l1 & l2 & ->).
  apply Heap_app_r in H. by apply (Heap_app_l [c] l2).
Qed.

Lemma objs_in_owners o F :
  o ∈ F ≫= objs -> exists m, (o, m) ∈ F ≫= owners.
Proof.
  rewrite list_elem_of_bind. intros (c & Ho & Hc).
  rewrite <- owners_fst in Ho. apply list_elem_of_fmap in Ho as ([o' m] & -> & Hin).
  exists m. apply list_elem_of_bind. eauto.
Qed.

Lemma owners_in_objs o m F : (o, m) ∈ F ≫= owners -> o ∈ F ≫= objs.
Proof.
  rewrite !list_elem_of_bind. intros (c & Ho & Hc). exists c. split; [|done].
  rewrite <- owners_fst. apply list_elem_of_fmap. by exists (o, m).
Qed.

(** Replacing one subtree of a forest by a new version of it that only took
    in objects foreign to the rest, only wrote entries of its own objects,
    and only allocated new identities. *)
Lemma Heap_replace c c' R sh sh' (X : list OctreeObject) :
  Heap (c :: R) sh ->
  Heap [c'] sh' ->
  (forall o, o ∈ objs c' -> o ∈ objs c \/ o ∈ X) ->
  (forall o, o ∈ X -> o ∉ (R ≫= objs)) ->
  (forall o, o ∉ objs c' -> objectToNode sh' !! o = objectToNode sh !! o) ->
  (nextId sh <= nextId sh')%nat ->
  (forall m, m ∈ nids c' -> m ∈ nids c \/ (nextId sh <= m)%nat) ->
  Heap (c' :: R) sh'.
Proof.
  intros [H1 H2 H3 H4] [G1 G2 G3 G4] Hobjs HX Hframe Hnext Hnids.
  rewrite !bind_cons in *. simpl in G1, G2, G3, G4.
  rewrite app_nil_r in G1, G2, G3, G4.
  apply NoDup_app in H1 as (H1a & H1b & H1c).
  apply NoDup_app in H2 as (H2a & H2b & H2c).
  assert (forall o, o ∈ objs c' -> o ∉ (R ≫= objs)) as Hdisj.
  { intros o Ho. destruct (Hobjs o Ho); auto. }
  split.
  - apply NoDup_app. auto.
  - apply NoDup_app. split; [done|]. split; [|done].
    intros m Hm Hm'. destruct (Hnids m Hm) as [Hc|Hge].
    + by apply (H2b m).
    + assert (m < nextId sh)%nat; [|lia]. apply H3. apply elem_of_app. by right.
  - intros m [Hm|Hm]%elem_of_app; [by apply G3|].
    assert (m < nextId sh)%nat; [|lia]. apply H3. apply elem_of_app. by right.
  - intros o m [Hm|Hm]%elem_of_app; [by apply G4|].
    rewrite Hframe.
    + apply H4. apply elem_of_app. by right.
    + intros Ho. apply (Hdisj o Ho). by eapply owners_in_objs.
Qed.

Lemma Heap_node_intro n sh :
  Heap (children n) sh ->
  NoDup (objects n) ->
  (forall o, o ∈ objects n -> o ∉ (children n ≫= objs)) ->
  (nid n ∉ (children n ≫= nids)) ->
  (nid n < nextId sh)%nat ->
  (forall o, o ∈ objects n -> objectToNode sh !! o = Some (nid n)) ->
  Heap [n] sh.
Proof.
  intros [H1 H2 H3 H4] Hnd Hdisj Hnid Hlt Hag. split; simpl; rewrite app_nil_r.
  - rewrite objs_eq. apply NoDup_app. auto.
  - rewrite nids_eq. by apply NoDup_cons.
  - rewrite nids_eq. intros m [->|Hm]%elem_of_cons; auto.
  - rewrite owners_eq. intros o m [Hm|Hm]%elem_of_app; [|auto].
    unfold owned in Hm. apply list_elem_of_fmap in Hm as (o' & Heq & Ho').
    inversion Heq; subst. auto.
Qed.

Lemma Heap_node_elim n sh :
  Heap [n] sh ->
  Heap (children n) sh /\
  NoDup (objects n) /\
  (forall o, o ∈ objects n -> o ∉ (children n ≫= objs)) /\
  (nid n ∉ (children n ≫= nids)) /\
  (nid n < nextId sh)%nat /\
  (forall o, o ∈ objects n -> objectToNode sh !! o = Some (nid n)).
Proof.
  intros [H1 H2 H3 H4]. simpl in *. rewrite app_nil_r in *.
  rewrite objs_eq in H1. rewrite nids_eq in H2, H3. rewrite owners_eq in H4.
  apply NoDup_app in H1 as (H1a & H1b & H1c).
  apply NoDup_cons in H2 as (H2a & H2b).
  repeat split; auto.
  - intros m Hm. apply H3. by right.
  - intros o m Hm. apply H4. apply elem_of_app. by right.
  - apply H3. by left.
  - intros o Ho. apply H4. apply elem_of_app. left.
    unfold owned. apply list_elem_of_fmap. by exists o.
Qed.

Lemma Heap_objs_NoDup n sh : Heap [n] sh -> NoDup (objs n).
Proof. intros [H _ _ _]. simpl in H. by rewrite app_nil_r in H. Qed.

(** The part of a node that no method of the tree changes. *)
Definition hdr (n : OctreeNode.t) : NodeId * THREE.Vector3 * Q * Z :=
  (nid n, min n, size n, depth n).

(** ** [Set] operations *)

Lemma set_add_new o l : o ∉ l -> set_add o l = l ++ [o].
Proof. intros H. unfold set_add. by rewrite decide_False. Qed.

Lemma set_add_old o l : o ∈ l -> set_add o l = l.
Proof. intros H. unfold set_add. by rewrite decide_True. Qed.

Lemma set_adds l L :
  NoDup (l ++ L) -> foldl (fun acc o => set_add o acc) l L = l ++ L.
Proof.
  revert l. induction L as [|a L IH]; intros l Hnd; simpl.
  - by rewrite app_nil_r.
  - rewrite set_add_new.
    + rewrite IH; rewrite <- (assoc (++)); done.
    + apply NoDup_app in Hnd as (_ & Hd & _). intros Hin. apply (Hd a Hin). by left.
Qed.

Lemma set_delete_notin o l : o ∉ l -> set_delete o l = l.
Proof.
  intros H. unfold set_delete. induction l as [|a l IH]; [done|].
  apply not_elem_of_cons in H as [Hne Hl].
  rewrite filter_cons_True by done. by rewrite IH.
Qed.

Lemma set_delete_perm o l : NoDup l -> o ∈ l -> l ≡ₚ o :: set_delete o l.
Proof.
  intros Hnd Hin. apply list_elem_of_split in Hin as (l1 & l2 & ->).
  apply NoDup_app in Hnd as (Hn1 & Hd & Hn2). apply NoDup_cons in Hn2 as (Ho2 & Hn2).
  unfold set_delete. rewrite filter_app, filter_cons_False by (intros H; by apply H).
  fold (set_delete o l1). fold (set_delete o l2).
  rewrite !set_delete_notin; [by rewrite Permutation_middle|done|].
  intros Ho. apply (Hd o Ho). by left.
Qed.

Lemma set_delete_elem o o' l : o' ∈ set_delete o l <-> o' ∈ l /\ o' ≠ o.
Proof. unfold set_delete. rewrite list_elem_of_filter. tauto. Qed.

Lemma set_delete_NoDup o l : NoDup l -> NoDup (set_delete o l).
Proof. apply NoDup_filter. Qed.

(** ** [merge] *)

Lemma merge_fold (i : NodeId) os objs0 otn0 :
  foldl (fun acc (octant : OctreeNode.t) =>
           foldl (fun '(objs, otn) object =>
                    (set_add object objs, <[object := i]> otn))
                 acc (objects octant))
        (objs0, otn0) os
  = (foldl (fun acc o => set_add o acc) objs0 (os ≫= objects),
     foldl (fun (otn : gmap OctreeObject NodeId) o => <[o := i]> otn) otn0 (os ≫= objects)).
Proof.
  revert objs0 otn0. induction os as [|c os IH]; intros objs0 otn0; [done|].
  rewrite bind_cons, !foldl_app. simpl. rewrite <- IH. f_equal.
  generalize (objects c). intros l. revert objs0 otn0.
  induction l as [|a l IHl]; intros; [done|]. simpl. apply IHl.
Qed.

Lemma lookup_sets (i : NodeId) L (otn : gmap OctreeObject NodeId) o :
  foldl (fun (otn : gmap OctreeObject NodeId) o => <[o := i]> otn) otn L !! o
  = if decide (o ∈ L) then Some i else otn !! o.
Proof.
  revert otn. induction L as [|a L IH]; intros otn; cbn [foldl].
  - rewrite decide_False; [done|]. apply not_elem_of_nil.
  - rewrite IH. destruct (decide (o ∈ L)) as [Hin|Hnin].
    + rewrite decide_True; [done|]. by right.
    + destruct (decide (o = a)) as [->|Hne].
      * rewrite decide_True by left. apply lookup_insert_eq.
      * rewrite decide_False.
        -- by rewrite lookup_insert_ne.
        -- intros [?|?]%elem_of_cons; done.
Qed.

Lemma leaves_objs l :
  Forall (fun c => objs c = objects c) l -> l ≫= objs = l ≫= objects.
Proof. induction 1 as [|c l Hc _ IH]; [done|]. by rewrite !bind_cons, Hc, IH. Qed.

Record NodePost (n : OctreeNode.t) (sh : Shared) (n' : OctreeNode.t) (sh' : Shared) : Prop :=
  mkNodePost {
  np_inv : NodeInv n';
  np_heap : Heap [n'] sh';
  np_hdr : hdr n' = hdr n;
  np_frame : forall o, o ∉ objs n' -> objectToNode sh' !! o = objectToNode sh !! o;
  np_next : (nextId sh <= nextId sh')%nat;
  np_nids : forall m, m ∈ nids n' -> m ∈ nids n \/ (nextId sh <= m)%nat
}.

Lemma merge_spec n sh :
  P_count n -> P_oct n -> P_leaf n -> P_depth n ->
  Forall NodeInv (children n) -> Heap [n] sh ->
  exists n' sh', OctreeNode.merge n sh = (n', sh') /\
    NodePost n sh n' sh' /\ count n' = count n /\ objs n' = objs n /\
    nextId sh' = nextId sh.
Proof.
  intros Hcount Hoct Hleaf Hdepth Hch Hheap. unfold OctreeNode.merge.
  destruct (octants n) as [os|] eqn:Eos.
  2:{ exists n, sh. split; [done|]. split; [|done]. split; auto.
      - apply NodeInv_eq. split; [|done]. split; auto. intros H. by rewrite Eos in H. }
  destruct (Z.ltb_spec 8 (count n)) as [Hgt|Hle].
  { exists n, sh. split; [done|]. split; [|done]. split; auto.
    apply NodeInv_eq. split; [|done]. split; auto. by intros _. }
  assert (children n = os) as Hchn by (unfold children; by rewrite Eos).
  rewrite merge_fold.
  assert (Forall (fun c => objs c = objects c) os) as Hleaves.
  { rewrite Forall_forall. intros c Hc. rewrite Hchn in Hch.
    assert (NodeInv c) as Hci by (rewrite Forall_forall in Hch; auto).
    apply small_is_leaf; [done|].
    pose proof (sumCounts_elem os c Hch Hc). unfold P_count in Hcount.
    rewrite Hchn in Hcount. lia. }
  pose proof (Heap_objs_NoDup _ _ Hheap) as Hnd.
  rewrite objs_eq, Hchn, (leaves_objs _ Hleaves) in Hnd.
  rewrite (set_adds _ _ Hnd).
  eexists _, _. split; [reflexivity|].
  assert (objs (OctreeNode.mk (nid n) (min n) (size n) None
                  (objects n ++ (os ≫= objects)) (count n) (depth n)) = objs n) as Hobjs.
  { rewrite (objs_eq n), Hchn, (leaves_objs _ Hleaves). rewrite objs_eq. simpl.
    by rewrite app_nil_r. }
  destruct (Heap_node_elim _ _ Hheap) as (Hh1 & Hh2 & Hh3 & Hh4 & Hh5 & Hh6).
  split; [|done]. split; simpl; auto.
  - apply NodeInv_eq. split; [|by constructor].
    split; unfold P_count, P_oct, P_thresh, P_leaf, P_depth; simpl; try done.
    + unfold P_count in Hcount. rewrite Hcount, Hchn, length_app.
      rewrite (sumCounts_objs os).
      * rewrite (leaves_objs _ Hleaves). lia.
      * rewrite Hchn in Hch. rewrite Forall_forall in Hch |- *.
        intros c Hc. apply count_objs; auto.
    + intros _ _. unfold P_count in Hcount. rewrite Hchn in Hcount.
      rewrite (sumCounts_objs os), (leaves_objs _ Hleaves) in Hcount.
      * rewrite length_app. lia.
      * rewrite Hchn in Hch. rewrite Forall_forall in Hch |- *.
        intros c Hc. apply count_objs; auto.
  - apply Heap_node_intro; simpl; try done.
    + apply Heap_nil.
    + intros o _. apply not_elem_of_nil.
    + apply not_elem_of_nil.
    + intros o Ho. rewrite lookup_sets. destruct (decide (o ∈ os ≫= objects)); [done|].
      apply elem_of_app in Ho as [Ho|Ho]; [by apply Hh6|done].
  - intros o Ho. rewrite Hobjs in Ho. rewrite lookup_sets.
    rewrite decide_False; [done|]. intros Hin. apply Ho.
    rewrite objs_eq, Hchn, (leaves_objs _ Hleaves). apply elem_of_app. by right.
  - intros m Hm. left. rewrite nids_eq in Hm |- *. simpl in Hm.
    apply elem_of_cons in Hm as [->|Hm]; [by left|]. by apply elem_of_nil in Hm.
Qed.

(** ** Geometry of the octants *)

(** Linear arithmetic over [Q] with halving written as a division. *)
Ltac qlra :=
  unfold DEFAULT_ROOT_NODE_SIZE, Qdiv in *;
  change (/ 2)%Q with (1 # 2)%Q in *;
  lra.

Lemma Qltb_lt a b : Qltb a b = true <-> (a < b)%Q.
Proof.
  unfold Qltb. rewrite negb_true_iff. split.
  - intros H. apply Qnot_le_lt. intros Hle. apply Qle_bool_iff in Hle. congruence.
  - intros H. destruct (Qle_bool b a) eqn:E; [|done].
    apply Qle_bool_iff in E. exfalso. by apply (Qlt_not_le a b).
Qed.

Lemma Qltb_ge a b : Qltb a b = false <-> (b <= a)%Q.
Proof.
  unfold Qltb. rewrite negb_false_iff. apply Qle_bool_iff.
Qed.

Section GeometryFacts.
Variable bb : OctreeObject -> THREE.Box3.

Definition inCell (lo s c : Q) : Prop := (lo <= c /\ c < lo + s)%Q.

Lemma containsPoint_spec n p :
  OctreeNode.containsPoint n p = true <->
  inCell (THREE.x (min n)) (size n) (THREE.x p) /\
  inCell (THREE.y (min n)) (size n) (THREE.y p) /\
  inCell (THREE.z (min n)) (size n) (THREE.z p).
Proof.
  unfold OctreeNode.containsPoint, inCell. cbv zeta.
  rewrite !andb_true_iff, !Qltb_lt, !Qle_bool_iff. tauto.
Qed.

Lemma containsCenter_point n o :
  OctreeNode.containsCenter bb n o = OctreeNode.containsPoint n (OctreeNode.center (bb o)).
Proof. reflexivity. Qed.

Lemma largerThan_spec n o :
  OctreeNode.largerThan bb n o = true <->
  (THREE.x (THREE.max (bb o)) - THREE.x (THREE.min (bb o)) < size n /\
   THREE.y (THREE.max (bb o)) - THREE.y (THREE.min (bb o)) < size n /\
   THREE.z (THREE.max (bb o)) - THREE.z (THREE.min (bb o)) < size n)%Q.
Proof.
  unfold OctreeNode.largerThan. cbv zeta.
  rewrite !andb_true_iff, !Qltb_lt. tauto.
Qed.

Lemma containsCenter_hdr n n' o :
  hdr n' = hdr n -> OctreeNode.containsCenter bb n' o = OctreeNode.containsCenter bb n o.
Proof.
  unfold hdr. intros H. inversion H as [[H1 H2 H3 H4]].
  unfold OctreeNode.containsCenter. by rewrite H2, H3.
Qed.

Lemma largerThan_hdr n n' o :
  hdr n' = hdr n -> OctreeNode.largerThan bb n' o = OctreeNode.largerThan bb n o.
Proof.
  unfold hdr. intros H. inversion H as [[H1 H2 H3 H4]].
  unfold OctreeNode.largerThan. by rewrite H3.
Qed.

(** At most one octant of a list claims the centre of [o]. *)
Definition AtMostOne (os : list OctreeNode.t) (o : OctreeObject) : Prop :=
  forall i j c c', os !! i = Some c -> os !! j = Some c' ->
    OctreeNode.containsCenter bb c o = true ->
    OctreeNode.containsCenter bb c' o = true -> i = j.

Lemma AtMostOne_hdr os os' o :
  hdr <$> os' = hdr <$> os -> AtMostOne os o -> AtMostOne os' o.
Proof.
  intros Hh H i j c c' Hi Hj Hc Hc'.
  assert (forall k d, os' !! k = Some d -> exists d0, os !! k = Some d0 /\ hdr d0 = hdr d) as Hx.
  { intros k d Hk. assert ((hdr <$> os') !! k = Some (hdr d)) as Hk'.
    { by rewrite list_lookup_fmap, Hk. }
    rewrite Hh, list_lookup_fmap in Hk'.
    destruct (os !! k) as [d0|]; simpl in Hk'; [|done]. exists d0. split; congruence. }
  destruct (Hx i c Hi) as (c0 & Hi0 & Hh0). destruct (Hx j c' Hj) as (c0' & Hj0 & Hh0').
  apply (H i j c0 c0' Hi0 Hj0).
  - by rewrite (containsCenter_hdr c c0 o Hh0).
  - by rewrite (containsCenter_hdr c' c0' o Hh0').
Qed.

Lemma AtMostOne_cases os o :
  AtMostOne os o ->
  Forall (fun c => OctreeNode.containsCenter bb c o = false) os \/
  exists l1 c l2, os = l1 ++ c :: l2 /\
    Forall (fun c => OctreeNode.containsCenter bb c o = false) l1 /\
    OctreeNode.containsCenter bb c o = true /\
    Forall (fun c => OctreeNode.containsCenter bb c o = false) l2.
Proof.
  intros H.
  destruct (list_find (fun c => OctreeNode.containsCenter bb c o = true) os)
    as [[i c]|] eqn:E.
  - right. apply list_find_Some in E as (Hi & Hc & Hbefore).
    exists (take i os), c, (drop (S i) os). split; [by rewrite take_drop_middle|].
    split; [|split; [done|]].
    + rewrite Forall_forall. intros d Hd.
      apply list_elem_of_lookup in Hd as (j & Hj).
      pose proof (lookup_lt_Some _ _ _ Hj) as Hlt. rewrite length_take in Hlt.
      rewrite lookup_take_lt in Hj by lia.
      apply not_true_is_false. apply (Hbefore j d Hj). lia.
    + rewrite Forall_forall. intros d Hd.
      apply list_elem_of_lookup in Hd as (j & Hj). rewrite lookup_drop in Hj.
      apply not_true_is_false. intros Hd.
      pose proof (H _ _ _ _ Hi Hj Hc Hd). lia.
  - left. apply list_find_None in E. eapply Forall_impl; [exact E|].
    intros d Hd. by apply not_true_is_false.
Qed.

Lemma createOctants_lookup n fresh i c :
  OctreeNode.createOctants n fresh !! i = Some c ->
  (i < 8)%nat /\ c = OctreeNode.newOctant n fresh i.
Proof.
  unfold OctreeNode.createOctants. rewrite list_lookup_fmap.
  destruct (seq 0 8 !! i) as [k|] eqn:E; simpl; [|done].
  apply lookup_seq in E as [-> ?]. intros [= <-]. done.
Qed.

Lemma axis_exclusive (lo h c b1 b2 : Q) :
  (b1 == 0 \/ b1 == 1)%Q -> (b2 == 0 \/ b2 == 1)%Q ->
  inCell (lo + h * b1) h c -> inCell (lo + h * b2) h c -> (b1 == b2)%Q.
Proof.
  unfold inCell. intros [H1|H1] [H2|H2]; rewrite H1, H2; intros [? ?] [? ?];
    try reflexivity; exfalso; lra.
Qed.

Lemma createOctants_AtMostOne n fresh o :
  AtMostOne (OctreeNode.createOctants n fresh) o.
Proof.
  intros i j c c' Hi Hj Hc Hc'.
  apply createOctants_lookup in Hi as [Hi ->].
  apply createOctants_lookup in Hj as [Hj ->].
  rewrite containsCenter_point in Hc, Hc'.
  apply containsPoint_spec in Hc as (Hx & Hy & Hz).
  apply containsPoint_spec in Hc' as (Hx' & Hy' & Hz').
  cbn [OctreeNode.newOctant min size THREE.x THREE.y THREE.z] in *.
  assert (OctreeNode.bit i 1 0 == OctreeNode.bit j 1 0)%Q as Bx.
  { eapply axis_exclusive; [| |exact Hx|exact Hx'];
      do 8 (try destruct i as [|i]); try lia; do 8 (try destruct j as [|j]); try lia;
      vm_compute; tauto. }
  assert (OctreeNode.bit i 2 1 == OctreeNode.bit j 2 1)%Q as By.
  { eapply axis_exclusive; [| |exact Hy|exact Hy'];
      do 8 (try destruct i as [|i]); try lia; do 8 (try destruct j as [|j]); try lia;
      vm_compute; tauto. }
  assert (OctreeNode.bit i 4 2 == OctreeNode.bit j 4 2)%Q as Bz.
  { eapply axis_exclusive; [| |exact Hz|exact Hz'];
      do 8 (try destruct i as [|i]); try lia; do 8 (try destruct j as [|j]); try lia;
      vm_compute; tauto. }
  clear Hx Hy Hz Hx' Hy' Hz'.
  do 8 (try destruct i as [|i]); try lia; do 8 (try destruct j as [|j]); try lia;
    try reflexivity; exfalso; vm_compute in Bx, By, Bz; congruence.
Qed.
End GeometryFacts.

(** ** The loops of [split] *)

Section Loops.
Variable bb : OctreeObject -> THREE.Box3.

Definition placeBody (ins : OctreeNode.t -> Shared -> Res (OctreeNode.t * Shared))
    (o : OctreeObject) :=
  fun '((done, sh, moved) : list OctreeNode.t * Shared * bool) (octant : OctreeNode.t) =>
    if OctreeNode.containsCenter bb octant o
    then '(octant', sh') ← ins octant sh; Ok (done ++ [octant'], sh', true)
    else Ok (done ++ [octant], sh, moved).

Lemma place_skip ins o rest done sh moved :
  Forall (fun c => OctreeNode.containsCenter bb c o = false) rest ->
  foldM (placeBody ins o) rest (done, sh, moved) = Ok (done ++ rest, sh, moved).
Proof.
  intros H. revert done. induction H as [|c rest Hc _ IH]; intros done; simpl.
  - by rewrite app_nil_r.
  - rewrite Hc. simpl. rewrite IH. by rewrite <- (assoc (++)).
Qed.

Lemma placeInOctants_none ins o os sh :
  Forall (fun c => OctreeNode.containsCenter bb c o = false) os ->
  OctreeNode.placeInOctants bb ins o os sh = Ok (os, sh, false).
Proof. intros H. apply (place_skip ins o os [] sh false H). Qed.

Lemma placeInOctants_one ins o l1 c l2 sh c' sh' :
  Forall (fun c => OctreeNode.containsCenter bb c o = false) l1 ->
  OctreeNode.containsCenter bb c o = true ->
  Forall (fun c => OctreeNode.containsCenter bb c o = false) l2 ->
  ins c sh = Ok (c', sh') ->
  OctreeNode.placeInOctants bb ins o (l1 ++ c :: l2) sh = Ok (l1 ++ c' :: l2, sh', true).
Proof.
  intros H1 Hc H2 Hins. unfold OctreeNode.placeInOctants.
  change (foldM (placeBody ins o) (l1 ++ c :: l2) ([], sh, false)
          = Ok (l1 ++ c' :: l2, sh', true)).
  assert (forall done, foldM (placeBody ins o) (l1 ++ c :: l2) (done, sh, false)
                       = Ok (done ++ l1 ++ c' :: l2, sh', true)) as G; [|apply (G [])].
  induction H1 as [|d l1 Hd _ IH]; intros done; simpl.
  - rewrite Hc, Hins. simpl. rewrite place_skip by done.
    by rewrite <- (assoc (++)).
  - rewrite Hd. simpl. rewrite IH. by rewrite <- (assoc (++)).
Qed.
End Loops.

(** Updating one subtree in the middle of a list of siblings. *)
Lemma middle_update l1 c l2 c' sh sh' (X : list OctreeObject) :
  Forall NodeInv (l1 ++ c :: l2) ->
  Heap (l1 ++ c :: l2) sh ->
  NodePost c sh c' sh' ->
  (forall o, o ∈ objs c' -> o ∈ objs c \/ o ∈ X) ->
  (forall o, o ∈ X -> o ∉ ((l1 ++ l2) ≫= objs)) ->
  Forall NodeInv (l1 ++ c' :: l2) /\
  Heap (l1 ++ c' :: l2) sh' /\
  hdr <$> (l1 ++ c' :: l2) = hdr <$> (l1 ++ c :: l2) /\
  (forall o, o ∉ ((l1 ++ c' :: l2) ≫= objs) ->
     objectToNode sh' !! o = objectToNode sh !! o) /\
  (forall m, m ∈ (l1 ++ c' :: l2) ≫= nids ->
     m ∈ (l1 ++ c :: l2) ≫= nids \/ (nextId sh <= m)%nat).
Proof.
  intros Hinv Hheap [P1 P2 P3 P4 P5 P6] Hobjs HX.
  apply Forall_app in Hinv as [Hi1 Hi2]. apply Forall_cons in Hi2 as [_ Hi2].
  split; [apply Forall_app; split; [done|by apply Forall_cons]|].
  split.
  { apply (Heap_perm (c' :: (l1 ++ l2))); [by rewrite Permutation_middle|].
    apply (Heap_replace c c' (l1 ++ l2) sh sh' X); try done.
    apply (Heap_perm (l1 ++ c :: l2)); [by rewrite Permutation_middle|done]. }
  split; [by rewrite !fmap_app, !fmap_cons, P3|].
  split.
  - intros o Ho. apply P4. intros Hin. apply Ho.
    rewrite bind_app, bind_cons, !elem_of_app. auto.
  - intros m. rewrite !bind_app, !bind_cons, !elem_of_app.
    intros [Hm|[Hm|Hm]]; auto. destruct (P6 m Hm); auto.
Qed.

Section Placement.
Variable bb : OctreeObject -> THREE.Box3.

Definition InsertOk (ins : OctreeNode.t -> Shared -> Res (OctreeNode.t * Shared))
    (o : OctreeObject) (d : Z) : Prop :=
  forall c sh, depth c = d -> NodeInv c -> Heap [c] sh -> o ∉ objs c ->
    exists c' sh', ins c sh = Ok (c', sh') /\ NodePost c sh c' sh' /\
      count c' = count c + 1 /\ objs c' ≡ₚ o :: objs c.

Definition SplitOk (spl : OctreeNode.t -> Shared -> Res (OctreeNode.t * Shared))
    (d : Z) : Prop :=
  forall c sh, depth c = d -> NodeInv c -> Heap [c] sh -> count c <= 9 ->
    exists c' sh', spl c sh = Ok (c', sh') /\ NodePost c sh c' sh' /\
      count c' = count c /\ objs c' ≡ₚ objs c.

Lemma place_spec ins o d os sh :
  InsertOk ins o d ->
  Forall (fun c => depth c = d) os ->
  AtMostOne bb os o ->
  Forall NodeInv os -> Heap os sh -> o ∉ (os ≫= objs) ->
  exists os' sh' moved,
    OctreeNode.placeInOctants bb ins o os sh = Ok (os', sh', moved) /\
    hdr <$> os' = hdr <$> os /\ Forall NodeInv os' /\ Heap os' sh' /\
    os' ≫= objs ≡ₚ (if (moved : bool) then [o] else []) ++ (os ≫= objs) /\
    (forall o', o' ∉ (os' ≫= objs) -> objectToNode sh' !! o' = objectToNode sh !! o') /\
    (nextId sh <= nextId sh')%nat /\
    (forall m, m ∈ os' ≫= nids -> m ∈ os ≫= nids \/ (nextId sh <= m)%nat).
Proof.
  intros Hins Hd Hone Hinv Hheap Hnew.
  destruct (AtMostOne_cases bb os o Hone) as [Hnone|(l1 & c & l2 & -> & H1 & Hc & H2)].
  { exists os, sh, false. rewrite placeInOctants_none by done.
    split_and!; auto. }
  assert (depth c = d) as Hdc.
  { rewrite Forall_forall in Hd. apply Hd. apply elem_of_app. right. left. }
  assert (NodeInv c) as Hic.
  { rewrite Forall_forall in Hinv. apply Hinv. apply elem_of_app. right. left. }
  assert (Heap [c] sh) as Hhc.
  { eapply Heap_elem; [exact Hheap|]. apply elem_of_app. right. left. }
  assert (o ∉ objs c) as Hoc.
  { intros Hin. apply Hnew. rewrite bind_app, bind_cons, !elem_of_app. auto. }
  destruct (Hins c sh Hdc Hic Hhc Hoc) as (c' & sh' & Hrun & Hpost & Hcnt & Hperm).
  exists (l1 ++ c' :: l2), sh', true.
  rewrite (placeInOctants_one bb ins o l1 c l2 sh c' sh') by done.
  destruct (middle_update l1 c l2 c' sh sh' [o]) as (M1 & M2 & M3 & M4 & M5); try done.
  { intros o'. rewrite Hperm. rewrite elem_of_cons, list_elem_of_singleton. tauto. }
  { intros o' ->%list_elem_of_singleton Hin. apply Hnew.
    rewrite bind_app in Hin. rewrite bind_app, bind_cons, !elem_of_app.
    apply elem_of_app in Hin. tauto. }
  split_and!; auto.
  - rewrite !bind_app, !bind_cons, Hperm. simpl.
    by rewrite <- !Permutation_middle.
  - by destruct Hpost.
Qed.
End Placement.

Lemma hdr_depths os os' d :
  hdr <$> os' = hdr <$> os ->
  Forall (fun c => depth c = d) os -> Forall (fun c => depth c = d) os'.
Proof.
  revert os'. induction os as [|c os IH]; intros [|c' os'] Hh H; try done.
  rewrite !fmap_cons in Hh. injection Hh as Hc Hr.
  apply Forall_cons in H as [Hd H]. apply Forall_cons. split; [|by apply IH].
  unfold hdr in Hc. congruence.
Qed.

Lemma childOf_depths n os :
  Forall (childOf n) os -> Forall (fun c => depth c = depth n + 1) os.
Proof. intros H. eapply Forall_impl; [exact H|]. by intros c [? _]. Qed.

Lemma hdr_childOf os os' n n' :
  hdr <$> os' = hdr <$> os -> hdr n' = hdr n ->
  Forall (childOf n) os -> Forall (childOf n') os'.
Proof.
  intros Hh Hn. revert os' Hh.
  induction os as [|c os IH]; intros [|c' os'] Hh H; try done.
  rewrite !fmap_cons in Hh. unfold hdr at 1 3 in Hh.
  inversion Hh as [[H1 H2 Hs' Hd' Hr]].
  apply Forall_cons in H as [[Hd Hs] H]. apply Forall_cons. split; [|by apply IH].
  unfold hdr in Hn. inversion Hn as [[H1n H2n Hsn Hdn]].
  unfold childOf. by rewrite Hs', Hd', Hsn, Hdn.
Qed.

Section Distribute.
Variable bb : OctreeObject -> THREE.Box3.
Variable ins : OctreeObject -> OctreeNode.t -> Shared -> Res (OctreeNode.t * Shared).
Variable d : Z.
Hypothesis ins_ok : forall o, InsertOk (ins o) o d.

Definition distributeBody :=
  fun '((os, objs, sh) : list OctreeNode.t * list OctreeObject * Shared) (object : OctreeObject) =>
    match os with
    | [] => Err TypeError
    | first :: _ =>
        if OctreeNode.largerThan bb first object then
          '(os', sh', moved) ← OctreeNode.placeInOctants bb (ins object) object os sh;
          Ok (os', if (moved : bool) then set_delete object objs else objs, sh')
        else Ok (os, objs, sh)
    end.

Lemma distribute_spec todo : forall os objs0 sh,
  os <> [] ->
  Forall (fun c => depth c = d) os ->
  (forall o, AtMostOne bb os o) ->
  Forall NodeInv os -> Heap os sh ->
  NoDup todo -> (forall o, o ∈ todo -> o ∈ objs0) ->
  NoDup objs0 -> (forall o, o ∈ objs0 -> o ∉ (os ≫= objs)) ->
  exists os' objs' sh',
    foldM distributeBody todo (os, objs0, sh) = Ok (os', objs', sh') /\
    hdr <$> os' = hdr <$> os /\ Forall NodeInv os' /\ Heap os' sh' /\
    objs' ++ (os' ≫= objs) ≡ₚ objs0 ++ (os ≫= objs) /\
    (forall o, o ∈ objs' -> o ∈ objs0) /\
    (forall o, o ∈ os ≫= objs -> o ∈ os' ≫= objs) /\
    (forall o', o' ∉ (os' ≫= objs) -> objectToNode sh' !! o' = objectToNode sh !! o') /\
    (nextId sh <= nextId sh')%nat /\
    (forall m, m ∈ os' ≫= nids -> m ∈ os ≫= nids \/ (nextId sh <= m)%nat).
Proof.
  induction todo as [|o todo IH];
    intros os objs0 sh Hne Hd Hone Hinv Hheap Hnd Hsub Hnd0 Hdisj.
  { exists os, objs0, sh. split_and!; auto. }
  apply NoDup_cons in Hnd as [Hnotin Hnd].
  assert (o ∈ objs0) as Ho by (apply Hsub; left).
  assert (exists os1 objs1 sh1,
    distributeBody (os, objs0, sh) o = Ok (os1, objs1, sh1) /\
    hdr <$> os1 = hdr <$> os /\ Forall NodeInv os1 /\ Heap os1 sh1 /\
    objs1 ++ (os1 ≫= objs) ≡ₚ objs0 ++ (os ≫= objs) /\
    (forall o', o' ∈ objs1 <-> o' ∈ objs0 /\ (o' ∈ os1 ≫= objs -> False)) /\
    NoDup objs1 /\
    (forall o, o ∈ os ≫= objs -> o ∈ os1 ≫= objs) /\
    (forall o', o' ∉ (os1 ≫= objs) -> objectToNode sh1 !! o' = objectToNode sh !! o') /\
    (nextId sh <= nextId sh1)%nat /\
    (forall m, m ∈ os1 ≫= nids -> m ∈ os ≫= nids \/ (nextId sh <= m)%nat) /\
    (forall o', o' ∈ os1 ≫= objs -> o' = o \/ o' ∈ os ≫= objs))
    as (os1 & objs1 & sh1 & Hstep & S1 & S2 & S3 & S4 & S5 & S6 & S7 & S8 & S9 & S10 & S11).
  { destruct (place_spec bb (ins o) o d os sh (ins_ok o) Hd (Hone o) Hinv Hheap
                (Hdisj o Ho)) as (os1 & sh1 & moved & Hrun & P1 & P2 & P3 & P4 & P5 & P6 & P7).
    unfold distributeBody. destruct os as [|first rest]; [done|].
    destruct (OctreeNode.largerThan bb first o).
    2:{ exists (first :: rest), objs0, sh. split_and!; auto.
        intros o'. split; [intros H; split; [done|by apply Hdisj]|tauto]. }
    rewrite Hrun. simpl.
    eexists _, _, _. split; [reflexivity|]. split_and!; auto.
    - rewrite P4. destruct moved; simpl; [|done].
      rewrite (set_delete_perm o objs0) at 2 by done.
      by rewrite <- Permutation_middle.
    - intros o'. rewrite P4. destruct moved; simpl.
      + rewrite set_delete_elem, elem_of_cons. split.
        * intros [H1 H2]. split; [done|]. intros [?|?]; [done|]. by apply (Hdisj o').
        * intros [H1 H2]. split; [done|]. intros ->. apply H2. by left.
      + split; [intros H; split; [done|by apply Hdisj]|tauto].
    - destruct moved; [by apply set_delete_NoDup|done].
    - intros o'. rewrite P4. intros H. apply elem_of_app. by right.
    - intros o'. rewrite P4. destruct moved; simpl; [|auto].
      rewrite elem_of_cons. tauto. }
  destruct (IH os1 objs1 sh1) as
    (os' & objs' & sh' & Hrun & I1 & I2 & I3 & I4 & I5 & I6 & I7 & I8 & I9); auto.
  { intros ->. destruct os; done. }
  { by apply (hdr_depths os). }
  { intros o'. by apply (AtMostOne_hdr bb os). }
  { intros o' Ho'. apply S5. split; [by apply Hsub; right|].
    intros Hin. destruct (S11 o' Hin) as [->|Hx]; [done|].
    apply (Hdisj o'); [|done]. apply Hsub. by right. }
  { intros o'. rewrite S5. tauto. }
  exists os', objs', sh'. cbn [foldM]. rewrite Hstep. cbn [mbind Res_bind].
  split; [exact Hrun|].
  split_and!; auto.
  - congruence.
  - by rewrite I4.
  - intros o' Ho'. apply I5 in Ho'. apply S5 in Ho'. tauto.
  - intros o' Ho'. rewrite I7 by done. apply S8. intros Hin. apply Ho'. auto.
  - lia.
  - intros m Hm. destruct (I9 m Hm) as [H|H]; [|right; lia].
    destruct (S10 m H); auto.
Qed.
End Distribute.

Section SplitChildren.
Variable spl : OctreeNode.t -> Shared -> Res (OctreeNode.t * Shared).
Variable d : Z.
Hypothesis spl_ok : SplitOk spl d.

Definition splitChildBody :=
  fun '((done, sh) : list OctreeNode.t * Shared) (octant : OctreeNode.t) =>
    '(octant', sh') ← spl octant sh; Ok (done ++ [octant'], sh').

Lemma splitChildren_spec rest : forall done sh,
  Forall (fun c => depth c = d) rest ->
  Forall NodeInv (done ++ rest) -> Heap (done ++ rest) sh ->
  Forall (fun c => count c <= 9) rest ->
  exists rest' sh',
    foldM splitChildBody rest (done, sh) = Ok (done ++ rest', sh') /\
    hdr <$> rest' = hdr <$> rest /\
    Forall NodeInv (done ++ rest') /\ Heap (done ++ rest') sh' /\
    rest' ≫= objs ≡ₚ rest ≫= objs /\
    (forall o', o' ∉ (rest' ≫= objs) -> objectToNode sh' !! o' = objectToNode sh !! o') /\
    (nextId sh <= nextId sh')%nat /\
    (forall m, m ∈ rest' ≫= nids -> m ∈ rest ≫= nids \/ (nextId sh <= m)%nat).
Proof.
  induction rest as [|c rest IH]; intros done sh Hd Hinv Hheap Hcnt.
  { exists [], sh. simpl. split_and!; auto. by rewrite app_nil_r. }
  apply Forall_cons in Hd as [Hdc Hd]. apply Forall_cons in Hcnt as [Hcc Hcnt].
  assert (NodeInv c) as Hic.
  { rewrite Forall_forall in Hinv. apply Hinv. apply elem_of_app. right. left. }
  assert (Heap [c] sh) as Hhc.
  { eapply Heap_elem; [exact Hheap|]. apply elem_of_app. right. left. }
  destruct (spl_ok c sh Hdc Hic Hhc Hcc) as (c' & sh1 & Hrun & Hpost & Hcount & Hperm).
  destruct (middle_update done c rest c' sh sh1 []) as (M1 & M2 & M3 & M4 & M5); try done.
  { intros o. rewrite Hperm. auto. }
  { intros o Ho. by apply elem_of_nil in Ho. }
  destruct (IH (done ++ [c']) sh1) as (rest' & sh' & Hrun' & I1 & I2 & I3 & I4 & I5 & I6 & I7);
    auto.
  { by rewrite <- (assoc (++)). }
  { by rewrite <- (assoc (++)). }
  exists (c' :: rest'), sh'. cbn [foldM]. unfold splitChildBody at 2.
  rewrite Hrun. cbn [mbind Res_bind]. rewrite Hrun'.
  rewrite <- !(assoc (++)) in *. cbn [app] in *.
  destruct Hpost as [Q1 Q2 Q3 Q4 Q5 Q6].
  split_and!; auto.
  - by rewrite !fmap_cons, Q3, I1.
  - by rewrite !bind_cons, Hperm, I4.
  - intros o'. rewrite bind_cons, elem_of_app. intros Ho'.
    rewrite I5 by tauto. apply Q4. tauto.
  - lia.
  - intros m. rewrite !bind_cons, !elem_of_app. intros [Hm|Hm].
    + destruct (Q6 m Hm); auto.
    + destruct (I7 m Hm); [auto|right; lia].
Qed.
End SplitChildren.

(** ** Fresh octants *)

Lemma createOctants_objs n fresh : OctreeNode.createOctants n fresh ≫= objs = [].
Proof. reflexivity. Qed.

Lemma createOctants_nids n fresh :
  OctreeNode.createOctants n fresh ≫= nids = (fun i => (fresh + i)%nat) <$> seq 0 8.
Proof. reflexivity. Qed.

Lemma createOctants_owners n fresh : OctreeNode.createOctants n fresh ≫= owners = [].
Proof. reflexivity. Qed.

Lemma createOctants_length n fresh : length (OctreeNode.createOctants n fresh) = 8%nat.
Proof. reflexivity. Qed.

Lemma createOctants_depth n fresh :
  Forall (fun c => depth c = depth n + 1) (OctreeNode.createOctants n fresh).
Proof. unfold OctreeNode.createOctants. simpl. repeat constructor. Qed.

Lemma createOctants_childOf n fresh :
  Forall (childOf n) (OctreeNode.createOctants n fresh).
Proof.
  unfold OctreeNode.createOctants, childOf. simpl.
  repeat (constructor; [split; [reflexivity|simpl; reflexivity]|]). constructor.
Qed.

Lemma createOctants_count n fresh :
  Forall (fun c => count c = 0) (OctreeNode.createOctants n fresh).
Proof. unfold OctreeNode.createOctants. simpl. repeat constructor. Qed.

Lemma createOctants_inv n fresh :
  depth n < MAX_DEPTH -> Forall NodeInv (OctreeNode.createOctants n fresh).
Proof.
  intros Hd. rewrite Forall_forall. intros c Hc.
  apply list_elem_of_lookup in Hc as (i & Hi).
  apply createOctants_lookup in Hi as [_ ->].
  apply NodeInv_eq. split; [|by constructor].
  split; unfold P_count, P_oct, P_thresh, P_leaf, P_depth; simpl; try done.
  - intros _ _. lia.
  - lia.
Qed.

Lemma createOctants_heap n sh :
  Heap (OctreeNode.createOctants n (nextId sh))
       (mkShared (objectToNode sh) (nextId sh + 8)%nat).
Proof.
  split.
  - rewrite createOctants_objs. apply NoDup_nil_2.
  - rewrite createOctants_nids. apply NoDup_fmap_2; [|apply NoDup_seq].
    intros i j. lia.
  - intros m. rewrite createOctants_nids. intros (i & -> & Hi)%list_elem_of_fmap.
    apply elem_of_seq in Hi. simpl. lia.
  - intros o m. rewrite createOctants_owners. by intros ?%elem_of_nil.
Qed.

Lemma createOctants_nids_ge n fresh m :
  m ∈ OctreeNode.createOctants n fresh ≫= nids -> (fresh <= m)%nat.
Proof.
  rewrite createOctants_nids. intros (i & -> & Hi)%list_elem_of_fmap. lia.
Qed.

(** Writing the entry of an object that no subtree of the forest holds. *)
Lemma Heap_set_otn F sh o m :
  Heap F sh -> o ∉ (F ≫= objs) ->
  Heap F (mkShared (<[o := m]> (objectToNode sh)) (nextId sh)).
Proof.
  intros [H1 H2 H3 H4] Ho. split; simpl; try done.
  intros o' m' Hin. rewrite lookup_insert_ne; [by apply H4|].
  intros ->. apply Ho. by eapply owners_in_objs.
Qed.

Lemma Heap_next F sh k :
  Heap F sh -> (nextId sh <= k)%nat -> Heap F (mkShared (objectToNode sh) k).
Proof.
  intros [H1 H2 H3 H4] Hk. split; simpl; try done.
  intros m Hm. specialize (H3 m Hm). lia.
Qed.

(** ** [split] and [insert] of a node *)

Section SplitStep.
Variable bb : OctreeObject -> THREE.Box3.
Variable ins : OctreeObject -> OctreeNode.t -> Shared -> Res (OctreeNode.t * Shared).
Variable spl : OctreeNode.t -> Shared -> Res (OctreeNode.t * Shared).

(** [split] past its guard, with the recursive calls abstracted. *)
Definition splitBody (this : OctreeNode.t) (sh : Shared) : Res (OctreeNode.t * Shared) :=
  let os0 := OctreeNode.createOctants this (nextId sh) in
  let sh0 := mkShared (objectToNode sh) (nextId sh + 8)%nat in
  '(os1, objs1, sh1) ←
    foldM (distributeBody bb ins) (objects this) (os0, objects this, sh0);
  '(os2, sh2) ← foldM (splitChildBody spl) os1 ([], sh1);
  Ok (OctreeNode.mk (nid this) (min this) (size this) (Some os2) objs1
        (count this) (depth this), sh2).

Lemma splitBody_spec n sh :
  (forall o, InsertOk (ins o) o (depth n + 1)) ->
  SplitOk spl (depth n + 1) ->
  P_count n -> Forall NodeInv (children n) -> Heap [n] sh ->
  count n <= 9 -> (8 < length (objects n))%nat -> depth n < MAX_DEPTH ->
  exists n' sh', splitBody n sh = Ok (n', sh') /\ NodePost n sh n' sh' /\
    count n' = count n /\ objs n' ≡ₚ objs n.
Proof.
  intros Hins Hspl Hcount Hch Hheap Hle Hgt Hdepth.
  pose proof (sumCounts_nonneg _ Hch) as Hsum.
  unfold P_count in Hcount.
  assert (children n ≫= objs = []) as Hold.
  { assert (Forall (fun c => objs c = []) (children n)) as Hall.
    { rewrite Forall_forall. intros c Hc.
      assert (NodeInv c) as Hic by (rewrite Forall_forall in Hch; auto).
      apply empty_no_objs; [done|].
      pose proof (sumCounts_elem _ c Hch Hc). pose proof (count_nonneg c Hic). lia. }
    clear -Hall. induction Hall as [|c l Hc _ IH]; [done|].
    rewrite bind_cons, Hc, IH. done. }
  assert (objs n = objects n) as Hobjs by (by rewrite objs_eq, Hold, app_nil_r).
  assert (length (objects n) = 9%nat) as Hnine by lia.
  destruct (Heap_node_elim _ _ Hheap) as (Hh1 & Hh2 & Hh3 & Hh4 & Hh5 & Hh6).
  unfold splitBody. cbv zeta.
  set (os0 := OctreeNode.createOctants n (nextId sh)).
  set (sh0 := mkShared (objectToNode sh) (nextId sh + 8)%nat).
  destruct (distribute_spec bb ins (depth n + 1) Hins (objects n) os0 (objects n) sh0)
    as (os1 & objs1 & sh1 & Hrun1 & D1 & D2 & D3 & D4 & D5 & D6 & D7 & D8 & D9); auto.
  { apply createOctants_depth. }
  { intros o. apply createOctants_AtMostOne. }
  { apply createOctants_inv. lia. }
  { apply createOctants_heap. }
  { intros o _. unfold os0. rewrite createOctants_objs. apply not_elem_of_nil. }
  rewrite Hrun1. cbn [mbind Res_bind].
  unfold os0 in D4. rewrite createOctants_objs, app_nil_r in D4.
  assert (NoDup (objs1 ++ (os1 ≫= objs))) as Hnd1 by (by rewrite D4).
  apply NoDup_app in Hnd1 as (Hnd1 & Hdisj1 & Hnd1').
  destruct (splitChildren_spec spl (depth n + 1) Hspl os1 [] sh1)
    as (os2 & sh2 & Hrun2 & C1 & C2 & C3 & C4 & C5 & C6 & C7); auto.
  { apply (hdr_depths os0); [done|]. apply createOctants_depth. }
  { rewrite Forall_forall. intros c Hc.
    assert (NodeInv c) as Hic by (rewrite Forall_forall in D2; auto).
    rewrite (count_objs c Hic).
    assert (length (objs c) <= length (os1 ≫= objs))%nat.
    { apply list_elem_of_split in Hc as (l1 & l2 & ->).
      rewrite bind_app, bind_cons, !length_app. lia. }
    assert (length (objs1 ++ (os1 ≫= objs)) = 9%nat) as Hl by (by rewrite D4).
    rewrite length_app in Hl. lia. }
  rewrite Hrun2. cbn [mbind Res_bind app] in *.
  eexists _, _. split; [reflexivity|].
  assert (length os2 = 8%nat) as Hlen.
  { rewrite <- (length_fmap hdr), C1, D1, length_fmap. apply createOctants_length. }
  assert (objs (OctreeNode.mk (nid n) (min n) (size n) (Some os2) objs1 (count n) (depth n))
          = objs1 ++ (os2 ≫= objs)) as Hobjs' by (by rewrite objs_eq).
  assert (forall m, m ∈ os2 ≫= nids -> (nextId sh <= m)%nat) as Hnew.
  { intros m Hm. destruct (C7 m Hm) as [Hm1|Hm1]; [|simpl in *; lia].
    destruct (D9 m Hm1) as [Hm0|Hm0]; [|simpl in *; lia].
    by apply createOctants_nids_ge in Hm0. }
  split; [|split; [done|]].
  2:{ by rewrite Hobjs', C4, D4, Hobjs. }
  split.
  - apply NodeInv_eq. split; [|done].
    split; unfold P_count, P_oct, P_thresh, P_leaf, P_depth, children; simpl; try done.
    + rewrite (sumCounts_objs os2).
      * assert (length (objs1 ++ (os2 ≫= objs)) = 9%nat) as Hl by (by rewrite C4, D4).
        rewrite length_app in Hl. lia.
      * rewrite Forall_forall in C2 |- *. intros c Hc. apply count_objs. auto.
    + intros os [= <-]. split; [done|].
      apply (hdr_childOf os1 _ n); [done|done|].
      apply (hdr_childOf os0 _ n n); [done|done|].
      apply createOctants_childOf.
    + intros _. lia.
    + lia.
  - apply Heap_node_intro; simpl; try done.
    + intros o Ho. rewrite C4. by apply Hdisj1.
    + intros Hin. apply Hnew in Hin. lia.
    + simpl in *. lia.
    + intros o Ho. rewrite C5 by (rewrite C4; by apply Hdisj1).
      rewrite D7 by (by apply Hdisj1). simpl. apply Hh6. by apply D5.
  - done.
  - intros o. rewrite Hobjs', elem_of_app. intros Ho.
    rewrite C5 by tauto. rewrite D7; [done|].
    intros Hin. apply Ho. right. by rewrite C4.
  - simpl in *. lia.
  - intros m. rewrite nids_eq. simpl. intros [->|Hm]%elem_of_cons.
    + left. rewrite nids_eq. left.
    + right. by apply Hnew.
Qed.
End SplitStep.

Definition SplitPreOk (spl : OctreeNode.t -> Shared -> Res (OctreeNode.t * Shared))
    (d : Z) : Prop :=
  forall n sh, depth n = d ->
    P_count n -> P_oct n -> P_thresh n -> P_depth n ->
    Forall NodeInv (children n) -> Heap [n] sh ->
    (count n <= 9 \/ depth n = MAX_DEPTH) ->
    exists n' sh', spl n sh = Ok (n', sh') /\ NodePost n sh n' sh' /\
      count n' = count n /\ objs n' ≡ₚ objs n.

Lemma SplitPreOk_SplitOk spl d : SplitPreOk spl d -> SplitOk spl d.
Proof.
  intros H c sh Hd Hinv Hheap Hle.
  destruct (NodeInv_local _ Hinv) as [L1 L2 L3 L4 L5].
  apply H; auto. by apply NodeInv_children.
Qed.

Section InsertStep.
Variable bb : OctreeObject -> THREE.Box3.
Variable ins : OctreeNode.t -> Shared -> Res (OctreeNode.t * Shared).
Variable spl : OctreeNode.t -> Shared -> Res (OctreeNode.t * Shared).

(** [insert] with the recursive calls abstracted. *)
Definition insertBody (this : OctreeNode.t) (object : OctreeObject) (sh : Shared)
  : Res (OctreeNode.t * Shared) :=
  let this := OctreeNode.set_count this (count this + 1) in
  let here :=
    (OctreeNode.set_objects this (set_add object (objects this)),
     mkShared (<[object := nid this]> (objectToNode sh)) (nextId sh)) in
  match octants this with
  | Some os =>
      match os with
      | [] => Err TypeError
      | first :: _ =>
          match (if OctreeNode.largerThan bb first object
                 then list_find (fun c => OctreeNode.containsCenter bb c object = true) os
                 else None) with
          | Some (i, octant) =>
              '(octant', sh') ← ins octant sh;
              Ok (OctreeNode.set_octants this (Some (<[i := octant']> os)), sh')
          | None => Ok here
          end
      end
  | None => spl (fst here) (snd here)
  end.

(** Storing the object on the node itself. *)
Lemma store_here n o sh :
  P_count n -> Forall NodeInv (children n) -> Heap [n] sh -> o ∉ objs n ->
  let n1 := OctreeNode.set_objects (OctreeNode.set_count n (count n + 1))
              (set_add o (objects n)) in
  let sh1 := mkShared (<[o := nid n]> (objectToNode sh)) (nextId sh) in
  P_count n1 /\ Heap [n1] sh1 /\ objs n1 ≡ₚ o :: objs n /\
  objects n1 = objects n ++ [o] /\
  (forall o', o' ∉ objs n1 -> objectToNode sh1 !! o' = objectToNode sh !! o').
Proof.
  intros Hcount Hch Hheap Hnew n1 sh1.
  assert (o ∉ objects n) as Hno.
  { intros Hin. apply Hnew. rewrite objs_eq. apply elem_of_app. by left. }
  assert (o ∉ (children n ≫= objs)) as Hnc.
  { intros Hin. apply Hnew. rewrite objs_eq. apply elem_of_app. by right. }
  assert (objects n1 = objects n ++ [o]) as Hobj.
  { unfold n1. simpl. by apply set_add_new. }
  assert (children n1 = children n) as Hchn by done.
  assert (objs n1 ≡ₚ o :: objs n) as Hperm.
  { rewrite (objs_eq n1), Hobj, Hchn, (objs_eq n).
    rewrite <- (assoc (++)). simpl. by rewrite <- Permutation_middle. }
  destruct (Heap_node_elim _ _ Hheap) as (Hh1 & Hh2 & Hh3 & Hh4 & Hh5 & Hh6).
  split_and!; auto.
  - unfold P_count in *. rewrite Hobj, Hchn, length_app. unfold n1. simpl. lia.
  - apply Heap_node_intro; rewrite ?Hobj, ?Hchn.
    + by apply Heap_set_otn.
    + apply NoDup_app. split; [done|]. split; [|apply NoDup_singleton].
      intros x Hx ->%list_elem_of_singleton. done.
    + intros x [Hx| ->%list_elem_of_singleton]%elem_of_app; auto.
    + done.
    + done.
    + intros x Hx. unfold sh1, n1. simpl.
      destruct (decide (x = o)) as [->|Hne]; [apply lookup_insert_eq|].
      rewrite lookup_insert_ne by done. apply Hh6.
      apply elem_of_app in Hx as [Hx|Hx%list_elem_of_singleton]; done.
  - intros o' Ho'. unfold sh1. simpl. rewrite lookup_insert_ne; [done|].
    intros ->. apply Ho'. rewrite Hperm. left.
Qed.

Lemma insertBody_spec n o sh :
  InsertOk ins o (depth n + 1) -> SplitPreOk spl (depth n) ->
  NodeInv n -> Heap [n] sh -> o ∉ objs n ->
  exists n' sh', insertBody n o sh = Ok (n', sh') /\ NodePost n sh n' sh' /\
    count n' = count n + 1 /\ objs n' ≡ₚ o :: objs n.
Proof.
  intros Hins Hspl Hinv Hheap Hnew.
  destruct (NodeInv_local _ Hinv) as [L1 L2 L3 L4 L5].
  pose proof (NodeInv_children _ Hinv) as Hch.
  destruct (store_here n o sh L1 Hch Hheap Hnew) as (S1 & S2 & S3 & S4 & S5).
  destruct (Heap_node_elim _ _ Hheap) as (Hh1 & Hh2 & Hh3 & Hh4 & Hh5 & Hh6).
  unfold insertBody. cbv zeta.
  change (octants (OctreeNode.set_count n (count n + 1))) with (octants n).
  destruct (octants n) as [os|] eqn:Eos.
  2:{ (* a leaf: store, then try to split *)
    cbn [fst snd].
    set (n1 := OctreeNode.set_objects _ _) in *. set (sh1 := mkShared _ _) in *.
    destruct (Hspl n1 sh1) as (n' & sh' & Hrun & [Q1 Q2 Q3 Q4 Q5 Q6] & Hc & Hp); auto.
    { intros H. exfalso. apply H. unfold n1. simpl. done. }
    { destruct (decide (depth n = MAX_DEPTH)) as [?|Hne]; [by right|left].
      specialize (L4 Eos Hne). unfold P_count, children in L1. rewrite Eos in L1.
      simpl in L1. rewrite ?sumCounts_nil in L1. unfold n1. simpl. lia. }
    exists n', sh'. split; [done|]. split; [|split; [by rewrite Hc|by rewrite Hp]].
    split; auto.
    - intros o' Ho'. rewrite Q4 by done. apply S5. by rewrite <- Hp.
    - intros m Hm. destruct (Q6 m Hm) as [H|H]; [left|by right].
      by rewrite nids_eq in H |- *. }
  assert (children n = os) as Hchn by (unfold children; by rewrite Eos).
  rewrite Hchn in *.
  destruct (L2 os Eos) as [Hlen Hdep0].
  pose proof (childOf_depths _ _ Hdep0) as Hdep.
  destruct os as [|first rest] eqn:Eq; [done|]. rewrite <- Eq in *.
  destruct (if OctreeNode.largerThan bb first o
            then list_find (fun c => OctreeNode.containsCenter bb c o = true) os
            else None) as [[i octant]|] eqn:Efind.
  2:{ (* no octant takes the object *)
    eexists _, _. split; [reflexivity|].
    split; [|split; [done|done]]. split; auto.
    - apply NodeInv_eq.
      split; [|unfold children; simpl; rewrite Eos; exact Hch].
      split; auto; unfold P_oct, P_thresh, P_leaf, P_depth in *; simpl.
      + intros H. specialize (L3 H). lia.
      + rewrite Eos. done.
    - intros m Hm. left. by rewrite nids_eq in Hm |- *. }
  (* the object goes down into octant [i] *)
  assert (os !! i = Some octant) as Hi.
  { destruct (OctreeNode.largerThan bb first o); [|done].
    by apply list_find_Some in Efind as (? & _). }
  pose proof (lookup_lt_Some _ _ _ Hi) as Hlt.
  assert (os = take i os ++ octant :: drop (S i) os) as Hsplit
    by (by rewrite take_drop_middle).
  set (l1 := take i os) in *. set (l2 := drop (S i) os) in *.
  assert (forall x, <[i := x]> os = l1 ++ x :: l2) as Hupd.
  { intros x. unfold l1, l2. by rewrite insert_take_drop. }
  assert (octant ∈ os) as Hin by (eapply list_elem_of_lookup_2; eauto).
  assert (NodeInv octant) as Hio by (rewrite Forall_forall in Hch; auto).
  assert (depth octant = depth n + 1) as Hdo by (rewrite Forall_forall in Hdep; auto).
  assert (o ∉ (os ≫= objs)) as Hnos.
  { intros H. apply Hnew. rewrite objs_eq, Hchn. apply elem_of_app. by right. }
  assert (o ∉ objs octant) as Hnoo.
  { intros H. apply Hnos. apply list_elem_of_bind. eauto. }
  destruct (Hins octant sh Hdo Hio (Heap_elem _ _ _ Hh1 Hin) Hnoo)
    as (octant' & sh' & Hrun & Hpost & Hc & Hp).
  rewrite Hrun. cbn [mbind Res_bind]. rewrite Hupd.
  destruct (middle_update l1 octant l2 octant' sh sh' [o]) as (M1 & M2 & M3 & M4 & M5);
    try done; try (by rewrite <- Hsplit).
  { intros x. rewrite Hp, elem_of_cons, list_elem_of_singleton. tauto. }
  { intros x ->%list_elem_of_singleton H. apply Hnos. rewrite Hsplit.
    rewrite bind_app, bind_cons, !elem_of_app. rewrite bind_app, elem_of_app in H. tauto. }
  rewrite <- Hsplit in M3, M5.
  set (os' := l1 ++ octant' :: l2) in *.
  assert (os' ≫= objs ≡ₚ o :: (os ≫= objs)) as Hpo.
  { unfold os'. rewrite Hsplit, !bind_app, !bind_cons, Hp. simpl.
    by rewrite <- !Permutation_middle. }
  assert (sumCounts os' = sumCounts os + 1) as Hsc.
  { unfold os'. rewrite Hsplit, !sumCounts_app, !sumCounts_cons. lia. }
  destruct Hpost as [Q1 Q2 Q3 Q4 Q5 Q6].
  eexists _, _. split; [reflexivity|].
  split; [|split; [done|]].
  2:{ rewrite objs_eq. unfold children. simpl. rewrite Hpo, (objs_eq n), Hchn.
      by rewrite <- Permutation_middle. }
  split.
  - apply NodeInv_eq. split; [|done].
    split; unfold P_count, P_oct, P_thresh, P_leaf, P_depth, children in *; simpl.
    + rewrite Hsc. rewrite Eos in L1. simpl in L1. lia.
    + intros ? [= <-]. split.
      * rewrite <- (length_fmap hdr), M3, length_fmap. done.
      * by apply (hdr_childOf os _ n).
    + intros _. assert (8 < count n) by (apply L3; by rewrite Eos). lia.
    + done.
    + done.
  - apply Heap_node_intro; unfold children; simpl; try done.
    + intros x Hx. rewrite Hpo. intros [->|H]%elem_of_cons.
      * apply Hnew. rewrite objs_eq. apply elem_of_app. by left.
      * by apply (Hh3 x).
    + intros H. destruct (M5 _ H) as [H'|H']; [done|lia].
    + lia.
    + intros x Hx. rewrite M4; [by apply Hh6|].
      rewrite Hpo. intros [->|H]%elem_of_cons.
      * apply Hnew. rewrite objs_eq. apply elem_of_app. by left.
      * by apply (Hh3 x).
  - done.
  - intros x Hx. apply M4. intros H. apply Hx. rewrite objs_eq.
    unfold children. simpl. apply elem_of_app. by right.
  - done.
  - intros m. rewrite !nids_eq. unfold children at 1. simpl. rewrite Hchn.
    intros [->|H]%elem_of_cons; [left; left|].
    destruct (M5 _ H) as [H'|H']; [left; by right|by right].
Qed.
End InsertStep.

Section InsertSplit.
Variable bb : OctreeObject -> THREE.Box3.

Definition insFuel (d : Z) : nat := Z.to_nat (2 * (MAX_DEPTH - d) + 2).
Definition splitFuel (d : Z) : nat := Z.to_nat (2 * (MAX_DEPTH - d) + 1).

Lemma insert_unfold f n o sh :
  OctreeNode.insert bb (S f) n o sh
  = insertBody bb (fun c s => OctreeNode.insert bb f c o s) (OctreeNode.split bb f) n o sh.
Proof. reflexivity. Qed.

Lemma split_unfold f n sh :
  OctreeNode.split bb (S f) n sh
  = if (length (objects n) <=? 8)%nat || (depth n =? MAX_DEPTH) then Ok (n, sh)
    else splitBody bb (fun o c s => OctreeNode.insert bb f c o s) (OctreeNode.split bb f) n sh.
Proof. reflexivity. Qed.

(** With fuel for the levels down to [MAX_DEPTH], [insert] and [split]
    return, and they keep the invariant. *)
Lemma insert_split_spec f :
  (forall d o, (insFuel d <= f)%nat -> d <= MAX_DEPTH ->
     InsertOk (fun c s => OctreeNode.insert bb f c o s) o d) /\
  (forall d, (splitFuel d <= f)%nat -> d <= MAX_DEPTH ->
     SplitPreOk (OctreeNode.split bb f) d).
Proof.
  induction f as [|f [IHi IHs]].
  { split; intros *; unfold insFuel, splitFuel, MAX_DEPTH; lia. }
  split.
  - intros d o Hf Hd c sh Hdc Hinv Hheap Hnew. rewrite insert_unfold.
    apply insertBody_spec; auto.
    + destruct (decide (depth c + 1 <= MAX_DEPTH)) as [Hle|Hgt].
      * apply IHi; [|done]. unfold insFuel in *. lia.
      * intros c' sh' Hdc' Hinv' _ _.
        pose proof (l_depth _ (NodeInv_local _ Hinv')) as H. unfold P_depth in H. lia.
    + apply IHs; [|lia]. unfold insFuel, splitFuel in *. lia.
  - intros d Hf Hd n sh Hdn Hcount Hoct Hthresh Hdepth Hch Hheap Hle.
    rewrite split_unfold.
    destruct ((length (objects n) <=? 8)%nat || (depth n =? MAX_DEPTH)) eqn:Eg.
    + exists n, sh. split; [done|]. split; [|done]. split; auto.
      apply NodeInv_eq. split; [|done]. split; auto.
      intros _ Hne. apply orb_true_iff in Eg as [Hg|Hg].
      * by apply Nat.leb_le in Hg.
      * apply Z.eqb_eq in Hg. done.
    + apply orb_false_iff in Eg as [Hg1 Hg2].
      apply Nat.leb_gt in Hg1. apply Z.eqb_neq in Hg2.
      unfold P_depth in Hdepth.
      apply splitBody_spec; auto; try lia.
      * intros o. apply IHi; [|lia]. unfold insFuel, splitFuel in *. lia.
      * apply SplitPreOk_SplitOk. apply IHs; [|lia]. unfold splitFuel in *. lia.
Qed.

Lemma node_insert_spec n o sh :
  NodeInv n -> Heap [n] sh -> o ∉ objs n ->
  exists n' sh', OctreeNode.insert bb (Octree.nodeFuel n) n o sh = Ok (n', sh') /\
    NodePost n sh n' sh' /\ count n' = count n + 1 /\ objs n' ≡ₚ o :: objs n.
Proof.
  intros Hinv Hheap Hnew.
  pose proof (l_depth _ (NodeInv_local _ Hinv)) as Hd. unfold P_depth in Hd.
  destruct (insert_split_spec (Octree.nodeFuel n)) as [H _].
  apply (H (depth n) o); auto.
Qed.
End InsertSplit.

(** ** [remove] of a node *)

Definition removeFirst (f : OctreeNode.t -> option (OctreeNode.t * Shared))
  : list OctreeNode.t -> option (list OctreeNode.t * Shared) :=
  fix go (os : list OctreeNode.t) : option (list OctreeNode.t * Shared) :=
    match os with
    | [] => None
    | c :: r =>
        match f c with
        | Some (c', sh') => Some (c' :: r, sh')
        | None =>
            match go r with
            | Some (r', sh') => Some (c :: r', sh')
            | None => None
            end
        end
    end.

Lemma remove_unfold n target o sh :
  OctreeNode.remove n target o sh =
  if decide (nid n = target) then
    Some (OctreeNode.merge
            (OctreeNode.set_count (OctreeNode.set_objects n (set_delete o (objects n)))
               (count n - 1)) sh)
  else
    match octants n with
    | None => None
    | Some os =>
        match removeFirst (fun c => OctreeNode.remove c target o sh) os with
        | None => None
        | Some (os', sh') =>
            Some (OctreeNode.merge
                    (OctreeNode.set_count (OctreeNode.set_octants n (Some os'))
                       (count n - 1)) sh')
        end
    end.
Proof. destruct n; reflexivity. Qed.

Lemma removeFirst_none f os :
  Forall (fun c => f c = None) os -> removeFirst f os = None.
Proof. induction 1 as [|c os Hc _ IH]; simpl; [done|]. by rewrite Hc, IH. Qed.

Lemma removeFirst_some f l1 c l2 c' sh' :
  Forall (fun c => f c = None) l1 -> f c = Some (c', sh') ->
  removeFirst f (l1 ++ c :: l2) = Some (l1 ++ c' :: l2, sh').
Proof.
  intros H Hc. induction H as [|d l1 Hd _ IH]; simpl.
  - by rewrite Hc.
  - by rewrite Hd, IH.
Qed.

Lemma remove_absent o sh target n :
  target ∉ nids n -> OctreeNode.remove n target o sh = None.
Proof.
  induction n as [n IH] using node_ind'. intros Hn.
  rewrite nids_eq in Hn. apply not_elem_of_cons in Hn as [Hne Hn].
  rewrite remove_unfold. rewrite decide_False by done.
  destruct (octants n) as [os|] eqn:Eos; [|done].
  unfold children in IH, Hn. rewrite Eos in IH, Hn. simpl in IH, Hn.
  rewrite removeFirst_none; [done|].
  rewrite Forall_forall in IH |- *. intros c Hc. apply IH; [done|].
  intros H. apply Hn. apply list_elem_of_bind. eauto.
Qed.

Lemma owners_nids o m n : (o, m) ∈ owners n -> m ∈ nids n.
Proof.
  rewrite elem_of_owners. intros (k & Hk & <- & _).
  unfold nids. apply list_elem_of_fmap. eauto.
Qed.

Lemma remove_spec o target n : forall sh,
  NodeInv n -> Heap [n] sh -> (o, target) ∈ owners n ->
  exists n' sh', OctreeNode.remove n target o sh = Some (n', sh') /\
    NodePost n sh n' sh' /\ count n' = count n - 1 /\ objs n ≡ₚ o :: objs n' /\
    nextId sh' = nextId sh.
Proof.
  induction n as [n IH] using node_ind'. intros sh Hinv Hheap Hown.
  destruct (NodeInv_local _ Hinv) as [L1 L2 L3 L4 L5].
  pose proof (NodeInv_children _ Hinv) as Hch.
  destruct (Heap_node_elim _ _ Hheap) as (Hh1 & Hh2 & Hh3 & Hh4 & Hh5 & Hh6).
  rewrite remove_unfold. rewrite owners_eq in Hown.
  destruct (decide (nid n = target)) as [Heq|Hne].
  - (* the node holding the object *)
    assert (o ∈ objects n) as Ho.
    { apply elem_of_app in Hown as [H|H].
      - unfold owned in H. apply list_elem_of_fmap in H as (o' & [= -> _] & H). done.
      - exfalso. apply Hh4. rewrite Heq.
        apply list_elem_of_bind in H as (c & H & Hc). apply owners_nids in H.
        apply list_elem_of_bind. eauto. }
    set (n1 := OctreeNode.set_count _ _).
    assert (length (objects n) = S (length (set_delete o (objects n)))) as Hlen.
    { by rewrite (set_delete_perm o (objects n)) at 1. }
    destruct (merge_spec n1 sh) as (n' & sh' & Hrun & [Q1 Q2 Q3 Q4 Q5 Q6] & Hc & Hp & Hnx).
    { unfold P_count in *. unfold n1, children in *. simpl. lia. }
    { done. }
    { intros H1 H2. unfold n1. simpl. specialize (L4 H1 H2). lia. }
    { done. }
    { done. }
    { apply Heap_node_intro; unfold n1, children; simpl; auto.
      - by apply set_delete_NoDup.
      - intros x [Hx _]%set_delete_elem. by apply Hh3.
      - intros x [Hx _]%set_delete_elem. by apply Hh6. }
    exists n', sh'. split; [by rewrite Hrun|].
    split; [|split; [by rewrite Hc|split; [|done]]].
    + split; auto. intros m Hm. destruct (Q6 m Hm) as [H|H]; [left|by right].
      by rewrite nids_eq in H |- *.
    + rewrite Hp, (objs_eq n), (objs_eq n1). unfold n1, children. simpl.
      by rewrite (set_delete_perm o (objects n)) at 1.
  - (* a node below *)
    assert ((o, target) ∈ children n ≫= owners) as Hbelow.
    { apply elem_of_app in Hown as [H|H]; [|done].
      unfold owned in H. apply list_elem_of_fmap in H as (o' & [= _ ->] & H). done. }
    destruct (octants n) as [os|] eqn:Eos.
    2:{ unfold children in Hbelow. rewrite Eos in Hbelow. by apply elem_of_nil in Hbelow. }
    assert (children n = os) as Hchn by (unfold children; by rewrite Eos).
    rewrite Hchn in *.
    apply list_elem_of_bind in Hbelow as (c & Hoc & Hc).
    apply list_elem_of_split in Hc as (l1 & l2 & ->).
    assert (NodeInv c) as Hic.
    { rewrite Forall_forall in Hch. apply Hch. apply elem_of_app. right. left. }
    assert (Heap [c] sh) as Hhc.
    { eapply Heap_elem; [exact Hh1|]. apply elem_of_app. right. left. }
    assert (forall x, x ∈ l1 ++ c :: l2 ->
              NodeInv x -> Heap [x] sh -> (o, target) ∈ owners x ->
              exists n' sh', OctreeNode.remove x target o sh = Some (n', sh') /\
                NodePost x sh n' sh' /\ count n' = count x - 1 /\
                objs x ≡ₚ o :: objs n' /\ nextId sh' = nextId sh) as IH'.
    { intros x Hx. rewrite Forall_forall in IH. apply IH. done. }
    destruct (IH' c) as (c' & sh1 & Hrun & Hpost & Hcc & Hpc & Hnc); auto.
    { apply elem_of_app. right. left. }
    rewrite (removeFirst_some _ l1 c l2 c' sh1); [|
      |exact Hrun].
    2:{ rewrite Forall_forall. intros x Hx. apply remove_absent.
        intros Hin. pose proof (owners_nids _ _ _ Hoc) as Htc.
        destruct Hh1 as [_ Hnd _ _].
        rewrite bind_app, bind_cons in Hnd. apply NoDup_app in Hnd as (_ & Hd & _).
        apply (Hd target).
        - apply list_elem_of_bind. eauto.
        - apply elem_of_app. by left. }
    destruct (middle_update l1 c l2 c' sh sh1 []) as (M1 & M2 & M3 & M4 & M5); try done.
    { intros x Hx. left. rewrite Hpc. by right. }
    { intros x Hx. by apply elem_of_nil in Hx. }
    set (os' := l1 ++ c' :: l2) in *.
    assert (forall x, x ∈ os' ≫= objs -> x ∈ (l1 ++ c :: l2) ≫= objs) as Hsub.
    { intros x. unfold os'. rewrite !bind_app, !bind_cons, !elem_of_app, Hpc.
      rewrite elem_of_cons. tauto. }
    set (n1 := OctreeNode.set_count _ _).
    destruct Hpost as [R1 R2 R3 R4 R5 R6].
    destruct (L2 _ Eos) as [Hlen Hdep].
    assert (sumCounts os' = sumCounts (l1 ++ c :: l2) - 1) as Hsc.
    { unfold os'. rewrite !sumCounts_app, !sumCounts_cons. lia. }
    destruct (merge_spec n1 sh1) as (n' & sh' & Hrun' & [Q1 Q2 Q3 Q4 Q5 Q6] & Hc & Hp & Hnx).
    { unfold P_count in L1 |- *. rewrite Hchn in L1.
      unfold n1, children. simpl. rewrite Hsc. lia. }
    { intros ? [= <-]. split.
      - rewrite <- (length_fmap hdr), M3, length_fmap. done.
      - by apply (hdr_childOf (l1 ++ c :: l2) _ n). }
    { intros H. done. }
    { done. }
    { done. }
    { apply Heap_node_intro; unfold n1, children; simpl; auto.
      - intros x Hx Hin. apply (Hh3 x Hx). by apply Hsub.
      - intros Hin. destruct (M5 _ Hin) as [H|H]; [done|lia].
      - lia.
      - intros x Hx. rewrite M4; [by apply Hh6|].
        intros Hin. apply (Hh3 x Hx). by apply Hsub. }
    exists n', sh'. split; [by rewrite Hrun'|].
    split; [|split; [by rewrite Hc|split; [|lia]]].
    + split; auto.
      * intros x Hx. rewrite Q4 by done. apply M4.
        intros Hin. apply Hx. rewrite Hp, objs_eq. unfold n1, children. simpl.
        apply elem_of_app. by right.
      * lia.
      * intros m Hm. destruct (Q6 m Hm) as [H|H]; [|right; lia].
        rewrite nids_eq in H. unfold n1, children in H. simpl in H.
        rewrite nids_eq, Hchn.
        apply elem_of_cons in H as [->|H]; [left; left|].
        destruct (M5 _ H) as [H'|H']; [left; by right|by right].
    + rewrite Hp, (objs_eq n), (objs_eq n1), Hchn. unfold n1, children. simpl.
      unfold os'. rewrite !bind_app, !bind_cons, Hpc. simpl.
      by rewrite <- !Permutation_middle.
Qed.

(** ** The invariant of the whole index *)

Import Octree (root, shared, console).

Record Inv (s : Octree.t) : Prop := mkInv {
  inv_node : NodeInv (root s);
  inv_heap : Heap [root s] (shared s);
  inv_dom : forall o, is_Some (objectToNode (shared s) !! o) -> o ∈ objs (root s);
  inv_depth : MIN_DEPTH <= depth (root s);
  inv_size : (DEFAULT_ROOT_NODE_SIZE / 2 <= size (root s))%Q
}.

Lemma Inv_tracked s o :
  Inv s -> (is_Some (objectToNode (shared s) !! o) <-> o ∈ objs (root s)).
Proof.
  intros [H1 H2 H3 H4 H5]. split; [apply H3|].
  intros Ho. destruct (objs_in_owners o [root s]) as (m & Hm).
  { simpl. by rewrite app_nil_r. }
  rewrite (H_agree _ _ H2 o m Hm). eauto.
Qed.

Lemma Heap_app_intro F G sh :
  Heap F sh -> Heap G sh ->
  (forall o, o ∈ F ≫= objs -> o ∉ (G ≫= objs)) ->
  (forall m, m ∈ F ≫= nids -> m ∉ (G ≫= nids)) ->
  Heap (F ++ G) sh.
Proof.
  intros [F1 F2 F3 F4] [G1 G2 G3 G4] Ho Hn. split; rewrite bind_app.
  - apply NoDup_app. auto.
  - apply NoDup_app. auto.
  - intros m [H|H]%elem_of_app; auto.
  - intros o m [H|H]%elem_of_app; auto.
Qed.

Lemma octantIndex_lt direction : (Octree.octantIndex direction < 8)%nat.
Proof.
  unfold Octree.octantIndex.
  destruct (Qltb _ _), (Qltb _ _), (Qltb _ _); simpl; lia.
Qed.

Lemma onlyNonEmpty_spec os :
  match Octree.onlyNonEmpty os with
  | None => True
  | Some None => Forall (fun c => count c <= 0) os
  | Some (Some c) =>
      exists l1 l2, os = l1 ++ c :: l2 /\ 0 < count c /\
        Forall (fun c => count c <= 0) l1 /\ Forall (fun c => count c <= 0) l2
  end.
Proof.
  unfold Octree.onlyNonEmpty.
  induction os as [|c os IH] using rev_ind; simpl; [done|].
  rewrite foldl_app. simpl.
  destruct (foldl _ _ os) as [[d|]|]; [| |done].
  - destruct IH as (l1 & l2 & -> & Hd & H1 & H2).
    destruct (Z.ltb_spec 0 (count c)); [done|].
    exists l1, (l2 ++ [c]). split; [by rewrite <- (assoc (++))|].
    split_and!; auto. apply Forall_app. split; [done|]. by constructor.
  - destruct (Z.ltb_spec 0 (count c)).
    + exists os, []. split_and!; auto.
    + apply Forall_app. split; [done|]. by constructor.
Qed.

Lemma zero_counts_no_objs l :
  Forall NodeInv l -> Forall (fun c => count c <= 0) l ->
  l ≫= objs = [] /\ sumCounts l = 0.
Proof.
  induction 1 as [|c l Hc _ IH]; intros H; [done|].
  apply Forall_cons in H as [Hz H]. destruct (IH H) as [IH1 IH2].
  pose proof (count_nonneg c Hc).
  destruct (empty_no_objs c Hc) as [Ho _]; [lia|].
  rewrite bind_cons, sumCounts_cons, Ho, IH1, IH2. split; [done|lia].
Qed.

(** ** [grow] *)

Lemma grow_spec bb s towards :
  Inv s -> depth (root s) <> MIN_DEPTH ->
  Inv (Octree.grow bb s towards) /\
  objs (root (Octree.grow bb s towards)) ≡ₚ objs (root s) /\
  depth (root (Octree.grow bb s towards)) = depth (root s) - 1 /\
  count (root (Octree.grow bb s towards)) = count (root s) /\
  console (Octree.grow bb s towards) = console s.
Proof.
  intros [Hinv Hheap Hdom Hmin Hsize] Hne. unfold Octree.grow, Octree.adoptOldRoot. cbv zeta.
  set (r := root s) in *. set (sh := shared s) in *.
  set (dir := Octree.growthDirection r (bb towards)).
  set (newRoot := Octree.newRootFor r dir (nextId sh)).
  destruct (NodeInv_local _ Hinv) as [L1 L2 L3 L4 L5]. unfold P_depth in L5.
  destruct (Z.ltb_spec 0 (count r)) as [Hpos|Hzero].
  2:{ (* the tree was empty: the new root replaces the old one *)
    pose proof (count_nonneg r Hinv) as Hnn.
    destruct (empty_no_objs r Hinv) as [Hobjs _]; [lia|].
    simpl. split_and!; auto; [|by rewrite Hobjs|lia].
    split; simpl.
    - apply NodeInv_eq. split; [|by constructor].
      split; unfold P_count, P_oct, P_thresh, P_leaf, P_depth; simpl; try done.
      + intros _ _. lia.
      + lia.
    - apply Heap_node_intro; simpl; try done.
      + apply Heap_nil.
      + apply NoDup_nil_2.
      + intros o Ho. by apply elem_of_nil in Ho.
      + apply not_elem_of_nil.
      + lia.
      + intros o Ho. by apply elem_of_nil in Ho.
    - intros o Ho. specialize (Hdom o Ho). rewrite Hobjs in Hdom.
      by apply elem_of_nil in Hdom.
    - lia.
    - qlra. }
  (* the old root becomes one octant of the new root *)
  set (fresh := OctreeNode.createOctants newRoot (S (nextId sh))).
  set (idx := Octree.octantIndex dir).
  pose proof (octantIndex_lt dir) as Hidx. fold idx in Hidx.
  assert (exists x, fresh !! idx = Some x) as (x & Hx).
  { apply lookup_lt_is_Some. unfold fresh. rewrite createOctants_length. done. }
  assert (fresh = take idx fresh ++ x :: drop (S idx) fresh) as Hsplit
    by (by rewrite take_drop_middle).
  set (l1 := take idx fresh) in *. set (l2 := drop (S idx) fresh) in *.
  assert (<[idx := r]> fresh = l1 ++ r :: l2) as Hupd.
  { unfold l1, l2. rewrite insert_take_drop; [done|].
    unfold fresh. rewrite createOctants_length. done. }
  cbn [nextId objectToNode]. fold fresh. rewrite Hupd.
  set (sh2 := mkShared (objectToNode sh) (S (nextId sh) + 8)%nat).
  set (n1 := OctreeNode.set_count _ _).
  assert (Forall NodeInv fresh) as Hfi.
  { apply createOctants_inv. unfold newRoot. simpl. lia. }
  assert (Heap fresh sh2) as Hfh.
  { apply (createOctants_heap newRoot (mkShared (objectToNode sh) (S (nextId sh)))). }
  assert (Forall (fun c => count c = 0) fresh) as Hfc by apply createOctants_count.
  assert (Forall (fun c => depth c = depth r) fresh) as Hfd.
  { pose proof (createOctants_depth newRoot (S (nextId sh))) as H.
    eapply Forall_impl; [exact H|]. intros c Hc. rewrite Hc. unfold newRoot. simpl. lia. }
  assert (fresh ≫= objs = []) as Hfo by apply createOctants_objs.
  rewrite Hsplit in Hfi, Hfh, Hfc, Hfd, Hfo.
  assert (Forall NodeInv (l1 ++ l2) /\ Forall (fun c => count c = 0) (l1 ++ l2) /\
          Forall (fun c => depth c = depth r) (l1 ++ l2)) as (Hli & Hlc & Hld).
  { rewrite !Forall_app, !Forall_cons in *. tauto. }
  assert ((l1 ++ l2) ≫= objs = []) as Hlo.
  { rewrite bind_app, bind_cons in Hfo. rewrite bind_app.
    apply app_eq_nil in Hfo as [-> H]. by apply app_eq_nil in H as [_ ->]. }
  assert (Heap (l1 ++ l2) sh2) as Hlh.
  { apply (Heap_app_r [x]). eapply Heap_perm; [|exact Hfh].
    by rewrite <- Permutation_middle. }
  assert (forall m, m ∈ (l1 ++ l2) ≫= nids -> (S (nextId sh) <= m)%nat) as Hln.
  { intros m Hm. apply (createOctants_nids_ge newRoot). fold fresh.
    rewrite Hsplit. rewrite bind_app, bind_cons, !elem_of_app.
    rewrite bind_app, elem_of_app in Hm. tauto. }
  assert (Heap (l1 ++ r :: l2) sh2) as Hos.
  { apply (Heap_perm ([r] ++ (l1 ++ l2))); [simpl; by rewrite Permutation_middle|].
    apply Heap_app_intro; auto.
    - apply (Heap_next [r] sh); [done|]. lia.
    - intros o _. rewrite Hlo. apply not_elem_of_nil.
    - intros m Hm Hm'. apply Hln in Hm'. simpl in Hm. rewrite app_nil_r in Hm.
      pose proof (H_fresh _ _ Hheap m) as Hlt. simpl in Hlt. rewrite app_nil_r in Hlt.
      specialize (Hlt Hm). lia. }
  assert ((l1 ++ r :: l2) ≫= objs ≡ₚ objs r) as Hpo.
  { rewrite <- Permutation_middle, bind_cons, Hlo. by rewrite app_nil_r. }
  assert (sumCounts (l1 ++ r :: l2) = count r) as Hsc.
  { rewrite sumCounts_app, sumCounts_cons.
    assert (forall l, Forall (fun c => count c = 0) l -> sumCounts l = 0) as Hz.
    { induction 1 as [|c l Hc _ IH]; [done|]. rewrite sumCounts_cons. lia. }
    apply Forall_app in Hlc as [Hc1 Hc2]. rewrite (Hz l1), (Hz l2) by done. lia. }
  destruct (merge_spec n1 sh2) as (n' & sh' & Hrun & [Q1 Q2 Q3 Q4 Q5 Q6] & Hc & Hp & Hnx).
  { unfold P_count, n1, children. simpl. rewrite Hsc. lia. }
  { intros ? [= <-]. split.
    - rewrite <- Hupd, length_insert. unfold fresh. apply createOctants_length.
    - pose proof (createOctants_childOf newRoot (S (nextId sh))) as Hco.
      fold fresh in Hco. rewrite Hsplit in Hco.
      rewrite Forall_app, Forall_cons in Hco. destruct Hco as (Hco1 & _ & Hco2).
      rewrite Forall_app, Forall_cons. split_and!; [exact Hco1| |exact Hco2].
      split; unfold n1, newRoot; simpl; [lia|]. field. }
  { intros H. done. }
  { unfold P_depth, n1, newRoot. simpl. lia. }
  { unfold n1, children. simpl. rewrite Forall_app, Forall_cons in *. tauto. }
  { apply Heap_node_intro; unfold n1, children; simpl; try done.
    - apply NoDup_nil_2.
    - intros o Ho. by apply elem_of_nil in Ho.
    - rewrite bind_app, bind_cons, !elem_of_app. intros [H|[H|H]].
      + assert (S (nextId sh) <= nextId sh)%nat; [|lia].
        apply Hln. rewrite bind_app, elem_of_app. by left.
      + pose proof (H_fresh _ _ Hheap (nextId sh)) as Hlt. simpl in Hlt.
        rewrite app_nil_r in Hlt. specialize (Hlt H). lia.
      + assert (S (nextId sh) <= nextId sh)%nat; [|lia].
        apply Hln. rewrite bind_app, elem_of_app. by right.
    - lia.
    - intros o Ho. by apply elem_of_nil in Ho. }
  rewrite Hrun. cbn [root shared console].
  assert (objs n' ≡ₚ objs r) as Hperm.
  { rewrite Hp, objs_eq. unfold n1, children. simpl. done. }
  split_and!; auto.
  - split; cbn [root shared]; auto.
    + intros o Ho. rewrite Hperm. apply Hdom.
      destruct (decide (o ∈ objs n')) as [Hin|Hnin].
      * rewrite Hperm in Hin.
        by apply (Inv_tracked s o (mkInv _ Hinv Hheap Hdom Hmin Hsize)).
      * by rewrite (Q4 o Hnin) in Ho.
    + unfold hdr in Q3. injection Q3 as _ _ _ ->. unfold n1, newRoot. simpl. lia.
    + unfold hdr in Q3. injection Q3 as _ _ -> _. unfold n1, newRoot. simpl. qlra.
  - unfold hdr in Q3. injection Q3 as _ _ _ ->. unfold n1, newRoot. simpl. lia.
Qed.

(** ** [shrink] *)

Lemma shrinkRoot_stop f r :
  (size r < DEFAULT_ROOT_NODE_SIZE)%Q \/ objects r <> [] ->
  Octree.shrinkRoot (S f) r = Ok r.
Proof.
  intros H. simpl.
  destruct H as [H|H].
  - apply Qltb_lt in H. by rewrite H.
  - destruct (objects r); [done|]. simpl. by rewrite orb_true_r.
Qed.

Lemma shrinkRoot_spec f : forall r sh,
  NodeInv r -> Heap [r] sh -> MIN_DEPTH <= depth r ->
  (Z.to_nat (MAX_DEPTH - depth r) + 1 <= f)%nat ->
  exists r', Octree.shrinkRoot f r = Ok r' /\
    NodeInv r' /\ Heap [r'] sh /\ objs r' = objs r /\ MIN_DEPTH <= depth r' /\
    ((DEFAULT_ROOT_NODE_SIZE / 2 <= size r)%Q -> (DEFAULT_ROOT_NODE_SIZE / 2 <= size r')%Q).
Proof.
  induction f as [|f IH]; intros r sh Hinv Hheap Hmin Hf; [lia|].
  destruct (NodeInv_local _ Hinv) as [L1 L2 L3 L4 L5]. unfold P_depth in L5.
  pose proof (NodeInv_children _ Hinv) as Hch.
  destruct (Heap_node_elim _ _ Hheap) as (Hh1 & Hh2 & Hh3 & Hh4 & Hh5 & Hh6).
  simpl.
  destruct (Qltb (size r) DEFAULT_ROOT_NODE_SIZE || (0 <? length (objects r))%nat) eqn:Eg.
  { exists r. split_and!; auto. }
  apply orb_false_iff in Eg as [Hbig Hempty]. apply Nat.ltb_ge in Hempty.
  apply Qltb_ge in Hbig.
  assert (objects r = []) as Hobj by (destruct (objects r); [done|simpl in *; lia]).
  destruct (Z.eqb_spec (count r) 0) as [Hz|Hnz].
  { (* reset to the default empty octree *)
    destruct (empty_no_objs r Hinv Hz) as [Hobjs Hoct].
    eexists. split; [reflexivity|]. rewrite Hoct, Hobj.
    split_and!.
    - apply NodeInv_eq. split; [|by constructor].
      split; unfold P_count, P_oct, P_thresh, P_leaf, P_depth, children; simpl; try done.
      all: rewrite ?sumCounts_nil; try intros _ _; lia.
    - apply Heap_node_intro; unfold children; simpl; try done.
      + apply Heap_nil.
      + apply NoDup_nil_2.
      + intros o Ho. by apply elem_of_nil in Ho.
      + apply not_elem_of_nil.
      + intros o Ho. by apply elem_of_nil in Ho.
    - by rewrite Hobjs.
    - simpl. unfold MIN_DEPTH. lia.
    - intros _. simpl. qlra. }
  destruct (octants r) as [os|] eqn:Eos; [|exists r; split_and!; auto].
  assert (children r = os) as Hchn by (unfold children; by rewrite Eos).
  rewrite Hchn in *.
  pose proof (onlyNonEmpty_spec os) as Hscan.
  destruct (Octree.onlyNonEmpty os) as [[c|]|]; [| |exists r; split_and!; auto].
  - destruct Hscan as (l1 & l2 & -> & Hpos & H1 & H2).
    apply Forall_app in Hch as [Hc1 Hc2]. apply Forall_cons in Hc2 as [Hc Hc2].
    destruct (zero_counts_no_objs l1 Hc1 H1) as [Ho1 _].
    destruct (zero_counts_no_objs l2 Hc2 H2) as [Ho2 _].
    destruct (L2 _ Eos) as [_ Hdep].
    assert (childOf r c) as [Hdc Hsc].
    { rewrite Forall_forall in Hdep. apply Hdep. apply elem_of_app. right. left. }
    pose proof (l_depth _ (NodeInv_local _ Hc)) as Hcd. unfold P_depth in Hcd.
    destruct (IH c sh) as (r' & Hrun & R1 & R2 & R3 & R4 & R5); auto; try lia.
    { eapply Heap_elem; [exact Hh1|]. apply elem_of_app. right. left. }
    exists r'. split; [done|]. split_and!; auto.
    + rewrite R3, (objs_eq r), Hobj, Hchn, bind_app, bind_cons, Ho1, Ho2.
      simpl. by rewrite app_nil_r.
    + intros _. apply R5. rewrite Hsc. qlra.
  - (* some octant is non-empty, since the count is not zero *)
    exfalso. destruct (zero_counts_no_objs os Hch Hscan) as [_ Hs].
    unfold P_count in L1. rewrite Hchn, Hobj, Hs in L1. simpl in L1. lia.
Qed.

Lemma shrink_spec s :
  Inv s ->
  exists s', Octree.shrink s = Ok s' /\ Inv s' /\
    objs (root s') = objs (root s) /\ shared s' = shared s /\ console s' = console s.
Proof.
  intros [Hinv Hheap Hdom Hmin Hsize].
  pose proof (l_depth _ (NodeInv_local _ Hinv)) as Hd. unfold P_depth in Hd.
  destruct (shrinkRoot_spec (Octree.nodeFuel (root s)) (root s) (shared s))
    as (r' & Hrun & R1 & R2 & R3 & R4 & R5); auto.
  { unfold Octree.nodeFuel. lia. }
  unfold Octree.shrink. rewrite Hrun. cbn [mbind Res_bind].
  eexists. split; [reflexivity|]. split_and!; auto.
  split; cbn [root shared]; auto.
  intros o Ho. rewrite R3. by apply Hdom.
Qed.

Lemma shrink_stop s :
  depth (root s) <= MAX_DEPTH ->
  (size (root s) < DEFAULT_ROOT_NODE_SIZE)%Q \/ objects (root s) <> [] ->
  Octree.shrink s = Ok s.
Proof.
  intros Hd H. unfold Octree.shrink.
  assert (exists f, Octree.nodeFuel (root s) = S f) as [f ->].
  { unfold Octree.nodeFuel. exists (Z.to_nat (2 * (MAX_DEPTH - depth (root s)) + 1)). lia. }
  rewrite shrinkRoot_stop by done. by destruct s.
Qed.

(** ** The public operations keep the invariant *)

Section Operations.
Variable bb : OctreeObject -> THREE.Box3.

Definition fits (n : OctreeNode.t) (o : OctreeObject) : bool :=
  OctreeNode.largerThan bb n o && OctreeNode.containsCenter bb n o.

Lemma fits_hdr n n' o : hdr n' = hdr n -> fits n' o = fits n o.
Proof.
  intros H. unfold fits.
  by rewrite (largerThan_hdr bb n n' o H), (containsCenter_hdr bb n n' o H).
Qed.

Lemma growLoop_spec o f : forall s,
  Inv s -> (Z.to_nat (depth (root s) - MIN_DEPTH) + 1 <= f)%nat ->
  exists s' fitted, Octree.growLoop bb f s o = Ok (s', fitted) /\
    Inv s' /\ objs (root s') ≡ₚ objs (root s) /\
    count (root s') = count (root s) /\
    (fitted = true -> fits (root s') o = true /\ console s' = console s) /\
    (fitted = false ->
       fits (root s') o = false /\ depth (root s') = MIN_DEPTH /\
       console s' = console s ++ [Octree.warning] /\
       (depth (root s) = MIN_DEPTH -> root s' = root s /\ shared s' = shared s)).
Proof.
  induction f as [|f IH]; intros s Hinv Hf; [lia|].
  simpl.
  destruct (negb (OctreeNode.largerThan bb (root s) o)
            || negb (OctreeNode.containsCenter bb (root s) o)) eqn:Eg.
  2:{ exists s, true. split_and!; auto; [|done].
      intros _. split; [|done]. unfold fits.
      apply orb_false_iff in Eg as [H1 H2].
      apply negb_false_iff in H1, H2. by rewrite H1, H2. }
  assert (fits (root s) o = false) as Hnofit.
  { unfold fits. apply orb_true_iff in Eg as [H|H]; apply negb_true_iff in H; rewrite H;
      [done|apply andb_false_r]. }
  destruct (Z.eqb_spec (depth (root s)) MIN_DEPTH) as [Hmin|Hne].
  { eexists _, false. split; [reflexivity|]. split_and!; auto; [|done].
    destruct Hinv as [H1 H2 H3 H4 H5]. split; auto. }
  destruct (grow_spec bb s o Hinv Hne) as (G1 & G2 & G3 & G4 & G5).
  pose proof (inv_depth _ Hinv) as Hd.
  destruct (IH (Octree.grow bb s o) G1) as (s' & fitted & Hrun & I1 & I2 & I3 & I4 & I5).
  { rewrite G3. lia. }
  exists s', fitted. split; [done|]. split_and!; auto.
  - by rewrite I2.
  - lia.
  - intros H. destruct (I4 H). split; [done|congruence].
  - intros H. destruct (I5 H) as (? & ? & ? & ?). split_and!; auto; [congruence|done].
Qed.

Lemma insert_spec s o :
  Inv s ->
  exists s', Octree.insert bb s o = Ok s' /\ Inv s' /\
    (is_Some (objectToNode (shared s) !! o) -> s' = s) /\
    (objectToNode (shared s) !! o = None ->
       (console s' = console s /\ objs (root s') ≡ₚ o :: objs (root s) /\
        fits (root s') o = true) \/
       (console s' = console s ++ [Octree.warning] /\
        objs (root s') ≡ₚ objs (root s) /\ depth (root s') = MIN_DEPTH /\
        fits (root s') o = false /\
        (depth (root s) = MIN_DEPTH -> root s' = root s /\ shared s' = shared s))).
Proof.
  intros Hinv. unfold Octree.insert.
  destruct (objectToNode (shared s) !! o) as [m|] eqn:Eo.
  { exists s. split_and!; auto. done. }
  pose proof (inv_depth _ Hinv) as Hd.
  destruct (growLoop_spec o (Z.to_nat (depth (root s) - MIN_DEPTH) + 1) s Hinv)
    as (s1 & fitted & Hrun & G1 & G2 & G3 & G4 & G5); [lia|].
  rewrite Hrun. cbn [mbind Res_bind].
  destruct fitted.
  2:{ destruct (G5 eq_refl) as (? & ? & ? & ?).
      exists s1. split_and!; auto; [intros [? ?]; done|].
      intros _. right. split_and!; auto. }
  destruct (G4 eq_refl) as [Hfit Hcon].
  assert (o ∉ objs (root s1)) as Hnew.
  { rewrite G2. intros Hin. apply (Inv_tracked s o Hinv) in Hin.
    rewrite Eo in Hin. by destruct Hin. }
  destruct (node_insert_spec bb (root s1) o (shared s1) (inv_node _ G1) (inv_heap _ G1) Hnew)
    as (r' & sh' & Hrun' & [Q1 Q2 Q3 Q4 Q5 Q6] & Hc & Hp).
  rewrite Hrun'. cbn [mbind Res_bind].
  assert (Inv (Octree.mk r' sh' (console s1))) as Hinv'.
  { split; cbn [root shared]; auto.
    - intros x Hx. destruct (decide (x ∈ objs r')) as [|Hnin]; [done|].
      rewrite (Q4 x Hnin) in Hx. apply (inv_dom _ G1) in Hx.
      rewrite Hp. by right.
    - unfold hdr in Q3. injection Q3 as _ _ _ ->. apply (inv_depth _ G1).
    - unfold hdr in Q3. injection Q3 as _ _ -> _. apply (inv_size _ G1). }
  assert (objs r' ≡ₚ o :: objs (root s)) as Hperm by (by rewrite Hp, G2).
  assert (fits r' o = true) as Hfit' by (by rewrite (fits_hdr _ _ _ Q3)).
  assert ((if count (root s1) =? 0
           then Octree.shrink (Octree.mk r' sh' (console s1))
           else Ok (Octree.mk r' sh' (console s1)))
          = Ok (Octree.mk r' sh' (console s1))) as ->.
  { destruct (Z.eqb_spec (count (root s1)) 0) as [Hz|]; [|done].
    (* the root was empty: the object now sits in its own set, and
       [shrink] stops at once *)
    apply shrink_stop; cbn [root].
    - apply (l_depth _ (NodeInv_local _ Q1)).
    - right. destruct (small_is_leaf r' Q1) as [_ Hleaf]; [lia|].
      rewrite <- Hleaf. intros Hnil. rewrite Hnil in Hp.
      by apply Permutation_nil_cons in Hp. }
  eexists. split; [reflexivity|]. split_and!; auto.
  intros [? ?]; done.
Qed.

Lemma remove_op_spec s o :
  Inv s ->
  exists s', Octree.remove s o = Ok s' /\ Inv s' /\ console s' = console s /\
    (objectToNode (shared s) !! o = None -> s' = s) /\
    (is_Some (objectToNode (shared s) !! o) ->
       objs (root s) ≡ₚ o :: objs (root s') /\
       objectToNode (shared s') !! o = None).
Proof.
  intros Hinv. unfold Octree.remove.
  destruct (objectToNode (shared s) !! o) as [m|] eqn:Eo.
  2:{ exists s. split_and!; auto. intros [? ?]; done. }
  assert ((o, m) ∈ owners (root s)) as Hown.
  { assert (o ∈ objs (root s)) as Hin by (apply (Inv_tracked s o Hinv); eauto).
    destruct (objs_in_owners o [root s]) as (m' & Hm').
    { simpl. by rewrite app_nil_r. }
    pose proof (H_agree _ _ (inv_heap _ Hinv) o m' Hm') as Hag.
    simpl in Hm'. rewrite app_nil_r in Hm'. congruence. }
  destruct (remove_spec o m (root s) (shared s) (inv_node _ Hinv) (inv_heap _ Hinv) Hown)
    as (r' & sh' & Hrun & [Q1 Q2 Q3 Q4 Q5 Q6] & Hc & Hp & Hnx).
  rewrite Hrun.
  pose proof (Heap_objs_NoDup _ _ (inv_heap _ Hinv)) as Hnd.
  rewrite Hp in Hnd. apply NoDup_cons in Hnd as [Hnotin Hnd].
  set (s1 := Octree.mk r' (mkShared (delete o (objectToNode sh')) (nextId sh')) (console s)).
  assert (Inv s1) as Hinv1.
  { destruct Q2 as [A1 A2 A3 A4]. split; cbn [root shared]; auto.
    - split; simpl; auto.
      intros x k Hx. rewrite lookup_delete_ne; [by apply A4|].
      intros <-. apply Hnotin. rewrite app_nil_r in Hx.
      rewrite <- owners_fst. apply list_elem_of_fmap. by exists (o, k).
    - intros x Hx. simpl in Hx.
      destruct (decide (o = x)) as [<-|Hne]; [by rewrite lookup_delete_eq in Hx; destruct Hx|].
      rewrite lookup_delete_ne in Hx by done.
      destruct (decide (x ∈ objs r')) as [|Hnin]; [done|].
      rewrite (Q4 x Hnin) in Hx. apply (inv_dom _ Hinv) in Hx. rewrite Hp in Hx.
      apply elem_of_cons in Hx as [->|]; done.
    - unfold s1. cbn [root].
      unfold hdr in Q3. injection Q3 as _ _ _ ->. apply (inv_depth _ Hinv).
    - unfold s1. cbn [root].
      unfold hdr in Q3. injection Q3 as _ _ -> _. apply (inv_size _ Hinv). }
  destruct (shrink_spec s1 Hinv1) as (s' & Hrun' & S1 & S2 & S3 & S4).
  exists s'. split; [done|]. split_and!; auto.
  - done.
  - intros _. rewrite S2, S3. split; [done|]. apply lookup_delete_eq.
Qed.

Lemma update_spec s o :
  Inv s -> exists s', Octree.update bb s o = Ok s' /\ Inv s'.
Proof.
  intros Hinv. unfold Octree.update.
  destruct (remove_op_spec s o Hinv) as (s1 & Hrun & Hinv1 & _).
  rewrite Hrun. cbn [mbind Res_bind].
  destruct (insert_spec s1 o Hinv1) as (s' & Hrun' & Hinv' & _). eauto.
Qed.
End Operations.

(** [grow] divides by the number of box corners outside the root.  [insert]
    calls it only when the root does not fit the object, and then, in the
    exact arithmetic of the model, the corner (max, max, max) or the corner
    (min, min, min) of the box is outside. *)
Lemma outsideCorners_count r box (l : list nat) : forall a c,
  snd (foldl (fun '((averagePoint, count) : THREE.Vector3 * nat) i =>
                let vec := Octree.corner box i in
                if negb (OctreeNode.containsPoint r vec)
                then (THREE.add averagePoint vec, S count)
                else (averagePoint, count)) (a, c) l)
  = (c + length (filter (fun i => OctreeNode.containsPoint r (Octree.corner box i) = false) l))%nat.
Proof.
  induction l as [|i l IH]; intros a c; simpl; [lia|].
  destruct (OctreeNode.containsPoint r (Octree.corner box i)) eqn:E; simpl.
  - rewrite IH, filter_cons_False by congruence. lia.
  - rewrite IH, filter_cons_True by done. simpl. lia.
Qed.

Lemma grow_divides_by_positive bb r o :
  fits bb r o = false -> (0 < snd (Octree.outsideCorners r (bb o)))%nat.
Proof.
  intros Hfit. unfold Octree.outsideCorners. rewrite outsideCorners_count.
  assert (forall i, (i < 8)%nat ->
            OctreeNode.containsPoint r (Octree.corner (bb o) i) = false ->
            (0 < 0 + length (filter (fun i => OctreeNode.containsPoint r
                                       (Octree.corner (bb o) i) = false) (seq 0 8)))%nat)
    as Hout.
  { intros i Hi E.
    assert (i ∈ filter (fun i => OctreeNode.containsPoint r
                                   (Octree.corner (bb o) i) = false) (seq 0 8)) as Hin.
    { apply list_elem_of_filter. split; [done|]. apply elem_of_seq. lia. }
    destruct (filter _ (seq 0 8)); [by apply elem_of_nil in Hin|simpl; lia]. }
  destruct (OctreeNode.containsPoint r (Octree.corner (bb o) 0)) eqn:E0;
    [|apply (Hout 0%nat); [lia|done]].
  destruct (OctreeNode.containsPoint r (Octree.corner (bb o) 7)) eqn:E7;
    [|apply (Hout 7%nat); [lia|done]].
  exfalso. apply containsPoint_spec in E0 as (X0 & Y0 & Z0).
  apply containsPoint_spec in E7 as (X7 & Y7 & Z7).
  unfold inCell in *. simpl in X0, Y0, Z0, X7, Y7, Z7.
  assert (fits bb r o = true); [|congruence].
  unfold fits. apply andb_true_iff. split.
  - apply largerThan_spec. split_and!; qlra.
  - rewrite containsCenter_point. apply containsPoint_spec.
    unfold inCell, OctreeNode.center. simpl. split_and!; qlra.
Qed.

(** Under the invariant every public operation returns. *)
Lemma operations_total bb s o :
  Inv s ->
  (exists s', Octree.insert bb s o = Ok s') /\
  (exists s', Octree.remove s o = Ok s') /\
  (exists s', Octree.update bb s o = Ok s').
Proof.
  intros Hinv. split_and!.
  - destruct (insert_spec bb s o Hinv) as (s' & H & _). eauto.
  - destruct (remove_op_spec s o Hinv) as (s' & H & _). eauto.
  - destruct (update_spec bb s o Hinv) as (s' & H & _). eauto.
Qed.

Lemma new_Inv : Inv Octree.new.
Proof.
  split; simpl.
  - apply NodeInv_eq. split; [|by constructor].
    split; unfold P_count, P_oct, P_thresh, P_leaf, P_depth; simpl; try done.
    intros _ _. lia.
  - apply Heap_node_intro; simpl; try done.
    + apply Heap_nil.
    + apply NoDup_nil_2.
    + intros o Ho. by apply elem_of_nil in Ho.
    + apply not_elem_of_nil.
    + lia.
    + intros o Ho. by apply elem_of_nil in Ho.
  - intros o [x Hx]. by rewrite lookup_empty in Hx.
  - done.
  - qlra.
Qed.

(** The states of an index that its public operations can produce, whatever
    the bounding boxes of the objects are at each call.  The operations always
    return in such states ([reachable_Inv], [operations_total]). *)
Inductive reachable : Octree.t -> Prop :=
| reach_new : reachable Octree.new
| reach_insert bb s o s' :
    reachable s -> Octree.insert bb s o = Ok s' -> reachable s'
| reach_remove s o s' :
    reachable s -> Octree.remove s o = Ok s' -> reachable s'
| reach_update bb s o s' :
    reachable s -> Octree.update bb s o = Ok s' -> reachable s'.

Lemma reachable_Inv s : reachable s -> Inv s.
Proof.
  induction 1 as [|bb s o s' _ IH Hrun|s o s' _ IH Hrun|bb s o s' _ IH Hrun].
  - apply new_Inv.
  - destruct (insert_spec bb s o IH) as (s1 & Hrun1 & H1 & _). congruence.
  - destruct (remove_op_spec s o IH) as (s1 & Hrun1 & H1 & _). congruence.
  - destruct (update_spec bb s o IH) as (s1 & Hrun1 & H1). congruence.
Qed.

(** ** A worked scenario

    Ten small boxes around (1/4, 1/4, 1/4) (objects 0..9), one around
    (3/4, 1/4, 1/4) (object 10), a unit box around (1000, 1000, 1000)
    (object 11), and boxes of edge 2^34 around the origin (all others). *)

Definition cube (cx cy cz h : Q) : THREE.Box3 :=
  THREE.mkBox3 (THREE.mkVector3 (cx - h) (cy - h) (cz - h))%Q
               (THREE.mkVector3 (cx + h) (cy + h) (cz + h))%Q.

Definition demo_bb (o : OctreeObject) : THREE.Box3 :=
  if (o <? 10)%nat then cube (1 # 4) (1 # 4) (1 # 4) (1 # 10)
  else if (o =? 10)%nat then cube (3 # 4) (1 # 4) (1 # 4) (1 # 10)
  else if (o =? 11)%nat then cube 1000 1000 1000 (1 # 2)
  else cube 0 0 0 (2 ^ 33).

Fixpoint inserts (bb : OctreeObject -> THREE.Box3) (s : Octree.t) (l : list OctreeObject)
  : Res Octree.t :=
  match l with
  | [] => Ok s
  | o :: r => s' ← Octree.insert bb s o; inserts bb s' r
  end.

Definition run (r : Res Octree.t) : Octree.t :=
  match r with Ok s => s | Err _ => Octree.new end.

(** Objects 0..9 inserted: the root has split, all ten sit below octant 0. *)
Definition demo10 : Octree.t := run (inserts demo_bb Octree.new (seq 0 10)).
(** Objects 0..10 inserted. *)
Definition demo11 : Octree.t := run (inserts demo_bb Octree.new (seq 0 11)).
(** Objects 0..10 inserted, then object 10 removed. *)
Definition demo11r : Octree.t := run (Octree.remove demo11 10%nat).

Lemma inserts_reachable bb l : forall s s',
  reachable s -> inserts bb s l = Ok s' -> reachable s'.
Proof.
  induction l as [|o l IH]; intros s s' Hs Hrun; simpl in Hrun.
  - by injection Hrun as <-.
  - destruct (Octree.insert bb s o) as [s1|e] eqn:E; simpl in Hrun; [|done].
    eapply IH; [|exact Hrun]. by eapply reach_insert.
Qed.

Lemma run_inserts_reachable bb l : reachable (run (inserts bb Octree.new l)).
Proof.
  destruct (inserts bb Octree.new l) as [s|e] eqn:E; simpl; [|apply reach_new].
  eapply inserts_reachable; [apply reach_new|exact E].
Qed.

Lemma demo10_reachable : reachable demo10.
Proof. apply run_inserts_reachable. Qed.

Lemma demo11_reachable : reachable demo11.
Proof. apply run_inserts_reachable. Qed.

Lemma demo11r_reachable : reachable demo11r.
Proof.
  unfold demo11r. destruct (Octree.remove demo11 10%nat) as [s|e] eqn:E; simpl.
  - eapply reach_remove; [apply demo11_reachable|exact E].
  - apply reach_new.
Qed.

Fixpoint removes (s : Octree.t) (l : list OctreeObject) : Res Octree.t :=
  match l with
  | [] => Ok s
  | o :: r => s' ← Octree.remove s o; removes s' r
  end.

(** What a state looks like from outside: edge, depth and count of the root,
    whether it has octants, and its own objects. *)
Definition rootView (s : Octree.t) : Q * Z * Z * bool * list OctreeObject :=
  (size (root s), depth (root s), count (root s),
   match octants (root s) with Some _ => true | None => false end,
   objects (root s)).

Example demo10_view : rootView demo10 = (1%Q, 0, 10, true, []).
Proof. vm_compute. reflexivity. Qed.

Example demo11r_view : rootView demo11r = ((1 # 2)%Q, 1, 10, true, []).
Proof. vm_compute. reflexivity. Qed.

(** Nine clustered objects force a split; removing four of them merges the
    octants back. *)
Example split_then_merge :
  rootView (run (inserts demo_bb Octree.new (seq 0 9))) = (1%Q, 0, 9, true, []) /\
  rootView (run (s ← inserts demo_bb Octree.new (seq 0 9); removes s (seq 0 4)))
  = (1%Q, 0, 5, false, [4; 5; 6; 7; 8]%nat).
Proof. split; vm_compute; reflexivity. Qed.

(** A far object makes the tree grow; removing it brings the default root
    back. *)
Example grow_then_shrink :
  rootView (run (Octree.insert demo_bb Octree.new 11%nat))
  = (1024%Q, -10, 1, false, [11%nat]) /\
  rootView (run (s ← Octree.insert demo_bb Octree.new 11%nat; Octree.remove s 11%nat))
  = (1%Q, 0, 0, false, []).
Proof. split; vm_compute; reflexivity. Qed.

(** * The claims *)

(** C1 (count consistency).  In every state that the public operations
    [insert], [remove] and [update] can produce from a new index, every node
    of the tree has a [count] equal to the size of its own [objects] set plus
    the sum of the [count]s of its octants (no terms for a leaf). *)
Theorem count_consistency s n :
  reachable s -> n ∈ subnodes (root s) ->
  count n = Z.of_nat (length (objects n)) + sumCounts (children n).
Proof.
  intros Hs Hn. pose proof (inv_node _ (reachable_Inv s Hs)) as Hinv.
  unfold NodeInv in Hinv. rewrite Forall_forall in Hinv.
  apply (l_count _ (Hinv n Hn)).
Qed.

Lemma count_consistency_witness :
  reachable demo11r /\ root demo11r ∈ subnodes (root demo11r) /\
  count (root demo11r)
  = Z.of_nat (length (objects (root demo11r))) + sumCounts (children (root demo11r)).
Proof.
  split; [exact demo11r_reachable|]. split; [apply subnodes_self|].
  apply (count_consistency demo11r (root demo11r) demo11r_reachable (subnodes_self _)).
Defined.

(** C4 (split/merge threshold).  In every reachable state, a node that has
    octants counts more than 8 objects, and a node counting at most 8 has no
    octants. *)
Theorem threshold_symmetry s n :
  reachable s -> n ∈ subnodes (root s) ->
  (octants n <> None -> 8 < count n) /\ (count n <= 8 -> octants n = None).
Proof.
  intros Hs Hn. pose proof (inv_node _ (reachable_Inv s Hs)) as Hinv.
  unfold NodeInv in Hinv. rewrite Forall_forall in Hinv.
  pose proof (l_thresh _ (Hinv n Hn)) as Ht. unfold P_thresh in Ht.
  split; [done|]. intros Hle. destruct (octants n) eqn:E; [|done].
  assert (8 < count n) by (apply Ht; done). lia.
Qed.

Lemma threshold_symmetry_witness :
  reachable demo11 /\ root demo11 ∈ subnodes (root demo11) /\
  (octants (root demo11) <> None -> 8 < count (root demo11)) /\
  (count (root demo11) <= 8 -> octants (root demo11) = None).
Proof.
  split; [exact demo11_reachable|]. split; [apply subnodes_self|].
  apply (threshold_symmetry demo11 (root demo11) demo11_reachable (subnodes_self _)).
Defined.

Lemma NoDup_bind_unique {A B} (f : A -> list B) (l : list A) (a b : A) (x : B) :
  NoDup (l ≫= f) -> a ∈ l -> b ∈ l -> x ∈ f a -> x ∈ f b -> a = b.
Proof.
  induction l as [|c l IH]; intros Hnd Ha Hb Hxa Hxb; [by apply elem_of_nil in Ha|].
  rewrite bind_cons in Hnd. apply NoDup_app in Hnd as (_ & Hd & Hnd).
  apply elem_of_cons in Ha as [->|Ha], Hb as [->|Hb]; auto.
  - exfalso. apply (Hd x Hxa). apply list_elem_of_bind. eauto.
  - exfalso. apply (Hd x Hxb). apply list_elem_of_bind. eauto.
Qed.

Lemma NoDup_fmap_unique {A B} `{EqDecision B} (f : A -> B) (l : list A) (a b : A) :
  NoDup (f <$> l) -> a ∈ l -> b ∈ l -> f a = f b -> a = b.
Proof.
  induction l as [|c l IH]; intros Hnd Ha Hb Hab; [by apply elem_of_nil in Ha|].
  rewrite fmap_cons in Hnd. apply NoDup_cons in Hnd as (Hc & Hnd).
  apply elem_of_cons in Ha as [->|Ha], Hb as [->|Hb]; auto.
  - exfalso. apply Hc. rewrite Hab. apply list_elem_of_fmap. eauto.
  - exfalso. apply Hc. rewrite <- Hab. apply list_elem_of_fmap. eauto.
Qed.

(** C5 (single ownership).  In every reachable state, an object that is
    inserted (the reverse lookup [objectToNode] has an entry for it, or some
    node of the tree stores it: the two are the same) is mapped by
    [objectToNode] to a node [n] of the tree: [n] is reachable from the root,
    its own [objects] set contains the object, no other node of the tree has
    the object in its set, and no other node of the tree is the one the
    entry refers to. *)
Theorem single_ownership s o :
  reachable s ->
  is_Some (objectToNode (shared s) !! o) \/ o ∈ objs (root s) ->
  exists n, objectToNode (shared s) !! o = Some (nid n) /\
    n ∈ subnodes (root s) /\ o ∈ objects n /\
    (forall n', n' ∈ subnodes (root s) -> o ∈ objects n' -> n' = n) /\
    (forall n', n' ∈ subnodes (root s) -> nid n' = nid n -> n' = n).
Proof.
  intros Hs Hins. pose proof (reachable_Inv s Hs) as Hinv.
  assert (o ∈ objs (root s)) as Ho.
  { destruct Hins as [H|H]; [by apply (inv_dom _ Hinv)|done]. }
  apply elem_of_objs in Ho as (n & Hn & Hon).
  destruct (inv_heap _ Hinv) as [H1 H2 H3 H4]. simpl in H1, H2, H4.
  rewrite app_nil_r in H1, H2, H4.
  exists n. split.
  { apply H4. apply elem_of_owners. eauto. }
  split; [done|]. split; [done|]. split.
  - intros n' Hn' Hon'. by apply (NoDup_bind_unique objects (subnodes (root s)) n' n o).
  - intros n' Hn' Hid. by apply (NoDup_fmap_unique nid (subnodes (root s))).
Qed.

Lemma single_ownership_witness :
  reachable demo11 /\
  (is_Some (objectToNode (shared demo11) !! 10%nat) \/ 10%nat ∈ objs (root demo11)) /\
  exists n, objectToNode (shared demo11) !! 10%nat = Some (nid n) /\
    n ∈ subnodes (root demo11) /\ 10%nat ∈ objects n /\
    (forall n', n' ∈ subnodes (root demo11) -> 10%nat ∈ objects n' -> n' = n) /\
    (forall n', n' ∈ subnodes (root demo11) -> nid n' = nid n -> n' = n).
Proof.
  assert (is_Some (objectToNode (shared demo11) !! 10%nat)) as Htracked.
  { exists 2%nat. vm_compute. reflexivity. }
  split; [exact demo11_reachable|]. split; [left; exact Htracked|].
  apply (single_ownership demo11 10%nat demo11_reachable). left. exact Htracked.
Defined.

(** C2, as stated, fails: the MIN_DEPTH check sits inside the growth loop, so
    an object that can never fit is rejected only after the root has grown
    all the way to MIN_DEPTH.  Here a box of edge 2^34 is offered to a new
    index: the warning is printed and the object stays untracked, but the
    root is no longer the initial one (depth -32 instead of 0). *)
Lemma insert_rejected_counterexample :
  exists s', Octree.insert demo_bb Octree.new 12%nat = Ok s' /\
    console s' = [Octree.warning] /\
    objectToNode (shared s') !! 12%nat = None /\
    depth (root Octree.new) = 0 /\ depth (root s') = -32 /\
    root s' <> root Octree.new.
Proof.
  exists (run (Octree.insert demo_bb Octree.new 12%nat)).
  split; [vm_compute; reflexivity|]. split; [vm_compute; reflexivity|].
  split; [vm_compute; reflexivity|]. split; [reflexivity|].
  split; [vm_compute; reflexivity|].
  intros H. apply (f_equal depth) in H. vm_compute in H. discriminate.
Qed.

(** C2 (amended).  For an untracked object, [insert] always returns (no
    exception).  If the root still does not fit the object afterwards, i.e.
    the object was rejected, then one warning was printed, the object is
    untracked, exactly the same objects are tracked and stored as before, and
    the root sits at MIN_DEPTH: the growth steps done before the check stay.
    Root and reverse lookup are untouched only when the root already was at
    MIN_DEPTH when the call began. *)
Theorem insert_rejected bb s o :
  reachable s -> objectToNode (shared s) !! o = None ->
  exists s', Octree.insert bb s o = Ok s' /\
    (fits bb (root s') o = false ->
       console s' = console s ++ [Octree.warning] /\
       objectToNode (shared s') !! o = None /\
       (forall x, is_Some (objectToNode (shared s') !! x)
                  <-> is_Some (objectToNode (shared s) !! x)) /\
       objs (root s') ≡ₚ objs (root s) /\
       depth (root s') = MIN_DEPTH /\
       (depth (root s) = MIN_DEPTH -> root s' = root s /\ shared s' = shared s)).
Proof.
  intros Hs Hnone. pose proof (reachable_Inv s Hs) as Hinv.
  destruct (insert_spec bb s o Hinv) as (s' & Hrun & Hinv' & _ & Hcase).
  exists s'. split; [done|]. intros Hfit.
  destruct (Hcase Hnone) as [(_ & _ & Hyes)|(Hcon & Hperm & Hdepth & _ & Hsame)];
    [congruence|].
  assert (forall x, is_Some (objectToNode (shared s') !! x)
                    <-> is_Some (objectToNode (shared s) !! x)) as Hdom.
  { intros x. rewrite (Inv_tracked s' x Hinv'), (Inv_tracked s x Hinv). by rewrite Hperm. }
  split_and!; auto.
  destruct (objectToNode (shared s') !! o) eqn:E; [|done].
  assert (is_Some (objectToNode (shared s) !! o)) as [? ?] by (apply Hdom; eauto).
  congruence.
Qed.

Lemma insert_rejected_witness :
  reachable Octree.new /\ objectToNode (shared Octree.new) !! 12%nat = None /\
  exists s', Octree.insert demo_bb Octree.new 12%nat = Ok s' /\
    fits demo_bb (root s') 12%nat = false /\
    console s' = console Octree.new ++ [Octree.warning] /\
    objectToNode (shared s') !! 12%nat = None /\
    (forall x, is_Some (objectToNode (shared s') !! x)
               <-> is_Some (objectToNode (shared Octree.new) !! x)) /\
    objs (root s') ≡ₚ objs (root Octree.new) /\
    depth (root s') = MIN_DEPTH /\
    (depth (root Octree.new) = MIN_DEPTH ->
     root s' = root Octree.new /\ shared s' = shared Octree.new).
Proof.
  split; [exact reach_new|]. split; [reflexivity|].
  destruct (insert_rejected demo_bb Octree.new 12%nat reach_new eq_refl)
    as (s' & Hrun & Hrejected).
  assert (Octree.insert demo_bb Octree.new 12%nat
          = Ok (run (Octree.insert demo_bb Octree.new 12%nat))) as Hval
    by (vm_compute; reflexivity).
  assert (s' = run (Octree.insert demo_bb Octree.new 12%nat)) as Hs' by congruence.
  assert (fits demo_bb (root s') 12%nat = false) as Hfit
    by (rewrite Hs'; vm_compute; reflexivity).
  exists s'. split; [exact Hrun|]. split; [exact Hfit|]. exact (Hrejected Hfit).
Defined.

(** C3, as stated, fails: [update] is [remove] followed by [insert], and for
    an untracked object the [insert] half does insert it. *)
Lemma update_untracked_counterexample :
  objectToNode (shared Octree.new) !! 3%nat = None /\
  exists s', Octree.update demo_bb Octree.new 3%nat = Ok s' /\
    objectToNode (shared s') !! 3%nat = Some 0%nat /\
    objects (root s') = [3%nat].
Proof.
  split; [reflexivity|].
  exists (run (Octree.update demo_bb Octree.new 3%nat)).
  split; [vm_compute; reflexivity|]. split; vm_compute; reflexivity.
Qed.

(** C3 (amended).  For an object that is not tracked, [update] does exactly
    what [insert] does: its [remove] half is a no-op.  In a reachable state
    the call returns, and then either nothing is printed and the object is
    stored in the tree, tracked, and fitted by the root, next to everything
    that was tracked before; or the MIN_DEPTH warning is printed, the root is
    at MIN_DEPTH and does not fit the object, and the object is neither
    stored nor tracked while everything else is tracked as before. *)
Theorem update_untracked bb s o :
  objectToNode (shared s) !! o = None ->
  Octree.update bb s o = Octree.insert bb s o /\
  (reachable s ->
   exists s', Octree.update bb s o = Ok s' /\
     ((console s' = console s /\
       is_Some (objectToNode (shared s') !! o) /\
       o ∈ objs (root s') /\
       fits bb (root s') o = true /\
       forall x, is_Some (objectToNode (shared s') !! x) <->
                 x = o \/ is_Some (objectToNode (shared s) !! x)) \/
      (console s' = console s ++ [Octree.warning] /\
       objectToNode (shared s') !! o = None /\
       (o ∉ objs (root s')) /\
       depth (root s') = MIN_DEPTH /\
       fits bb (root s') o = false /\
       forall x, is_Some (objectToNode (shared s') !! x) <->
                 is_Some (objectToNode (shared s) !! x)))).
Proof.
  intros Hnone.
  assert (Octree.update bb s o = Octree.insert bb s o) as Heq
    by (unfold Octree.update, Octree.remove; by rewrite Hnone).
  split; [exact Heq|]. intros Hs. pose proof (reachable_Inv s Hs) as Hinv.
  destruct (insert_spec bb s o Hinv) as (s' & Hrun & Hinv' & _ & Hcase).
  exists s'. split; [by rewrite Heq|].
  assert (o ∉ objs (root s)) as Hout.
  { intros Hin. apply (Inv_tracked s o Hinv) in Hin. rewrite Hnone in Hin. by destruct Hin. }
  destruct (Hcase Hnone) as [(Hcon & Hperm & Hfit)|(Hcon & Hperm & Hdepth & Hfit & _)];
    [left|right].
  - assert (o ∈ objs (root s')) as Hin by (rewrite Hperm; left).
    split_and!; auto.
    + by apply (Inv_tracked s' o Hinv').
    + intros x. rewrite (Inv_tracked s' x Hinv'), (Inv_tracked s x Hinv), Hperm.
      apply elem_of_cons.
  - assert (o ∉ objs (root s')) as Hout' by (by rewrite Hperm).
    split_and!; auto.
    + destruct (objectToNode (shared s') !! o) as [m|] eqn:E; [|done].
      exfalso. apply Hout'. apply (Inv_tracked s' o Hinv'). rewrite E. eauto.
    + intros x. by rewrite (Inv_tracked s' x Hinv'), (Inv_tracked s x Hinv), Hperm.
Qed.

Lemma update_untracked_witness :
  objectToNode (shared Octree.new) !! 3%nat = None /\
  Octree.update demo_bb Octree.new 3%nat = Octree.insert demo_bb Octree.new 3%nat /\
  (reachable Octree.new ->
   exists s', Octree.update demo_bb Octree.new 3%nat = Ok s' /\
     ((console s' = console Octree.new /\
       is_Some (objectToNode (shared s') !! 3%nat) /\
       3%nat ∈ objs (root s') /\
       fits demo_bb (root s') 3%nat = true /\
       forall x, is_Some (objectToNode (shared s') !! x) <->
                 x = 3%nat \/ is_Some (objectToNode (shared Octree.new) !! x)) \/
      (console s' = console Octree.new ++ [Octree.warning] /\
       objectToNode (shared s') !! 3%nat = None /\
       (3%nat ∉ objs (root s')) /\
       depth (root s') = MIN_DEPTH /\
       fits demo_bb (root s') 3%nat = false /\
       forall x, is_Some (objectToNode (shared s') !! x) <->
                 is_Some (objectToNode (shared Octree.new) !! x)))).
Proof.
  split; [reflexivity|]. apply (update_untracked demo_bb Octree.new 3%nat). reflexivity.
Defined.




(** C7, as stated, fails: the guard of [shrink] is [size < DEFAULT], not
    [size <= DEFAULT].  With ten small objects below octant 0 the root has
    exactly the default size and an empty [objects] set; [shrink] promotes
    octant 0, and the root's edge becomes 1/2. *)
Lemma shrink_at_default_size_counterexample :
  reachable demo10 /\
  (size (root demo10) <= DEFAULT_ROOT_NODE_SIZE)%Q /\
  exists s', Octree.shrink demo10 = Ok s' /\
    nid (root s') <> nid (root demo10) /\
    (size (root s') < DEFAULT_ROOT_NODE_SIZE)%Q.
Proof.
  split; [exact demo10_reachable|]. split; [vm_compute; discriminate|].
  exists (run (Octree.shrink demo10)).
  split; [vm_compute; reflexivity|]. split; [vm_compute; discriminate|].
  vm_compute; reflexivity.
Qed.

(** C7 (amended).  In a reachable state [shrink] changes nothing whenever the
    root's size is strictly below the default root size or the root's own
    [objects] set is non-empty; it always returns, and before and after it
    the root's edge is at least half the default root size. *)
Theorem shrink_guard s :
  reachable s ->
  ((size (root s) < DEFAULT_ROOT_NODE_SIZE)%Q \/ objects (root s) <> [] ->
   Octree.shrink s = Ok s) /\
  (DEFAULT_ROOT_NODE_SIZE / 2 <= size (root s))%Q /\
  exists s', Octree.shrink s = Ok s' /\
    (DEFAULT_ROOT_NODE_SIZE / 2 <= size (root s'))%Q.
Proof.
  intros Hs. pose proof (reachable_Inv s Hs) as Hinv. split_and!.
  - apply shrink_stop. apply (l_depth _ (NodeInv_local _ (inv_node _ Hinv))).
  - apply (inv_size _ Hinv).
  - destruct (shrink_spec s Hinv) as (s' & Hrun & Hinv' & _).
    exists s'. split; [done|]. apply (inv_size _ Hinv').
Qed.

Lemma shrink_guard_witness :
  reachable demo10 /\
  ((size (root demo10) < DEFAULT_ROOT_NODE_SIZE)%Q \/ objects (root demo10) <> [] ->
   Octree.shrink demo10 = Ok demo10) /\
  (DEFAULT_ROOT_NODE_SIZE / 2 <= size (root demo10))%Q /\
  exists s', Octree.shrink demo10 = Ok s' /\
    (DEFAULT_ROOT_NODE_SIZE / 2 <= size (root s'))%Q.
Proof.
  split; [exact demo10_reachable|]. apply (shrink_guard demo10 demo10_reachable).
Defined.

(** ** Ray queries *)

Section RaycastFacts.
Variable rayIntersectsBox : THREE.Vector3 -> THREE.Vector3 -> THREE.Box3 -> bool.
Variable isIntersectedByRay :
  OctreeObject -> THREE.Vector3 -> THREE.Vector3 -> option THREE.Vector3.
Variable distanceTo : THREE.Vector3 -> THREE.Vector3 -> Q.
Variable rayOrigin rayDirection : THREE.Vector3.

Definition byDistance (a b : OctreeIntersection) : Prop :=
  (distance a <= distance b)%Q.

(** A hit on one of the objects [X]: the point is the one the object's ray
    test gave, the distance is measured from the ray origin to it. *)
Definition hitOn (X : list OctreeObject) (h : OctreeIntersection) : Prop :=
  object h ∈ X /\
  isIntersectedByRay (object h) rayOrigin rayDirection = Some (point h) /\
  distance h = distanceTo rayOrigin (point h).

Lemma sortInsert_perm a l : sortInsert a l ≡ₚ a :: l.
Proof.
  induction l as [|b l IH]; simpl; [done|].
  destruct (Qle_bool (distance a) (distance b)); [done|].
  rewrite IH. apply Permutation_swap.
Qed.

Lemma sortByDistance_perm l : sortByDistance l ≡ₚ l.
Proof.
  induction l as [|a l IH]; simpl; [done|].
  rewrite sortInsert_perm. by rewrite IH.
Qed.

Lemma sortInsert_sorted a l :
  StronglySorted byDistance l -> StronglySorted byDistance (sortInsert a l).
Proof.
  induction 1 as [|b l Hl IH Hb]; simpl.
  - repeat constructor.
  - destruct (Qle_bool (distance a) (distance b)) eqn:E.
    + apply Qle_bool_iff in E. constructor; [by constructor|].
      constructor; [done|]. eapply Forall_impl; [exact Hb|].
      intros c Hc. unfold byDistance in *. by apply (Qle_trans _ (distance b)).
    + constructor; [done|].
      assert (byDistance b a) as Hba.
      { unfold byDistance. apply Qlt_le_weak. apply Qnot_le_lt.
        intros Hle. apply Qle_bool_iff in Hle. congruence. }
      rewrite Forall_forall. intros c Hc.
      rewrite sortInsert_perm in Hc.
      apply elem_of_cons in Hc as [->|Hc]; [done|].
      rewrite Forall_forall in Hb. by apply Hb.
Qed.

Lemma sortByDistance_sorted l : StronglySorted byDistance (sortByDistance l).
Proof.
  induction l as [|a l IH]; simpl; [constructor|]. by apply sortInsert_sorted.
Qed.

Lemma testObjects_hits X l : forall acc,
  (forall o, o ∈ l -> o ∈ X) ->
  Forall (hitOn X) acc ->
  Forall (hitOn X) (testObjects isIntersectedByRay distanceTo rayOrigin rayDirection l acc).
Proof.
  induction l as [|o l IH]; intros acc Hsub Hacc; simpl; [done|].
  apply IH; [intros x Hx; apply Hsub; by right|].
  destruct (isIntersectedByRay o rayOrigin rayDirection) eqn:E; [|done].
  apply Forall_app. split; [done|]. constructor; [|constructor].
  split; [apply Hsub; left|done].
Qed.

Lemma node_raycast_unfold n acc :
  node_raycast rayIntersectsBox isIntersectedByRay distanceTo n rayOrigin rayDirection acc =
  if negb (rayIntersectsBox rayOrigin rayDirection (looseBoundingBox n)) then acc
  else foldl (fun acc c =>
                node_raycast rayIntersectsBox isIntersectedByRay distanceTo
                  c rayOrigin rayDirection acc)
         (testObjects isIntersectedByRay distanceTo rayOrigin rayDirection (objects n) acc)
         (children n).
Proof.
  destruct n as [i m s os ob c d]. unfold children. simpl.
  destruct (negb _); [done|]. destruct os as [l|]; simpl; [|done].
  generalize (testObjects isIntersectedByRay distanceTo rayOrigin rayDirection ob acc).
  induction l as [|a l IH]; intros acc'; simpl; [done|]. apply IH.
Qed.

Lemma node_raycast_hits X n : forall acc,
  (forall o, o ∈ objs n -> o ∈ X) ->
  Forall (hitOn X) acc ->
  Forall (hitOn X)
    (node_raycast rayIntersectsBox isIntersectedByRay distanceTo n rayOrigin rayDirection acc).
Proof.
  induction n as [n IH] using node_ind'. intros acc Hsub Hacc.
  rewrite node_raycast_unfold. destruct (negb _); [done|].
  rewrite objs_eq in Hsub.
  assert (forall o, o ∈ children n ≫= objs -> o ∈ X) as Hsubc.
  { intros o Ho. apply Hsub. apply elem_of_app. by right. }
  assert (Forall (hitOn X) (testObjects isIntersectedByRay distanceTo rayOrigin rayDirection
                              (objects n) acc)) as H.
  { apply testObjects_hits; [|done]. intros o Ho. apply Hsub. apply elem_of_app. by left. }
  revert H Hsubc. clear Hsub.
  generalize (testObjects isIntersectedByRay distanceTo rayOrigin rayDirection
                (objects n) acc).
  induction IH as [|c l Hc _ IHl]; intros acc' Hacc' Hsubc; simpl; [done|].
  apply IHl.
  - apply Hc; [|done]. intros o Ho. apply Hsubc. rewrite bind_cons. apply elem_of_app. by left.
  - intros o Ho. apply Hsubc. rewrite bind_cons. apply elem_of_app. by right.
Qed.

(** [raycast] rearranges what the traversal of the root collects in
    ascending order of distance; each hit is on an object stored in the tree,
    with the intersection point of that object and the distance from the ray
    origin to that point. *)
Lemma raycast_hits_sorted s :
  Octree.raycast rayIntersectsBox isIntersectedByRay distanceTo s rayOrigin rayDirection
    ≡ₚ node_raycast rayIntersectsBox isIntersectedByRay distanceTo
         (root s) rayOrigin rayDirection [] /\
  StronglySorted byDistance
    (Octree.raycast rayIntersectsBox isIntersectedByRay distanceTo s rayOrigin rayDirection) /\
  Forall (hitOn (objs (root s)))
    (Octree.raycast rayIntersectsBox isIntersectedByRay distanceTo s rayOrigin rayDirection).
Proof.
  unfold Octree.raycast. cbv zeta. split_and!.
  - apply sortByDistance_perm.
  - apply sortByDistance_sorted.
  - rewrite Forall_forall. intros h Hh.
    rewrite sortByDistance_perm in Hh.
    pose proof (node_raycast_hits (objs (root s)) (root s) []
                  (fun o Ho => Ho) (Forall_nil_2 _)) as H.
    rewrite Forall_forall in H. by apply H.
Qed.

Lemma raycast_new_index :
  Octree.raycast rayIntersectsBox isIntersectedByRay distanceTo Octree.new
    rayOrigin rayDirection = [].
Proof.
  unfold Octree.raycast. simpl. by destruct (negb _).
Qed.
End RaycastFacts.

(** C9 (idempotence).  In a reachable state, a second [insert] of the same
    object right after the first leaves the root and the reverse lookup as the
    first one left them, so every query answers the same; when the first call
    tracked the object, the second returns the very same state. *)
Theorem insert_idempotent bb s o s1 :
  reachable s -> Octree.insert bb s o = Ok s1 ->
  exists s2, Octree.insert bb s1 o = Ok s2 /\
    root s2 = root s1 /\ shared s2 = shared s1 /\
    (forall rayIntersectsBox isIntersectedByRay distanceTo rayOrigin rayDirection,
       Octree.raycast rayIntersectsBox isIntersectedByRay distanceTo s2 rayOrigin rayDirection
       = Octree.raycast rayIntersectsBox isIntersectedByRay distanceTo s1 rayOrigin rayDirection) /\
    (is_Some (objectToNode (shared s1) !! o) -> s2 = s1).
Proof.
  intros Hs Hrun. pose proof (reachable_Inv s Hs) as Hinv.
  destruct (insert_spec bb s o Hinv) as (s1' & Hrun' & Hinv1 & Hsome & Hnone).
  assert (s1' = s1) as -> by congruence.
  destruct (objectToNode (shared s1) !! o) as [m|] eqn:E1.
  { exists s1. unfold Octree.insert. rewrite E1. auto. }
  destruct (objectToNode (shared s) !! o) as [m|] eqn:E.
  { rewrite Hsome in E1 by eauto. congruence. }
  destruct (Hnone eq_refl) as [(_ & Hperm & _)|(_ & _ & Hdepth & Hfit & _)].
  { assert (is_Some (objectToNode (shared s1) !! o)) as [? ?]; [|congruence].
    apply (Inv_tracked s1 o Hinv1). rewrite Hperm. left. }
  (* the first call was rejected: so is the second, at once *)
  unfold Octree.insert. rewrite E1, Hdepth.
  replace (Z.to_nat (MIN_DEPTH - MIN_DEPTH) + 1)%nat with 1%nat by lia.
  cbn [Octree.growLoop]. rewrite Hdepth, Z.eqb_refl.
  assert (negb (OctreeNode.largerThan bb (root s1) o)
          || negb (OctreeNode.containsCenter bb (root s1) o) = true) as ->.
  { unfold fits in Hfit.
    destruct (OctreeNode.largerThan bb (root s1) o),
             (OctreeNode.containsCenter bb (root s1) o); done. }
  eexists. split; [reflexivity|]. split_and!; done.
Qed.

Lemma insert_idempotent_witness :
  reachable demo10 /\
  Octree.insert demo_bb demo10 10%nat = Ok demo11 /\
  exists s2, Octree.insert demo_bb demo11 10%nat = Ok s2 /\
    root s2 = root demo11 /\ shared s2 = shared demo11 /\
    (forall rayIntersectsBox isIntersectedByRay distanceTo rayOrigin rayDirection,
       Octree.raycast rayIntersectsBox isIntersectedByRay distanceTo s2 rayOrigin rayDirection
       = Octree.raycast rayIntersectsBox isIntersectedByRay distanceTo demo11
           rayOrigin rayDirection) /\
    (is_Some (objectToNode (shared demo11) !! 10%nat) -> s2 = demo11).
Proof.
  split; [exact demo10_reachable|]. split; [vm_compute; reflexivity|].
  apply (insert_idempotent demo_bb demo10 10%nat demo11 demo10_reachable).
  vm_compute; reflexivity.
Defined.

Ltac eval_bits :=
  repeat match goal with
         | |- context [OctreeNode.bit ?i ?m ?k] =>
             let b := eval vm_compute in (OctreeNode.bit i m k) in
             change (OctreeNode.bit i m k) with b
         end.

(** * Further properties of the index *)

(** * Where the objects are *)

(** Box [a] lies inside box [b]. *)
Definition boxIn (a b : THREE.Box3) : Prop :=
  (THREE.x (THREE.min b) <= THREE.x (THREE.min a) /\
   THREE.x (THREE.max a) <= THREE.x (THREE.max b) /\
   THREE.y (THREE.min b) <= THREE.y (THREE.min a) /\
   THREE.y (THREE.max a) <= THREE.y (THREE.max b) /\
   THREE.z (THREE.min b) <= THREE.z (THREE.min a) /\
   THREE.z (THREE.max a) <= THREE.z (THREE.max b))%Q.

(** Node [c] occupies cell [i] of node [n], as [createOctants] lays the
    cells out. *)
Definition octantAt (n : OctreeNode.t) (i : nat) (c : OctreeNode.t) : Prop :=
  depth c = depth n + 1 /\
  (size c == size n / 2)%Q /\
  (THREE.x (min c) == THREE.x (min n) + size n / 2 * OctreeNode.bit i 1 0)%Q /\
  (THREE.y (min c) == THREE.y (min n) + size n / 2 * OctreeNode.bit i 2 1)%Q /\
  (THREE.z (min c) == THREE.z (min n) + size n / 2 * OctreeNode.bit i 4 2)%Q.

(** The eight octants [os] of node [n] sit in their cells. *)
Definition tiles (n : OctreeNode.t) (os : list OctreeNode.t) : Prop :=
  length os = 8%nat /\ forall i c, os !! i = Some c -> octantAt n i c.

(** The cell of a point of the cube: the comparisons with the centre of the
    cube give the three bits of its index. *)
Definition cellIndex (n : OctreeNode.t) (p : THREE.Vector3) : nat :=
  ((if Qle_bool (THREE.x (min n) + size n / 2) (THREE.x p) then 1 else 0) +
   (if Qle_bool (THREE.y (min n) + size n / 2) (THREE.y p) then 2 else 0) +
   (if Qle_bool (THREE.z (min n) + size n / 2) (THREE.z p) then 4 else 0))%nat.

Lemma boxIn_trans a b c : boxIn a b -> boxIn b c -> boxIn a c.
Proof. unfold boxIn. intros ? ?. split_and!; lra. Qed.

Lemma bit_cases i :
  (i < 8)%nat ->
  (OctreeNode.bit i 1 0 == 0 \/ OctreeNode.bit i 1 0 == 1)%Q /\
  (OctreeNode.bit i 2 1 == 0 \/ OctreeNode.bit i 2 1 == 1)%Q /\
  (OctreeNode.bit i 4 2 == 0 \/ OctreeNode.bit i 4 2 == 1)%Q.
Proof.
  intros Hi. do 8 (try destruct i as [|i]); try lia; vm_compute; tauto.
Qed.

Lemma axis_up (lo s b loc sc x : Q) :
  (b == 0 \/ b == 1)%Q -> (0 < s)%Q -> (loc == lo + s / 2 * b)%Q -> (sc == s / 2)%Q ->
  inCell loc sc x -> inCell lo s x.
Proof.
  unfold inCell. intros [Hb|Hb] Hs Hl Hc [H1 H2]; rewrite Hb in Hl; split; qlra.
Qed.

Lemma axis_down (lo s b loc sc x : Q) :
  inCell lo s x -> (loc == lo + s / 2 * b)%Q -> (sc == s / 2)%Q ->
  (b == 0 /\ x < lo + s / 2)%Q \/ (b == 1 /\ lo + s / 2 <= x)%Q ->
  inCell loc sc x.
Proof.
  unfold inCell. intros [H1 H2] Hl Hc [[Hb Hx]|[Hb Hx]]; rewrite Hb in Hl; split; qlra.
Qed.

Lemma Qle_cases (a b : Q) :
  ((a <= b)%Q /\ Qle_bool a b = true) \/ ((b < a)%Q /\ Qle_bool a b = false).
Proof.
  destruct (Qle_bool a b) eqn:E; [left|right]; split; auto.
  - by apply Qle_bool_iff.
  - apply Qnot_le_lt. intros Hle. apply Qle_bool_iff in Hle. congruence.
Qed.

Lemma lookup_lt8 (os : list OctreeNode.t) i c :
  length os = 8%nat -> os !! i = Some c -> (i < 8)%nat.
Proof. intros H Hi. apply lookup_lt_Some in Hi. lia. Qed.

(** Every point of the cube of a node lies in the octant at its cell index. *)
Lemma tiles_cover n os p :
  tiles n os -> OctreeNode.containsPoint n p = true ->
  exists c, os !! cellIndex n p = Some c /\ OctreeNode.containsPoint c p = true.
Proof.
  intros [Hlen Hat] Hin. apply containsPoint_spec in Hin as (Hx & Hy & Hz).
  assert (cellIndex n p < 8)%nat as Hlt.
  { unfold cellIndex. destruct (Qle_bool _ _), (Qle_bool _ _), (Qle_bool _ _); simpl; lia. }
  destruct (lookup_lt_is_Some_2 os (cellIndex n p)) as [c Hc]; [lia|].
  exists c. split; [done|]. destruct (Hat _ c Hc) as (_ & Hsz & Cx & Cy & Cz).
  apply containsPoint_spec. unfold cellIndex in Cx, Cy, Cz.
  destruct (Qle_cases (THREE.x (min n) + size n / 2) (THREE.x p)) as [[Ex Bx]|[Ex Bx]];
  destruct (Qle_cases (THREE.y (min n) + size n / 2) (THREE.y p)) as [[Ey By]|[Ey By]];
  destruct (Qle_cases (THREE.z (min n) + size n / 2) (THREE.z p)) as [[Ez Bz]|[Ez Bz]];
  rewrite Bx, By, Bz in Cx, Cy, Cz;
  (split_and!;
    [apply (axis_down _ _ _ _ _ _ Hx Cx Hsz)
    |apply (axis_down _ _ _ _ _ _ Hy Cy Hsz)
    |apply (axis_down _ _ _ _ _ _ Hz Cz Hsz)]);
  (left; split; [by vm_compute|done]) || (right; split; [by vm_compute|done]).
Qed.

Lemma tiles_size n os c : tiles n os -> c ∈ os -> (size c == size n / 2)%Q.
Proof.
  intros [_ Hat] Hc. apply list_elem_of_lookup in Hc as (i & Hi).
  by destruct (Hat i c Hi) as (_ & ? & _).
Qed.

Lemma axis_loose (lo s b loc sc : Q) :
  (b == 0 \/ b == 1)%Q -> (0 < s)%Q -> (loc == lo + s / 2 * b)%Q -> (sc == s / 2)%Q ->
  (lo + - s / 2 <= loc + - sc / 2 /\ loc + sc * 3 / 2 <= lo + s * 3 / 2)%Q.
Proof.
  intros [Hb|Hb] Hs Hl Hc; rewrite Hb in Hl; split; qlra.
Qed.

Lemma axis_fit (lo s mn mx : Q) :
  (mx - mn < s)%Q -> inCell lo s (mn + (mx - mn) / 2) ->
  (lo + - s / 2 <= mn /\ mx <= lo + s * 3 / 2)%Q.
Proof. unfold inCell. intros H [H1 H2]. split; qlra. Qed.

Section Layout.
Variable bb : OctreeObject -> THREE.Box3.
(** With [strict], the stored objects are required to fit their nodes. *)
Variable strict : Prop.

Record placed (n : OctreeNode.t) : Prop := mkPlaced {
  pl_size : (size n == 2 ^ (- depth n))%Q;
  pl_fit : strict -> forall o, o ∈ objects n -> fits bb n o = true;
  pl_oct : forall os, octants n = Some os -> tiles n os;
  pl_tight : strict -> forall os c o, octants n = Some os -> c ∈ os -> o ∈ objects n ->
    OctreeNode.largerThan bb c o = false
}.

Definition Placed (n : OctreeNode.t) : Prop := Forall placed (subnodes n).

Lemma Placed_eq n : Placed n <-> placed n /\ Forall Placed (children n).
Proof.
  unfold Placed. rewrite subnodes_eq at 1.
  rewrite Forall_cons, Forall_bind. reflexivity.
Qed.

Lemma Placed_leaf n :
  octants n = None -> (size n == 2 ^ (- depth n))%Q ->
  (strict -> forall o, o ∈ objects n -> fits bb n o = true) -> Placed n.
Proof.
  intros Ho Hs Hf. apply Placed_eq. unfold children. rewrite Ho. split; [|by constructor].
  split; auto; intros; congruence.
Qed.

Lemma placed_pos n : placed n -> (0 < size n)%Q.
Proof. intros [H _ _ _]. rewrite H. apply Qpower_0_lt. reflexivity. Qed.

Lemma fits_spec n o :
  fits bb n o = true <->
  OctreeNode.largerThan bb n o = true /\ OctreeNode.containsCenter bb n o = true.
Proof. unfold fits. apply andb_true_iff. Qed.

(** An object that fits a cell fits the node around the cell. *)
Lemma fits_up n i c o :
  (i < 8)%nat -> (0 < size n)%Q -> octantAt n i c ->
  fits bb c o = true -> fits bb n o = true.
Proof.
  intros Hi Hs (_ & Hsz & Hx & Hy & Hz). rewrite !fits_spec.
  rewrite !largerThan_spec, !containsCenter_point, !containsPoint_spec.
  destruct (bit_cases i Hi) as (Bx & By & Bz).
  intros ((Lx & Ly & Lz) & Cx & Cy & Cz). split.
  - rewrite Hsz in Lx, Ly, Lz. split_and!; qlra.
  - split_and!.
    + exact (axis_up _ _ _ _ _ _ Bx Hs Hx Hsz Cx).
    + exact (axis_up _ _ _ _ _ _ By Hs Hy Hsz Cy).
    + exact (axis_up _ _ _ _ _ _ Bz Hs Hz Hsz Cz).
Qed.

Lemma loose_child n i c :
  (i < 8)%nat -> (0 < size n)%Q -> octantAt n i c ->
  boxIn (looseBoundingBox c) (looseBoundingBox n).
Proof.
  intros Hi Hs (_ & Hsz & Hx & Hy & Hz).
  destruct (bit_cases i Hi) as (Bx & By & Bz).
  destruct (axis_loose _ _ _ _ _ Bx Hs Hx Hsz).
  destruct (axis_loose _ _ _ _ _ By Hs Hy Hsz).
  destruct (axis_loose _ _ _ _ _ Bz Hs Hz Hsz).
  unfold boxIn, looseBoundingBox. simpl. split_and!; done.
Qed.

Lemma fits_loose n o : fits bb n o = true -> boxIn (bb o) (looseBoundingBox n).
Proof.
  rewrite fits_spec, largerThan_spec, containsCenter_point, containsPoint_spec.
  intros ((Lx & Ly & Lz) & Cx & Cy & Cz).
  destruct (axis_fit _ _ _ _ Lx Cx). destruct (axis_fit _ _ _ _ Ly Cy).
  destruct (axis_fit _ _ _ _ Lz Cz).
  unfold boxIn, looseBoundingBox. simpl. split_and!; done.
Qed.

(** Every object below a node lies inside the loose bounding box of the
    node: what the queries rely on when they skip a subtree. *)
Lemma Placed_covered o n :
  strict -> Placed n -> o ∈ objs n -> boxIn (bb o) (looseBoundingBox n).
Proof.
  intros Hst. induction n as [n IH] using node_ind'. intros Hp Ho.
  apply Placed_eq in Hp as [Hl Hc].
  rewrite objs_eq in Ho. apply elem_of_app in Ho as [Ho|Ho].
  - apply fits_loose. by apply (pl_fit _ Hl Hst).
  - apply list_elem_of_bind in Ho as (c & Ho & Hin).
    rewrite Forall_forall in IH, Hc.
    apply (boxIn_trans _ (looseBoundingBox c)); [by apply IH; auto|].
    unfold children in Hin. destruct (octants n) as [os|] eqn:Eos; [|by apply elem_of_nil in Hin].
    simpl in Hin. apply list_elem_of_lookup in Hin as (i & Hi).
    destruct (pl_oct _ Hl os Eos) as [Hlen Hat].
    apply (loose_child n i c); [by eapply lookup_lt8|by apply placed_pos|by apply Hat].
Qed.

Lemma Placed_local n : Placed n -> placed n.
Proof. rewrite Placed_eq. tauto. Qed.

Lemma Placed_children n : Placed n -> Forall Placed (children n).
Proof. rewrite Placed_eq. tauto. Qed.

Lemma Placed_child n os i c :
  Placed n -> octants n = Some os -> os !! i = Some c -> Placed c.
Proof.
  intros Hp Eos Hi. pose proof (Placed_children _ Hp) as H.
  unfold children in H. rewrite Eos in H. simpl in H.
  rewrite Forall_forall in H. apply H. by eapply list_elem_of_lookup_2.
Qed.

(** ** Headers *)

Lemma octantAt_hdr n n' i c c' :
  hdr n' = hdr n -> hdr c' = hdr c -> octantAt n i c -> octantAt n' i c'.
Proof.
  unfold hdr. intros Hn Hc. inversion Hn as [[N1 N2 N3 N4]].
  inversion Hc as [[C1 C2 C3 C4]]. unfold octantAt. by rewrite N2, N3, N4, C2, C3, C4.
Qed.

Lemma hdr_lookup (os os' : list OctreeNode.t) i c' :
  hdr <$> os' = hdr <$> os -> os' !! i = Some c' ->
  exists c, os !! i = Some c /\ hdr c' = hdr c.
Proof.
  intros Hh Hi. assert ((hdr <$> os') !! i = Some (hdr c')) as H.
  { by rewrite list_lookup_fmap, Hi. }
  rewrite Hh, list_lookup_fmap in H.
  destruct (os !! i) as [c|]; simpl in H; [|done]. exists c. split; congruence.
Qed.

Lemma octants_hdr n n' (os os' : list OctreeNode.t) :
  hdr n' = hdr n -> hdr <$> os' = hdr <$> os -> tiles n os -> tiles n' os'.
Proof.
  intros Hn Hh [Hlen Hat]. split.
  - by rewrite <- (length_fmap hdr), Hh, length_fmap.
  - intros i c' Hi. destruct (hdr_lookup os os' i c' Hh Hi) as (c & Hc & Hcc).
    apply (octantAt_hdr n n' i c c'); auto.
Qed.

Lemma hdr_sizes (os os' : list OctreeNode.t) (s : Q) :
  hdr <$> os' = hdr <$> os ->
  Forall (fun c => size c = s) os -> Forall (fun c => size c = s) os'.
Proof.
  intros Hh H. rewrite Forall_forall in H |- *. intros c' Hc'.
  apply list_elem_of_lookup in Hc' as (i & Hi).
  destruct (hdr_lookup os os' i c' Hh Hi) as (c & Hc & Hcc).
  unfold hdr in Hcc. inversion Hcc as [[C1 C2 C3 C4]]. rewrite C3. apply H.
  by eapply list_elem_of_lookup_2.
Qed.

Lemma Qltb_eq_r (a s s' : Q) : (s == s')%Q -> Qltb a s = Qltb a s'.
Proof.
  intros H. destruct (Qltb a s) eqn:E1, (Qltb a s') eqn:E2; try done.
  - apply Qltb_lt in E1. apply Qltb_ge in E2. rewrite H in E1. lra.
  - apply Qltb_lt in E2. apply Qltb_ge in E1. rewrite H in E1. lra.
Qed.

Lemma largerThan_size c c' o :
  (size c == size c')%Q -> OctreeNode.largerThan bb c o = OctreeNode.largerThan bb c' o.
Proof.
  intros H. unfold OctreeNode.largerThan. cbv zeta.
  by rewrite !(Qltb_eq_r _ _ _ H).
Qed.

(** An object that stays on a node with octants is too large for them. *)
Lemma placed_tooBig n os o c :
  strict -> placed n -> octants n = Some os -> o ∈ objects n ->
  (size c == size n / 2)%Q -> OctreeNode.largerThan bb c o = false.
Proof.
  intros Hst Hl Eos Ho Hc. destruct (pl_oct _ Hl os Eos) as [Hlen Hat].
  destruct (lookup_lt_is_Some_2 os 0) as [first Hf]; [lia|].
  assert (first ∈ os) as Hin by (by eapply list_elem_of_lookup_2).
  rewrite <- (pl_tight _ Hl Hst os first o Eos Hin Ho). apply largerThan_size.
  rewrite Hc. symmetry. by apply (tiles_size n os), Hin.
Qed.

(** ** Powers of two *)

Lemma pow2_half (s : Q) (d : Z) : (s == 2 ^ (- d) -> s / 2 == 2 ^ (- (d + 1)))%Q.
Proof.
  intros H. replace (- (d + 1)) with (- d + - 1) by lia.
  rewrite Qpower_plus by discriminate. rewrite <- H.
  change (2 ^ (- 1))%Q with (/ 2)%Q. reflexivity.
Qed.

Lemma pow2_double (s : Q) (d : Z) : (s == 2 ^ (- d) -> s * 2 == 2 ^ (- (d - 1)))%Q.
Proof.
  intros H. replace (- (d - 1)) with (- d + 1) by lia.
  rewrite Qpower_plus by discriminate. rewrite <- H. reflexivity.
Qed.

(** ** Sets *)

Lemma set_add_elem o o' l : o' ∈ set_add o l <-> o' = o \/ o' ∈ l.
Proof.
  unfold set_add. destruct (decide (o ∈ l)) as [Hin|Hnin].
  - split; [tauto|]. intros [->|]; done.
  - rewrite elem_of_app, list_elem_of_singleton. tauto.
Qed.

Lemma set_adds_elem L : forall l o,
  o ∈ foldl (fun acc o => set_add o acc) l L -> o ∈ l \/ o ∈ L.
Proof.
  induction L as [|a L IH]; intros l o; simpl; [tauto|].
  intros H. apply IH in H as [H|H]; [|right; by right].
  apply set_add_elem in H as [->|H]; [right; left|by left].
Qed.

(** ** [merge] *)

Lemma merge_Placed n sh :
  Placed n ->
  Placed (OctreeNode.merge n sh).1 /\ hdr (OctreeNode.merge n sh).1 = hdr n.
Proof.
  intros Hp. unfold OctreeNode.merge.
  destruct (octants n) as [os|] eqn:Eos; [|done].
  destruct (8 <? count n); [done|].
  rewrite merge_fold. cbn [fst]. split; [|reflexivity].
  pose proof (Placed_local _ Hp) as Hl.
  apply Placed_leaf; cbn [octants size depth objects]; [done|apply (pl_size _ Hl)|].
  intros Hst o Ho. rewrite (fits_hdr bb n); [|reflexivity].
  apply set_adds_elem in Ho as [Ho|Ho]; [by apply (pl_fit _ Hl Hst)|].
  apply list_elem_of_bind in Ho as (c & Ho & Hc).
  apply list_elem_of_lookup in Hc as (i & Hi).
  destruct (pl_oct _ Hl os Eos) as [Hlen Hat].
  apply (fits_up n i c).
  - by eapply lookup_lt8.
  - by apply placed_pos.
  - by apply Hat.
  - apply (pl_fit c); [|done|done]. apply Placed_local. by eapply Placed_child.
Qed.

(** ** [insert] and [split] *)

Definition InsertPlaced (ins : OctreeNode.t -> Shared -> Res (OctreeNode.t * Shared))
    (o : OctreeObject) : Prop :=
  forall c sh c' sh', Placed c -> fits bb c o = true -> ins c sh = Ok (c', sh') ->
    Placed c' /\ hdr c' = hdr c.

Definition SplitPlaced (spl : OctreeNode.t -> Shared -> Res (OctreeNode.t * Shared)) : Prop :=
  forall c sh c' sh', Placed c -> spl c sh = Ok (c', sh') -> Placed c' /\ hdr c' = hdr c.

Lemma place_Placed ins o rest :
  InsertPlaced ins o ->
  forall done sh moved os' sh' moved',
  Forall Placed rest -> Forall (fun c => OctreeNode.largerThan bb c o = true) rest ->
  foldM (placeBody bb ins o) rest (done, sh, moved) = Ok (os', sh', moved') ->
  exists rest', os' = done ++ rest' /\ hdr <$> rest' = hdr <$> rest /\ Forall Placed rest'.
Proof.
  intros Hins. induction rest as [|c rest IH]; intros done sh moved os' sh' moved' Hp Hl Hrun.
  { simpl in Hrun. injection Hrun as <- _ _. exists []. by rewrite app_nil_r. }
  apply Forall_cons in Hp as [Hpc Hp]. apply Forall_cons in Hl as [Hlc Hl].
  cbn [foldM] in Hrun. unfold placeBody at 2 in Hrun.
  destruct (OctreeNode.containsCenter bb c o) eqn:Ec.
  - destruct (ins c sh) as [[c' sh1]|e] eqn:Ei; cbn [mbind Res_bind] in Hrun; [|done].
    destruct (Hins c sh c' sh1 Hpc) as [Hpc' Hh]; [|done|].
    { apply fits_spec. done. }
    destruct (IH _ _ _ _ _ _ Hp Hl Hrun) as (rest' & -> & Hh' & Hp').
    exists (c' :: rest'). rewrite <- (assoc (++)). split; [done|].
    split; [by rewrite !fmap_cons, Hh, Hh'|by constructor].
  - cbn [mbind Res_bind] in Hrun.
    destruct (IH _ _ _ _ _ _ Hp Hl Hrun) as (rest' & -> & Hh' & Hp').
    exists (c :: rest'). rewrite <- (assoc (++)). split; [done|].
    split; [by rewrite !fmap_cons, Hh'|by constructor].
Qed.

Lemma place_moved ins o rest : forall done sh moved os' sh' moved',
  foldM (placeBody bb ins o) rest (done, sh, moved) = Ok (os', sh', moved') ->
  moved = true \/ (exists c, c ∈ rest /\ OctreeNode.containsCenter bb c o = true) ->
  moved' = true.
Proof.
  induction rest as [|c rest IH]; intros done sh moved os' sh' moved' Hrun Hm.
  { simpl in Hrun. injection Hrun as _ _ <-. destruct Hm as [|(c & Hc & _)]; [done|].
    by apply elem_of_nil in Hc. }
  cbn [foldM] in Hrun. unfold placeBody at 2 in Hrun.
  destruct (OctreeNode.containsCenter bb c o) eqn:Ec.
  - destruct (ins c sh) as [[c' sh1]|e]; cbn [mbind Res_bind] in Hrun; [|done].
    apply (IH _ _ _ _ _ _ Hrun). by left.
  - cbn [mbind Res_bind] in Hrun. apply (IH _ _ _ _ _ _ Hrun).
    destruct Hm as [|(d & Hd & Hdc)]; [by left|right].
    apply elem_of_cons in Hd as [->|Hd]; [congruence|eauto].
Qed.

(** The first loop of [split]: an object that is still in the set after its
    turn is too large for the octants. *)
Lemma distribute_Placed ins n todo :
  (forall o, InsertPlaced (ins o) o) ->
  (strict -> forall x, x ∈ todo -> fits bb n x = true) ->
  forall os objs sh os' objs' sh',
  tiles n os -> Forall Placed os ->
  foldM (distributeBody bb ins) todo (os, objs, sh) = Ok (os', objs', sh') ->
  hdr <$> os' = hdr <$> os /\ Forall Placed os' /\
  (forall x, x ∈ objs' -> x ∈ objs) /\
  (strict -> forall x c, x ∈ objs' -> x ∈ todo -> (size c == size n / 2)%Q ->
     OctreeNode.largerThan bb c x = false).
Proof.
  intros Hins. induction todo as [|o todo IH]; intros Hfit os objs sh os' objs' sh' Ht Hp Hrun.
  { simpl in Hrun. injection Hrun as <- <- <-. split_and!; auto.
    intros _ x c _ Hx. by apply elem_of_nil in Hx. }
  cbn [foldM] in Hrun.
  destruct (distributeBody bb ins (os, objs, sh) o) as [[[os1 objs1] sh1]|e] eqn:Estep;
    cbn [mbind Res_bind] in Hrun; [|done].
  assert (hdr <$> os1 = hdr <$> os /\ Forall Placed os1 /\
          (forall x, x ∈ objs1 -> x ∈ objs) /\
          (strict -> o ∈ objs1 -> forall c, (size c == size n / 2)%Q ->
             OctreeNode.largerThan bb c o = false)) as (S1 & S2 & S3 & S4).
  { unfold distributeBody in Estep.
    destruct os as [|first rest] eqn:Eq; [done|]. rewrite <- Eq in *.
    assert (first ∈ os) as Hfirst by (rewrite Eq; left).
    destruct (OctreeNode.largerThan bb first o) eqn:El.
    2:{ injection Estep as <- <- <-. split_and!; auto.
        intros _ _ c Hc. rewrite <- El. apply largerThan_size.
        rewrite Hc. symmetry. by apply (tiles_size n os). }
    destruct (OctreeNode.placeInOctants bb (ins o) o os sh) as [[[os'' s''] moved]|e] eqn:Ep;
      cbn [mbind Res_bind] in Estep; [|done].
    injection Estep as <- <- <-.
    destruct (place_Placed (ins o) o os (Hins o) [] sh false os'' s'' moved Hp)
      as (rest' & -> & Hh & Hp'); [|exact Ep|].
    { rewrite Forall_forall. intros c Hc. rewrite <- El. apply largerThan_size.
      rewrite (tiles_size n os c Ht Hc). symmetry. by apply (tiles_size n os). }
    cbn [app]. split_and!; auto.
    - intros x Hx. destruct moved; [|done]. by apply set_delete_elem in Hx as [Hx _].
    - intros Hst Ho. exfalso.
      assert (moved = true) as ->.
      { apply (place_moved _ _ _ _ _ _ _ _ _ Ep). right.
        assert (OctreeNode.containsCenter bb n o = true) as Hc.
        { apply fits_spec. apply (Hfit Hst). left. }
        rewrite containsCenter_point in Hc.
        destruct (tiles_cover n os _ Ht Hc) as (c & Hi & Hcc).
        exists c. split; [by eapply list_elem_of_lookup_2|done]. }
      apply set_delete_elem in Ho as [_ Ho]. done. }
  destruct (IH (fun Hst x Hx => Hfit Hst x (proj2 (elem_of_cons _ _ _) (or_intror Hx)))
              os1 objs1 sh1 os' objs' sh') as (I1 & I2 & I3 & I4); auto.
  { by apply (octants_hdr n n os). }
  split_and!; auto; [congruence|].
  intros Hst x c Hx Hin Hc. apply elem_of_cons in Hin as [->|Hin]; [|by apply (I4 Hst x c)].
  apply (S4 Hst); auto.
Qed.

Lemma splitChildren_Placed spl rest :
  SplitPlaced spl ->
  forall done sh os' sh',
  Forall Placed rest ->
  foldM (splitChildBody spl) rest (done, sh) = Ok (os', sh') ->
  exists rest', os' = done ++ rest' /\ hdr <$> rest' = hdr <$> rest /\ Forall Placed rest'.
Proof.
  intros Hspl. induction rest as [|c rest IH]; intros done sh os' sh' Hp Hrun.
  { simpl in Hrun. injection Hrun as <- _. exists []. by rewrite app_nil_r. }
  apply Forall_cons in Hp as [Hpc Hp].
  cbn [foldM] in Hrun. unfold splitChildBody at 2 in Hrun.
  destruct (spl c sh) as [[c' sh1]|e] eqn:Ei; cbn [mbind Res_bind] in Hrun; [|done].
  destruct (Hspl c sh c' sh1 Hpc Ei) as [Hpc' Hh].
  destruct (IH _ _ _ _ Hp Hrun) as (rest' & -> & Hh' & Hp').
  exists (c' :: rest'). rewrite <- (assoc (++)). split; [done|].
  split; [by rewrite !fmap_cons, Hh, Hh'|by constructor].
Qed.

Lemma createOctants_Placed n fresh :
  (size n == 2 ^ (- depth n))%Q -> Forall Placed (OctreeNode.createOctants n fresh).
Proof.
  intros Hs. rewrite Forall_forall. intros c Hc.
  apply list_elem_of_lookup in Hc as (i & Hi).
  apply createOctants_lookup in Hi as [_ ->].
  apply Placed_leaf; cbn [OctreeNode.newOctant octants size depth objects]; [done| |].
  - by apply pow2_half.
  - intros Hst o Ho. by apply elem_of_nil in Ho.
Qed.

Lemma createOctants_octantAt n fresh : tiles n (OctreeNode.createOctants n fresh).
Proof.
  split; [apply createOctants_length|]. intros i c Hi.
  apply createOctants_lookup in Hi as [_ ->].
  unfold octantAt. cbn [OctreeNode.newOctant min size depth THREE.x THREE.y THREE.z].
  split_and!; reflexivity.
Qed.

Lemma splitBody_Placed ins spl n sh n' sh' :
  (forall o, InsertPlaced (ins o) o) -> SplitPlaced spl ->
  Placed n ->
  splitBody bb ins spl n sh = Ok (n', sh') -> Placed n' /\ hdr n' = hdr n.
Proof.
  intros Hins Hspl Hp Hrun. pose proof (Placed_local _ Hp) as Hl.
  unfold splitBody in Hrun. cbv zeta in Hrun.
  set (os0 := OctreeNode.createOctants n (nextId sh)) in *.
  destruct (foldM (distributeBody bb ins) (objects n) _) as [[[os1 objs1] sh1]|e] eqn:E1;
    cbn [mbind Res_bind] in Hrun; [|done].
  destruct (foldM (splitChildBody spl) os1 _) as [[os2 sh2]|e] eqn:E2;
    cbn [mbind Res_bind] in Hrun; [|done].
  injection Hrun as <- <-.
  destruct (distribute_Placed ins n (objects n) Hins (pl_fit _ Hl) _ _ _ _ _ _
              (createOctants_octantAt n (nextId sh))
              (createOctants_Placed n (nextId sh) (pl_size _ Hl)) E1)
    as (D1 & D2 & D3 & D4).
  destruct (splitChildren_Placed spl os1 Hspl [] sh1 os2 sh2 D2 E2) as (rest' & -> & Hh & Hp').
  cbn [app]. split; [|reflexivity].
  assert (tiles n rest') as Ht.
  { apply (octants_hdr n n os0); [reflexivity|by rewrite Hh|apply createOctants_octantAt]. }
  apply Placed_eq. split; [|done]. split; cbn [octants size depth objects].
  - apply (pl_size _ Hl).
  - intros Hst o Ho. rewrite (fits_hdr bb n); [|reflexivity]. apply (pl_fit _ Hl Hst). auto.
  - intros os [= <-]. apply (octants_hdr n _ rest'); [reflexivity|done|done].
  - intros Hst os c o [= <-] Hc Ho. apply (D4 Hst o c); auto.
    by apply (tiles_size n rest').
Qed.

Lemma insertBody_Placed ins spl n o sh n' sh' :
  InsertPlaced ins o -> SplitPlaced spl ->
  Placed n -> fits bb n o = true ->
  insertBody bb ins spl n o sh = Ok (n', sh') -> Placed n' /\ hdr n' = hdr n.
Proof.
  intros Hins Hspl Hp Hfit Hrun. pose proof (Placed_local _ Hp) as Hl.
  pose proof (Placed_children _ Hp) as Hch.
  unfold insertBody in Hrun. cbv zeta in Hrun.
  change (octants (OctreeNode.set_count n (count n + 1))) with (octants n) in Hrun.
  assert (strict -> forall x, x ∈ set_add o (objects n) -> fits bb n x = true) as Hfits.
  { intros Hst x Hx.
    apply set_add_elem in Hx as [->|Hx]; [done|by apply (pl_fit _ Hl Hst)]. }
  destruct (octants n) as [os|] eqn:Eos.
  2:{ cbn [fst snd] in Hrun.
      assert (Placed (OctreeNode.set_objects (OctreeNode.set_count n (count n + 1))
                        (set_add o (objects n)))) as Hhere.
      { apply Placed_leaf; cbn [octants size depth objects]; [done|apply (pl_size _ Hl)|].
        intros Hst x Hx. rewrite (fits_hdr bb n); [|reflexivity]. by apply Hfits. }
      destruct (Hspl _ _ _ _ Hhere Hrun) as [H1 H2].
      split; [done|]. rewrite H2. reflexivity. }
  pose proof (pl_oct _ Hl os Eos) as Ht.
  destruct os as [|first rest] eqn:Eq; [done|]. rewrite <- Eq in *.
  assert (first ∈ os) as Hfirst by (rewrite Eq; left).
  destruct (if OctreeNode.largerThan bb first o
            then list_find (fun c => OctreeNode.containsCenter bb c o = true) os
            else None) as [[i octant]|] eqn:Efind.
  2:{ injection Hrun as <- <-. split; [|reflexivity].
      apply Placed_eq. split; [|exact Hch]. split; cbn [octants size depth objects].
      - apply (pl_size _ Hl).
      - intros Hst x Hx. rewrite (fits_hdr bb n); [|reflexivity]. by apply Hfits.
      - apply (pl_oct _ Hl).
      - cbn [OctreeNode.set_objects OctreeNode.set_count octants objects].
        intros Hst os' c x Hos' Hc Hx. rewrite Eos in Hos'. injection Hos' as <-.
        apply set_add_elem in Hx as [->|Hx]; [|by apply (pl_tight _ Hl Hst os)].
        destruct (OctreeNode.largerThan bb first o) eqn:El.
        + exfalso. apply list_find_None in Efind. rewrite Forall_forall in Efind.
          assert (OctreeNode.containsCenter bb n o = true) as Hcc by (by apply fits_spec).
          rewrite containsCenter_point in Hcc.
          destruct (tiles_cover n os _ Ht Hcc) as (d & Hi & Hd).
          apply (Efind d); [by eapply list_elem_of_lookup_2|done].
        + rewrite <- El. apply largerThan_size.
          rewrite (tiles_size n os c Ht Hc). symmetry. by apply (tiles_size n os). }
  destruct (OctreeNode.largerThan bb first o) eqn:El; [|done].
  apply list_find_Some in Efind as (Hi & Hc & _).
  destruct (ins octant sh) as [[octant' sh1]|e] eqn:Ei; cbn [mbind Res_bind] in Hrun; [|done].
  injection Hrun as <- <-.
  destruct (pl_oct _ Hl os Eos) as [Hlen Hat].
  assert (Placed octant) as Hpo by (by eapply Placed_child).
  destruct (Hins octant sh octant' sh1 Hpo) as [Hpo' Hh]; [|done|].
  { apply fits_spec. split; [|done]. rewrite <- El. apply largerThan_size.
    rewrite (tiles_size n os octant Ht); [|by eapply list_elem_of_lookup_2].
    symmetry. by apply (tiles_size n os). }
  split; [|reflexivity].
  assert (tiles n (<[i:=octant']> os)) as Ht'.
  { split; [by rewrite length_insert|].
    intros j c Hj. destruct (decide (j = i)) as [->|Hne].
    - rewrite list_lookup_insert_eq in Hj by (by eapply lookup_lt_Some).
      injection Hj as <-.
      apply (octantAt_hdr n _ i octant); [reflexivity|done|by apply Hat].
    - rewrite list_lookup_insert_ne in Hj by done. by apply Hat. }
  apply Placed_eq. split.
  - split; cbn [OctreeNode.set_octants OctreeNode.set_count octants size depth objects].
    + apply (pl_size _ Hl).
    + intros Hst x Hx. rewrite (fits_hdr bb n); [|reflexivity]. by apply (pl_fit _ Hl Hst).
    + intros ? [= <-]. apply (octants_hdr n _ (<[i:=octant']> os)); [reflexivity|done|done].
    + intros Hst ? d x [= <-] Hd Hx.
      apply (placed_tooBig n os x d Hst Hl Eos Hx). by apply (tiles_size n (<[i:=octant']> os)).
  - unfold children. cbn [OctreeNode.set_octants OctreeNode.set_count octants].
    cbn [default from_option id]. apply Forall_insert; [|done].
    unfold children in Hch. by rewrite Eos in Hch.
Qed.

Lemma insert_split_Placed f :
  (forall o, InsertPlaced (fun c s => OctreeNode.insert bb f c o s) o) /\
  SplitPlaced (OctreeNode.split bb f).
Proof.
  induction f as [|f [IHi IHs]].
  { split; [intros o c sh c' sh' _ _ H|intros c sh c' sh' _ H]; done. }
  split.
  - intros o c sh c' sh' Hp Hfit Hrun. rewrite insert_unfold in Hrun.
    by apply (insertBody_Placed _ _ c o sh c' sh' (IHi o) IHs).
  - intros c sh c' sh' Hp Hrun. rewrite split_unfold in Hrun.
    destruct ((length (objects c) <=? 8)%nat || (depth c =? MAX_DEPTH)).
    + by injection Hrun as <- <-.
    + by apply (splitBody_Placed _ _ c sh c' sh' IHi IHs).
Qed.

Lemma node_insert_Placed f n o sh n' sh' :
  Placed n -> fits bb n o = true ->
  OctreeNode.insert bb f n o sh = Ok (n', sh') -> Placed n' /\ hdr n' = hdr n.
Proof. destruct (insert_split_Placed f) as [H _]. apply H. Qed.

(** ** [remove] *)

Lemma removeFirst_inv (f : OctreeNode.t -> option (OctreeNode.t * Shared)) os :
  forall os' sh', removeFirst f os = Some (os', sh') ->
  exists l1 c l2 c', os = l1 ++ c :: l2 /\ os' = l1 ++ c' :: l2 /\ f c = Some (c', sh').
Proof.
  induction os as [|c os IH]; intros os' sh' H; simpl in H; [done|].
  destruct (f c) as [[c' sh1]|] eqn:E.
  - injection H as <- <-. by exists [], c, os, c'.
  - destruct (removeFirst f os) as [[r' sh1]|] eqn:E'; [|done].
    injection H as <- <-.
    destruct (IH _ _ eq_refl) as (l1 & d & l2 & d' & -> & -> & Hd).
    by exists (c :: l1), d, l2, d'.
Qed.

Lemma node_remove_Placed o target n : forall sh n' sh',
  Placed n -> OctreeNode.remove n target o sh = Some (n', sh') ->
  Placed n' /\ hdr n' = hdr n.
Proof.
  induction n as [n IH] using node_ind'. intros sh n' sh' Hp Hrun.
  pose proof (Placed_local _ Hp) as Hl. pose proof (Placed_children _ Hp) as Hch.
  rewrite remove_unfold in Hrun.
  destruct (decide (nid n = target)) as [Heq|Hne].
  - injection Hrun as Hrun.
    set (n1 := OctreeNode.set_count _ _) in Hrun.
    assert (Placed n1) as Hp1.
    { apply Placed_eq. split; [|exact Hch]. split; cbn [octants size depth objects n1].
      - apply (pl_size _ Hl).
      - intros Hst x Hx. rewrite (fits_hdr bb n); [|reflexivity].
        apply set_delete_elem in Hx as [Hx _]. by apply (pl_fit _ Hl Hst).
      - apply (pl_oct _ Hl).
      - intros Hst os c x Hos Hc Hx. apply set_delete_elem in Hx as [Hx _].
        by apply (pl_tight _ Hl Hst os). }
    destruct (merge_Placed n1 sh Hp1) as [M1 M2]. rewrite Hrun in M1, M2. cbn [fst] in M1, M2.
    split; [done|]. rewrite M2. reflexivity.
  - destruct (octants n) as [os|] eqn:Eos; [|done].
    destruct (removeFirst _ os) as [[os' sh1]|] eqn:Er; [|done].
    injection Hrun as Hrun.
    apply removeFirst_inv in Er as (l1 & c & l2 & c' & -> & -> & Hc).
    unfold children in IH, Hch. rewrite Eos in IH, Hch. cbn [default from_option id] in IH, Hch.
    assert (c ∈ l1 ++ c :: l2) as Hin by (apply elem_of_app; right; left).
    rewrite Forall_forall in IH.
    destruct (IH c Hin sh c' sh1) as [Hpc' Hh]; [|done|].
    { rewrite Forall_forall in Hch. by apply Hch. }
    set (n1 := OctreeNode.set_count _ _) in Hrun.
    assert (tiles n (l1 ++ c' :: l2)) as Ht'.
    { apply (octants_hdr n n (l1 ++ c :: l2)); [reflexivity| |by apply (pl_oct _ Hl)].
      by rewrite !fmap_app, !fmap_cons, Hh. }
    assert (Placed n1) as Hp1.
    { apply Placed_eq. split.
      - split; cbn [octants size depth objects n1 OctreeNode.set_octants OctreeNode.set_count].
        + apply (pl_size _ Hl).
        + intros Hst x Hx. rewrite (fits_hdr bb n); [|reflexivity]. by apply (pl_fit _ Hl Hst).
        + intros ? [= <-]. exact Ht'.
        + intros Hst ? d x [= <-] Hd Hx.
          apply (placed_tooBig n _ x d Hst Hl Eos Hx). by apply (tiles_size _ _ _ Ht').
      - unfold children, n1. cbn [OctreeNode.set_octants OctreeNode.set_count octants].
        cbn [default from_option id].
        rewrite Forall_app, Forall_cons in Hch |- *. tauto. }
    destruct (merge_Placed n1 sh1 Hp1) as [M1 M2]. rewrite Hrun in M1, M2. cbn [fst] in M1, M2.
    split; [done|]. rewrite M2. reflexivity.
Qed.

(** ** [grow] and [shrink] *)

Lemma newRootFor_octantAt r direction fresh :
  octantAt (Octree.newRootFor r direction fresh) (Octree.octantIndex direction) r.
Proof.
  unfold octantAt, Octree.newRootFor, Octree.octantIndex.
  cbn [min size depth THREE.x THREE.y THREE.z].
  split; [lia|]. split; [field|].
  destruct (Qltb (THREE.x direction) 0), (Qltb (THREE.y direction) 0),
    (Qltb (THREE.z direction) 0); cbn [Nat.add]; eval_bits; split_and!; field.
Qed.

Lemma grow_Placed bb' s towards :
  Placed (root s) -> Placed (root (Octree.grow bb' s towards)).
Proof.
  intros Hp. pose proof (Placed_local _ Hp) as Hl.
  unfold Octree.grow. cbv zeta.
  set (r := root s) in *.
  set (dir := Octree.growthDirection r (bb' towards)).
  set (newRoot := Octree.newRootFor r dir (nextId (shared s))).
  assert (size newRoot == 2 ^ (- depth newRoot))%Q as Hsz.
  { unfold newRoot, Octree.newRootFor. cbn [size depth]. apply pow2_double, (pl_size _ Hl). }
  destruct (0 <? count r).
  2:{ cbn [root]. apply Placed_leaf; [done|exact Hsz|].
      intros Hst o Ho. by apply elem_of_nil in Ho. }
  cbn [nextId objectToNode].
  set (n1 := Octree.adoptOldRoot _ _ _ _).
  set (sh2 := mkShared _ _).
  assert (Placed n1) as Hp1.
  { unfold n1, Octree.adoptOldRoot. cbv zeta.
    set (fresh := OctreeNode.createOctants newRoot _).
    apply Placed_eq. split.
    - split; cbn [OctreeNode.set_octants OctreeNode.set_count octants size depth objects].
      + exact Hsz.
      + intros Hst o Ho. by apply elem_of_nil in Ho.
      + intros ? [= <-]. split; [by rewrite length_insert|].
        intros j c Hj. destruct (decide (j = Octree.octantIndex dir)) as [->|Hne].
        * rewrite list_lookup_insert_eq in Hj.
          2:{ unfold fresh. rewrite createOctants_length. apply octantIndex_lt. }
          injection Hj as <-.
          apply (octantAt_hdr newRoot _ _ r r); [reflexivity|reflexivity|].
          apply newRootFor_octantAt.
        * rewrite list_lookup_insert_ne in Hj by done.
          apply (octantAt_hdr newRoot _ j c c); [reflexivity|reflexivity|].
          exact (proj2 (createOctants_octantAt newRoot _) j c Hj).
      + intros Hst ? c o _ _ Ho. by apply elem_of_nil in Ho.
    - unfold children. cbn [OctreeNode.set_octants OctreeNode.set_count octants].
      cbn [default from_option id]. apply Forall_insert; [|done].
      by apply createOctants_Placed. }
  destruct (merge_Placed n1 sh2 Hp1) as [M1 _].
  destruct (OctreeNode.merge n1 sh2) as [n' sh']. exact M1.
Qed.

Lemma shrinkRoot_Placed f : forall r r',
  NodeInv r -> Placed r -> Octree.shrinkRoot f r = Ok r' -> Placed r'.
Proof.
  induction f as [|f IH]; intros r r' Hinv Hp Hrun; [done|].
  simpl in Hrun.
  destruct (Qltb (size r) DEFAULT_ROOT_NODE_SIZE || (0 <? length (objects r))%nat) eqn:Eg.
  { by injection Hrun as <-. }
  apply orb_false_iff in Eg as [_ Hempty]. apply Nat.ltb_ge in Hempty.
  destruct (Z.eqb_spec (count r) 0) as [Hz|Hnz].
  { destruct (empty_no_objs r Hinv Hz) as [_ Hoct].
    injection Hrun as <-. apply Placed_leaf; cbn [octants size depth objects]; [done|done|].
    intros Hst o Ho. destruct (objects r); [by apply elem_of_nil in Ho|simpl in Hempty; lia]. }
  destruct (octants r) as [os|] eqn:Eos; [|by injection Hrun as <-].
  pose proof (onlyNonEmpty_spec os) as Hscan.
  destruct (Octree.onlyNonEmpty os) as [[c|]|]; [|done|by injection Hrun as <-].
  destruct Hscan as (l1 & l2 & -> & _).
  assert (c ∈ children r) as Hin.
  { unfold children. rewrite Eos. simpl. apply elem_of_app. right. left. }
  apply (IH c r'); [| |done].
  - pose proof (NodeInv_children _ Hinv) as H. rewrite Forall_forall in H. by apply H.
  - pose proof (Placed_children _ Hp) as H. rewrite Forall_forall in H. by apply H.
Qed.

Lemma growLoop_Placed o f : forall s s1 fitted,
  Placed (root s) -> Octree.growLoop bb f s o = Ok (s1, fitted) ->
  Placed (root s1) /\ (fitted = true -> fits bb (root s1) o = true).
Proof.
  induction f as [|f IH]; intros s s1 fitted Hp Hrun; [done|].
  simpl in Hrun.
  destruct (negb (OctreeNode.largerThan bb (root s) o)
            || negb (OctreeNode.containsCenter bb (root s) o)) eqn:Eg.
  2:{ injection Hrun as <- <-. split; [done|]. intros _.
      apply orb_false_iff in Eg as [H1 H2]. apply negb_false_iff in H1, H2.
      apply fits_spec. done. }
  destruct (depth (root s) =? MIN_DEPTH).
  { injection Hrun as <- <-. split; [done|]. intros H. discriminate. }
  apply (IH (Octree.grow bb s o)); [|done]. by apply grow_Placed.
Qed.

(** ** The public operations *)

Lemma insert_Placed s o s' :
  Inv s -> Placed (root s) -> Octree.insert bb s o = Ok s' -> Placed (root s').
Proof.
  intros Hinv Hp Hrun. unfold Octree.insert in Hrun.
  destruct (objectToNode (shared s) !! o) as [m|] eqn:Eo; [by injection Hrun as <-|].
  pose proof (inv_depth _ Hinv) as Hd.
  destruct (growLoop_spec bb o (Z.to_nat (depth (root s) - MIN_DEPTH) + 1) s Hinv)
    as (s1 & fitted & Hgrow & G1 & G2 & _); [lia|].
  rewrite Hgrow in Hrun. cbn [mbind Res_bind] in Hrun.
  destruct (growLoop_Placed o _ s s1 fitted Hp Hgrow) as [Hp1 Hfit].
  destruct fitted; [|by injection Hrun as <-].
  assert (o ∉ objs (root s1)) as Hnew.
  { rewrite G2. intros Hin. apply (Inv_tracked s o Hinv) in Hin.
    rewrite Eo in Hin. by destruct Hin. }
  destruct (node_insert_spec bb (root s1) o (shared s1) (inv_node _ G1) (inv_heap _ G1) Hnew)
    as (r' & sh' & Hins & [Q1 Q2 Q3 Q4 Q5 Q6] & _).
  rewrite Hins in Hrun. cbn [mbind Res_bind] in Hrun.
  destruct (node_insert_Placed _ _ _ _ _ _ Hp1 (Hfit eq_refl) Hins) as [Hp' _].
  destruct (count (root s1) =? 0); [|by injection Hrun as <-].
  unfold Octree.shrink in Hrun. cbn [root shared console] in Hrun.
  destruct (Octree.shrinkRoot _ r') as [r2|e] eqn:Es; cbn [mbind Res_bind] in Hrun; [|done].
  injection Hrun as <-. cbn [root]. by apply (shrinkRoot_Placed _ r' r2 Q1 Hp' Es).
Qed.

Lemma remove_Placed s o s' :
  Inv s -> Placed (root s) -> Octree.remove s o = Ok s' -> Placed (root s').
Proof.
  intros Hinv Hp Hrun. unfold Octree.remove in Hrun.
  destruct (objectToNode (shared s) !! o) as [m|] eqn:Eo; [|by injection Hrun as <-].
  assert ((o, m) ∈ owners (root s)) as Hown.
  { assert (o ∈ objs (root s)) as Hin by (apply (Inv_tracked s o Hinv); eauto).
    destruct (objs_in_owners o [root s]) as (m' & Hm').
    { simpl. by rewrite app_nil_r. }
    pose proof (H_agree _ _ (inv_heap _ Hinv) o m' Hm') as Hag.
    simpl in Hm'. rewrite app_nil_r in Hm'. congruence. }
  destruct (remove_spec o m (root s) (shared s) (inv_node _ Hinv) (inv_heap _ Hinv) Hown)
    as (r' & sh' & Hrem & [Q1 Q2 Q3 Q4 Q5 Q6] & _).
  rewrite Hrem in Hrun.
  destruct (node_remove_Placed o m (root s) (shared s) r' sh' Hp Hrem) as [Hp' _].
  unfold Octree.shrink in Hrun. cbn [root shared console] in Hrun.
  destruct (Octree.shrinkRoot _ r') as [r2|e] eqn:Es; cbn [mbind Res_bind] in Hrun; [|done].
  injection Hrun as <-. cbn [root]. by apply (shrinkRoot_Placed _ r' r2 Q1 Hp' Es).
Qed.

End Layout.

(** The placement of the stored objects depends on the boxes of these
    objects only. *)
Lemma fits_ext bb bb' n o : bb' o = bb o -> fits bb' n o = fits bb n o.
Proof.
  intros H. unfold fits, OctreeNode.largerThan, OctreeNode.containsCenter. by rewrite H.
Qed.

Lemma Placed_ext bb bb' strict n :
  (forall o, o ∈ objs n -> bb' o = bb o) -> Placed bb strict n -> Placed bb' strict n.
Proof.
  intros Hext Hp. unfold Placed in *. rewrite Forall_forall in Hp |- *.
  intros k Hk. destruct (Hp k Hk) as [H1 H2 H3 H4]. split; auto.
  - intros Hst o Ho. rewrite (fits_ext bb); [by apply H2|].
    apply Hext. apply elem_of_objs. eauto.
  - intros Hst os c o Hos Hc Ho. rewrite <- (H4 Hst os c o Hos Hc Ho).
    unfold OctreeNode.largerThan. rewrite Hext; [done|]. apply elem_of_objs. eauto.
Qed.

Lemma Placed_lax bb bb' n : Placed bb False n -> Placed bb' False n.
Proof.
  unfold Placed. intros H. eapply Forall_impl; [exact H|].
  intros k [H1 H2 H3 H4]. split; auto; intros [].
Qed.

Lemma new_Placed bb strict : Placed bb strict (root Octree.new).
Proof.
  apply Placed_leaf; simpl; [done|reflexivity|].
  intros Hst o Ho. by apply elem_of_nil in Ho.
Qed.

(** ** Indexes that are up to date

    [tracking bb s]: the index [s] was built by its public operations, and
    [bb] gives the current boxes; since an object was inserted or last
    updated, its box has not changed.  The box of an object may change when
    the object is not in the index, or together with a call of [update]. *)
Inductive tracking : (OctreeObject -> THREE.Box3) -> Octree.t -> Prop :=
| track_new bb : tracking bb Octree.new
| track_insert bb s o s' :
    tracking bb s -> Octree.insert bb s o = Ok s' -> tracking bb s'
| track_remove bb s o s' :
    tracking bb s -> Octree.remove s o = Ok s' -> tracking bb s'
| track_update bb bb' s o s' :
    tracking bb s -> (forall x, x <> o -> bb' x = bb x) ->
    Octree.update bb' s o = Ok s' -> tracking bb' s'
| track_move bb bb' s :
    tracking bb s ->
    (forall x, is_Some (objectToNode (shared s) !! x) -> bb' x = bb x) ->
    tracking bb' s.

Lemma tracking_reachable bb s : tracking bb s -> reachable s.
Proof.
  induction 1 as [bb|bb s o s' _ IH Hrun|bb s o s' _ IH Hrun
                  |bb bb' s o s' _ IH _ Hrun|bb bb' s _ IH _].
  - apply reach_new.
  - by eapply reach_insert.
  - by eapply reach_remove.
  - by eapply reach_update.
  - done.
Qed.

Lemma tracking_Placed bb s : tracking bb s -> Placed bb True (root s).
Proof.
  induction 1 as [bb|bb s o s' Hs IH Hrun|bb s o s' Hs IH Hrun
                  |bb bb' s o s' Hs IH Hext Hrun|bb bb' s Hs IH Hext].
  - apply new_Placed.
  - apply (insert_Placed bb True s o s'); auto.
    apply reachable_Inv. by eapply tracking_reachable.
  - apply (remove_Placed bb True s o s'); auto.
    apply reachable_Inv. by eapply tracking_reachable.
  - pose proof (reachable_Inv s (tracking_reachable _ _ Hs)) as Hinv.
    unfold Octree.update in Hrun.
    destruct (remove_op_spec s o Hinv) as (s1 & Hrem & Hinv1 & _ & Hnone & Hsome).
    rewrite Hrem in Hrun. cbn [mbind Res_bind] in Hrun.
    apply (insert_Placed bb' True s1 o s'); auto.
    apply (Placed_ext bb); [|by apply (remove_Placed bb True s o s1)].
    intros x Hx. apply Hext. intros ->.
    apply (Inv_tracked s1 o Hinv1) in Hx.
    destruct (objectToNode (shared s) !! o) as [m|] eqn:Eo.
    + destruct Hsome as [_ H]; [eauto|]. rewrite H in Hx. by destruct Hx.
    + rewrite (Hnone eq_refl) in Hx. rewrite Eo in Hx. by destruct Hx.
  - apply (Placed_ext bb); [|done]. intros x Hx. apply Hext.
    apply (Inv_tracked s x); [|done]. apply reachable_Inv. by eapply tracking_reachable.
Qed.

Lemma reachable_Placed s : reachable s -> forall bb, Placed bb False (root s).
Proof.
  induction 1 as [|bb0 s o s' Hs IH Hrun|s o s' Hs IH Hrun|bb0 s o s' Hs IH Hrun]; intros bb.
  - apply new_Placed.
  - apply (Placed_lax bb0). apply (insert_Placed bb0 False s o s'); auto.
    by apply reachable_Inv.
  - apply (remove_Placed bb False s o s'); auto. by apply reachable_Inv.
  - pose proof (reachable_Inv s Hs) as Hinv. unfold Octree.update in Hrun.
    destruct (remove_op_spec s o Hinv) as (s1 & Hrem & Hinv1 & _).
    rewrite Hrem in Hrun. cbn [mbind Res_bind] in Hrun.
    apply (Placed_lax bb0). apply (insert_Placed bb0 False s1 o s'); auto.
    by apply (remove_Placed bb0 False s o s1).
Qed.

Lemma inserts_tracking bb l : forall s s',
  tracking bb s -> inserts bb s l = Ok s' -> tracking bb s'.
Proof.
  induction l as [|o l IH]; intros s s' Hs Hrun; simpl in Hrun.
  - by injection Hrun as <-.
  - destruct (Octree.insert bb s o) as [s1|e] eqn:E; simpl in Hrun; [|done].
    eapply IH; [|exact Hrun]. by eapply track_insert.
Qed.

Lemma run_inserts_tracking bb l : tracking bb (run (inserts bb Octree.new l)).
Proof.
  destruct (inserts bb Octree.new l) as [s|e] eqn:E; simpl; [|apply track_new].
  eapply inserts_tracking; [apply track_new|exact E].
Qed.

Lemma demo11_tracking : tracking demo_bb demo11.
Proof. apply run_inserts_tracking. Qed.


(** The node of [demo11] that holds the objects 0..9: two levels below the
    root, with eight empty octants of its own. *)
Definition demo_cell : OctreeNode.t :=
  default (root demo11) (subnodes (root demo11) !! 9%nat).

Lemma demo_cell_node : demo_cell ∈ subnodes (root demo11).
Proof. apply (list_elem_of_lookup_2 _ 9%nat). vm_compute. reflexivity. Qed.

Lemma demo_cell_octants : octants demo_cell = Some (children demo_cell).
Proof. vm_compute. reflexivity. Qed.

Lemma demo_cell_objects : 0%nat ∈ objects demo_cell.
Proof.
  assert (objects demo_cell = seq 0 10) as -> by (vm_compute; reflexivity). left.
Qed.

Definition demo_octant : OctreeNode.t := default demo_cell (children demo_cell !! 0%nat).

Lemma demo_octant_child : demo_octant ∈ children demo_cell.
Proof. apply (list_elem_of_lookup_2 _ 0%nat). vm_compute. reflexivity. Qed.

(** ** Depths and sizes *)

Lemma subnodes_depth bb n k :
  Placed bb False n -> k ∈ subnodes n -> depth n <= depth k.
Proof.
  induction n as [n IH] using node_ind'. intros Hp Hk.
  rewrite subnodes_eq in Hk. apply elem_of_cons in Hk as [->|Hk]; [lia|].
  apply list_elem_of_bind in Hk as (c & Hk & Hc).
  pose proof (Placed_children _ _ _ Hp) as Hch.
  rewrite Forall_forall in IH, Hch. specialize (IH c Hc (Hch c Hc) Hk).
  unfold children in Hc. destruct (octants n) as [os|] eqn:Eos; [|by apply elem_of_nil in Hc].
  simpl in Hc. apply list_elem_of_lookup in Hc as (i & Hi).
  destruct (pl_oct _ _ _ (Placed_local _ _ _ Hp) os Eos) as [_ Hat].
  destruct (Hat i c Hi) as (Hd & _). lia.
Qed.

(** X5 (edges are powers of two).  In every reachable state every node of
    the tree has edge [2^(-depth)], with a depth between MIN_DEPTH and
    MAX_DEPTH: the edge is between 1/256 and 2^32. *)
Theorem node_sizes s n :
  reachable s -> n ∈ subnodes (root s) ->
  (size n == 2 ^ (- depth n))%Q /\
  MIN_DEPTH <= depth n <= MAX_DEPTH /\
  (1 # 256 <= size n /\ size n <= 4294967296)%Q.
Proof.
  intros Hs Hn. pose proof (reachable_Inv s Hs) as Hinv.
  pose proof (reachable_Placed s Hs (fun _ => cube 0 0 0 0)) as Hp.
  assert (placed (fun _ => cube 0 0 0 0) False n) as Hl.
  { unfold Placed in Hp. rewrite Forall_forall in Hp. by apply Hp. }
  assert (MIN_DEPTH <= depth n <= MAX_DEPTH) as Hd.
  { split.
    - pose proof (inv_depth _ Hinv). pose proof (subnodes_depth _ _ _ Hp Hn). lia.
    - pose proof (inv_node _ Hinv) as Hni. unfold NodeInv in Hni.
      rewrite Forall_forall in Hni. apply (l_depth _ (Hni n Hn)). }
  split; [apply (pl_size _ _ _ Hl)|]. split; [done|].
  rewrite (pl_size _ _ _ Hl). unfold MIN_DEPTH, MAX_DEPTH in Hd. split.
  - change (1 # 256)%Q with (2 ^ (- 8))%Q. apply Qpower_le_compat_l; [lia|done].
  - change 4294967296%Q with (2 ^ 32)%Q. apply Qpower_le_compat_l; [lia|done].
Qed.

Lemma node_sizes_witness :
  reachable demo11 /\ demo_cell ∈ subnodes (root demo11) /\
  (size demo_cell == 2 ^ (- depth demo_cell))%Q /\
  MIN_DEPTH <= depth demo_cell <= MAX_DEPTH /\
  (1 # 256 <= size demo_cell /\ size demo_cell <= 4294967296)%Q.
Proof.
  split; [exact demo11_reachable|]. split; [exact demo_cell_node|].
  apply (node_sizes demo11 demo_cell demo11_reachable demo_cell_node).
Defined.

(** X3 (layout of the octants).  In every reachable state a node with octants
    has eight of them, and octant [i] is one level deeper, has half the edge
    of the node, and has its min corner at the node's min corner moved by half
    the edge along x when bit 0 of [i] is set, along y for bit 1, along z for
    bit 2: the layout of [createOctants], also for the octant that [grow]
    filled with the old root and for the root that [shrink] promoted. *)
Theorem octant_layout s n os :
  reachable s -> n ∈ subnodes (root s) -> octants n = Some os ->
  length os = 8%nat /\ forall i c, os !! i = Some c -> octantAt n i c.
Proof.
  intros Hs Hn Eos.
  pose proof (reachable_Placed s Hs (fun _ => cube 0 0 0 0)) as Hp.
  unfold Placed in Hp. rewrite Forall_forall in Hp.
  apply (pl_oct _ _ _ (Hp n Hn) os Eos).
Qed.

Lemma octant_layout_witness :
  reachable demo11 /\ demo_cell ∈ subnodes (root demo11) /\
  octants demo_cell = Some (children demo_cell) /\
  length (children demo_cell) = 8%nat /\
  forall i c, children demo_cell !! i = Some c -> octantAt demo_cell i c.
Proof.
  split; [exact demo11_reachable|]. split; [exact demo_cell_node|].
  split; [exact demo_cell_octants|].
  apply (octant_layout demo11 demo_cell _ demo11_reachable demo_cell_node demo_cell_octants).
Defined.

(** X1 (objects fit their node).  In an index that is up to date with the
    boxes [bb], every object in the [objects] set of a node of the tree passes,
    with its current box, the two tests that placed it: the node is
    [largerThan] the object and [containsCenter] of it.  Its box therefore
    lies inside the loose bounding box of the node. *)
Theorem stored_objects_fit bb s n o :
  tracking bb s -> n ∈ subnodes (root s) -> o ∈ objects n ->
  OctreeNode.largerThan bb n o = true /\
  OctreeNode.containsCenter bb n o = true /\
  boxIn (bb o) (looseBoundingBox n).
Proof.
  intros Hs Hn Ho. pose proof (tracking_Placed bb s Hs) as Hp.
  unfold Placed in Hp. rewrite Forall_forall in Hp.
  pose proof (pl_fit _ _ _ (Hp n Hn) I o Ho) as Hfit.
  split_and!; [by apply fits_spec in Hfit as [? ?]|by apply fits_spec in Hfit as [? ?]|].
  by apply fits_loose.
Qed.

Lemma stored_objects_fit_witness :
  tracking demo_bb demo11 /\ demo_cell ∈ subnodes (root demo11) /\
  0%nat ∈ objects demo_cell /\
  OctreeNode.largerThan demo_bb demo_cell 0%nat = true /\
  OctreeNode.containsCenter demo_bb demo_cell 0%nat = true /\
  boxIn (demo_bb 0%nat) (looseBoundingBox demo_cell).
Proof.
  split; [exact demo11_tracking|]. split; [exact demo_cell_node|].
  split; [exact demo_cell_objects|].
  apply (stored_objects_fit demo_bb demo11 demo_cell 0%nat demo11_tracking
           demo_cell_node demo_cell_objects).
Defined.

(** X2 (objects sit as deep as they fit).  In an index that is up to date, an
    object that is in the [objects] set of a node with octants is too large
    for the octants: no octant is [largerThan] it, i.e. its box extends over
    at least half the edge of the node on some axis. *)
Theorem stored_objects_tight bb s n os c o :
  tracking bb s -> n ∈ subnodes (root s) -> octants n = Some os -> c ∈ os ->
  o ∈ objects n ->
  OctreeNode.largerThan bb c o = false /\
  (size n / 2 <= THREE.x (THREE.max (bb o)) - THREE.x (THREE.min (bb o)) \/
   size n / 2 <= THREE.y (THREE.max (bb o)) - THREE.y (THREE.min (bb o)) \/
   size n / 2 <= THREE.z (THREE.max (bb o)) - THREE.z (THREE.min (bb o)))%Q.
Proof.
  intros Hs Hn Eos Hc Ho. pose proof (tracking_Placed bb s Hs) as Hp.
  unfold Placed in Hp. rewrite Forall_forall in Hp. pose proof (Hp n Hn) as Hl.
  pose proof (pl_tight _ _ _ Hl I os c o Eos Hc Ho) as Ht. split; [done|].
  pose proof (tiles_size n os c (pl_oct _ _ _ Hl os Eos) Hc) as Hsz.
  unfold OctreeNode.largerThan in Ht. cbv zeta in Ht. rewrite <- Hsz.
  destruct (Qltb _ (size c)) eqn:E1 in Ht; [|apply Qltb_ge in E1; by left].
  destruct (Qltb _ (size c)) eqn:E2 in Ht; [|apply Qltb_ge in E2; right; by left].
  destruct (Qltb _ (size c)) eqn:E3 in Ht; [done|apply Qltb_ge in E3; right; by right].
Qed.

Lemma stored_objects_tight_witness :
  tracking demo_bb demo11 /\ demo_cell ∈ subnodes (root demo11) /\
  octants demo_cell = Some (children demo_cell) /\ demo_octant ∈ children demo_cell /\
  0%nat ∈ objects demo_cell /\
  OctreeNode.largerThan demo_bb demo_octant 0%nat = false /\
  (size demo_cell / 2
     <= THREE.x (THREE.max (demo_bb 0%nat)) - THREE.x (THREE.min (demo_bb 0%nat)) \/
   size demo_cell / 2
     <= THREE.y (THREE.max (demo_bb 0%nat)) - THREE.y (THREE.min (demo_bb 0%nat)) \/
   size demo_cell / 2
     <= THREE.z (THREE.max (demo_bb 0%nat)) - THREE.z (THREE.min (demo_bb 0%nat)))%Q.
Proof.
  split; [exact demo11_tracking|]. split; [exact demo_cell_node|].
  split; [exact demo_cell_octants|]. split; [exact demo_octant_child|].
  split; [exact demo_cell_objects|].
  apply (stored_objects_tight demo_bb demo11 demo_cell _ demo_octant 0%nat demo11_tracking
           demo_cell_node demo_cell_octants demo_octant_child demo_cell_objects).
Defined.

(** ** Volume queries *)

Section VolumeFacts.
Variable bb : OctreeObject -> THREE.Box3.
Variable test : THREE.Box3 -> bool.

Lemma collectObjects_filter l : forall acc,
  collectObjects bb test l acc = acc ++ filter (fun o => test (bb o) = true) l.
Proof.
  unfold collectObjects. induction l as [|o l IH]; intros acc; simpl.
  - by rewrite app_nil_r.
  - rewrite IH. destruct (test (bb o)) eqn:E.
    + rewrite filter_cons_True by done. by rewrite <- (assoc (++)).
    + rewrite filter_cons_False by congruence. done.
Qed.

Lemma node_intersect_unfold n acc :
  node_intersect bb test n acc =
  if negb (test (looseBoundingBox n)) then acc
  else foldl (fun acc c => node_intersect bb test c acc)
         (collectObjects bb test (objects n) acc) (children n).
Proof.
  destruct n as [i m s os ob c d]. unfold children. simpl.
  destruct (negb _); [done|]. destruct os as [l|]; simpl; [|done].
  generalize (collectObjects bb test ob acc).
  induction l as [|a l IH]; intros acc'; simpl; [done|]. apply IH.
Qed.

Lemma filter_none {A} (P : A -> Prop) `{!forall x, Decision (P x)} (l : list A) :
  (forall x, x ∈ l -> ~ P x) -> filter P l = [].
Proof.
  induction l as [|a l IH]; intros Hall; [done|].
  rewrite filter_cons_False by (apply Hall; left). apply IH.
  intros x Hx. apply Hall. by right.
Qed.

(** The traversal finds exactly the objects of the subtree that pass the
    test: skipping a subtree whose loose box fails the test loses nothing. *)
Lemma node_intersect_exact n :
  Placed bb True n ->
  (forall o b, o ∈ objs n -> boxIn (bb o) b -> test (bb o) = true -> test b = true) ->
  forall acc,
  node_intersect bb test n acc = acc ++ filter (fun o => test (bb o) = true) (objs n).
Proof.
  induction n as [n IH] using node_ind'. intros Hp Hmono acc.
  rewrite node_intersect_unfold.
  destruct (test (looseBoundingBox n)) eqn:Et; cbn [negb].
  2:{ rewrite filter_none; [by rewrite app_nil_r|].
      intros o Ho Hyes.
      rewrite (Hmono o (looseBoundingBox n) Ho) in Et; [done| |done].
      by apply (Placed_covered bb True). }
  rewrite collectObjects_filter, objs_eq, filter_app, (assoc (++)).
  pose proof (Placed_children _ _ _ Hp) as Hch.
  assert (forall o b, o ∈ children n ≫= objs -> boxIn (bb o) b ->
            test (bb o) = true -> test b = true) as Hmc.
  { intros o b Ho. apply Hmono. rewrite objs_eq. apply elem_of_app. by right. }
  clear Hmono Hp Et.
  generalize (acc ++ filter (fun o => test (bb o) = true) (objects n)).
  induction IH as [|c l Hc _ IHl]; intros acc'; cbn [foldl].
  - by rewrite app_nil_r.
  - apply Forall_cons in Hch as [Hpc Hch].
    rewrite Hc; [|done|].
    2:{ intros o b Ho. apply Hmc. rewrite bind_cons. apply elem_of_app. by left. }
    rewrite IHl; [|done|].
    2:{ intros o b Ho. apply Hmc. rewrite bind_cons. apply elem_of_app. by right. }
    by rewrite bind_cons, filter_app, (assoc (++)).
Qed.
End VolumeFacts.

Lemma intersectsBox_spec (a b : THREE.Box3) :
  THREE.intersectsBox a b = true <->
  (THREE.x (THREE.min a) <= THREE.x (THREE.max b) /\
   THREE.x (THREE.min b) <= THREE.x (THREE.max a) /\
   THREE.y (THREE.min a) <= THREE.y (THREE.max b) /\
   THREE.y (THREE.min b) <= THREE.y (THREE.max a) /\
   THREE.z (THREE.min a) <= THREE.z (THREE.max b) /\
   THREE.z (THREE.min b) <= THREE.z (THREE.max a))%Q.
Proof.
  unfold THREE.intersectsBox.
  destruct (Qltb (THREE.x (THREE.max b)) (THREE.x (THREE.min a))) eqn:E1;
    [apply Qltb_lt in E1|apply Qltb_ge in E1]; cbn [orb].
  { split; [done|]. intros ?. exfalso. lra. }
  destruct (Qltb (THREE.x (THREE.max a)) (THREE.x (THREE.min b))) eqn:E2;
    [apply Qltb_lt in E2|apply Qltb_ge in E2]; cbn [orb].
  { split; [done|]. intros ?. exfalso. lra. }
  destruct (Qltb (THREE.y (THREE.max b)) (THREE.y (THREE.min a))) eqn:E3;
    [apply Qltb_lt in E3|apply Qltb_ge in E3]; cbn [orb].
  { split; [done|]. intros ?. exfalso. lra. }
  destruct (Qltb (THREE.y (THREE.max a)) (THREE.y (THREE.min b))) eqn:E4;
    [apply Qltb_lt in E4|apply Qltb_ge in E4]; cbn [orb].
  { split; [done|]. intros ?. exfalso. lra. }
  destruct (Qltb (THREE.z (THREE.max b)) (THREE.z (THREE.min a))) eqn:E5;
    [apply Qltb_lt in E5|apply Qltb_ge in E5]; cbn [orb].
  { split; [done|]. intros ?. exfalso. lra. }
  destruct (Qltb (THREE.z (THREE.max a)) (THREE.z (THREE.min b))) eqn:E6;
    [apply Qltb_lt in E6|apply Qltb_ge in E6]; cbn [orb].
  { split; [done|]. intros ?. exfalso. lra. }
  split; [|done]. intros _. split_and!; done.
Qed.

Lemma intersectsBox_mono (q a b : THREE.Box3) :
  boxIn a b -> THREE.intersectsBox q a = true -> THREE.intersectsBox q b = true.
Proof.
  rewrite !intersectsBox_spec. unfold boxIn. intros ? ?. split_and!; lra.
Qed.

Lemma tracked_objs s o :
  reachable s -> (o ∈ objs (root s) <-> is_Some (objectToNode (shared s) !! o)).
Proof. intros Hs. symmetry. apply Inv_tracked. by apply reachable_Inv. Qed.

(** X6 (volume queries prune soundly).  For a test that answers [true] on a
    box as soon as it does on a box inside it, the traversal that
    [intersectAabb] and [intersectSphere] share returns, on an index that is
    up to date, exactly the stored objects whose box passes the test, in the
    order of the tree: a subtree is skipped only when it holds no such
    object. *)
Theorem volume_query_exact bb (test : THREE.Box3 -> bool) s :
  tracking bb s ->
  (forall a b, boxIn a b -> test a = true -> test b = true) ->
  node_intersect bb test (root s) []
  = filter (fun o => test (bb o) = true) (objs (root s)).
Proof.
  intros Hs Hmono. rewrite node_intersect_exact; [done|by apply tracking_Placed|].
  intros o b _. apply Hmono.
Qed.

Definition demo_aabb : THREE.Box3 := cube (1 # 2) (1 # 4) (1 # 4) (1 # 5).

Lemma volume_query_exact_witness :
  tracking demo_bb demo11 /\
  (forall a b, boxIn a b -> THREE.intersectsBox demo_aabb a = true ->
     THREE.intersectsBox demo_aabb b = true) /\
  node_intersect demo_bb (THREE.intersectsBox demo_aabb) (root demo11) []
  = filter (fun o => THREE.intersectsBox demo_aabb (demo_bb o) = true) (objs (root demo11)).
Proof.
  split; [exact demo11_tracking|]. split; [apply intersectsBox_mono|].
  apply (volume_query_exact demo_bb (THREE.intersectsBox demo_aabb) demo11 demo11_tracking).
  apply intersectsBox_mono.
Defined.

(** X7 ([intersectAabb]).  On an index that is up to date with the boxes
    [bb], [intersectAabb] returns exactly the tracked objects whose bounding
    box intersects the query box ([Box3.intersectsBox]), each of them once. *)
Theorem intersectAabb_exact bb s aabb :
  tracking bb s ->
  Octree.intersectAabb bb s aabb
    = filter (fun o => THREE.intersectsBox aabb (bb o) = true) (objs (root s)) /\
  NoDup (Octree.intersectAabb bb s aabb) /\
  forall o, o ∈ Octree.intersectAabb bb s aabb <->
            is_Some (objectToNode (shared s) !! o) /\ THREE.intersectsBox aabb (bb o) = true.
Proof.
  intros Hs. pose proof (tracking_reachable _ _ Hs) as Hr.
  assert (Octree.intersectAabb bb s aabb
          = filter (fun o => THREE.intersectsBox aabb (bb o) = true) (objs (root s))) as Heq.
  { unfold Octree.intersectAabb, node_intersectAabb.
    rewrite node_intersect_exact; [done|by apply tracking_Placed|].
    intros o b _. apply intersectsBox_mono. }
  split; [done|]. rewrite Heq. split.
  - apply NoDup_filter. apply (Heap_objs_NoDup _ (shared s)).
    apply (inv_heap _ (reachable_Inv s Hr)).
  - intros o. rewrite list_elem_of_filter, (tracked_objs s o Hr). tauto.
Qed.

Lemma intersectAabb_exact_witness :
  tracking demo_bb demo11 /\
  Octree.intersectAabb demo_bb demo11 demo_aabb
    = filter (fun o => THREE.intersectsBox demo_aabb (demo_bb o) = true) (objs (root demo11)) /\
  NoDup (Octree.intersectAabb demo_bb demo11 demo_aabb) /\
  forall o, o ∈ Octree.intersectAabb demo_bb demo11 demo_aabb <->
            is_Some (objectToNode (shared demo11) !! o) /\
            THREE.intersectsBox demo_aabb (demo_bb o) = true.
Proof.
  split; [exact demo11_tracking|].
  apply (intersectAabb_exact demo_bb demo11 demo_aabb demo11_tracking).
Defined.

(** ** Spheres *)

Definition wellFormed (b : THREE.Box3) : Prop :=
  (THREE.x (THREE.min b) <= THREE.x (THREE.max b) /\
   THREE.y (THREE.min b) <= THREE.y (THREE.max b) /\
   THREE.z (THREE.min b) <= THREE.z (THREE.max b))%Q.

Lemma Math_max_spec (a b : Q) :
  (a <= b /\ THREE.Math_max a b = b)%Q \/ (b < a /\ THREE.Math_max a b = a)%Q.
Proof.
  unfold THREE.Math_max. destruct (Qle_bool a b) eqn:E.
  - left. split; [by apply Qle_bool_iff|done].
  - right. split; [|done]. apply Qnot_le_lt. intros H. apply Qle_bool_iff in H. congruence.
Qed.

Lemma Math_min_spec (a b : Q) :
  (a <= b /\ THREE.Math_min a b = a)%Q \/ (b < a /\ THREE.Math_min a b = b)%Q.
Proof.
  unfold THREE.Math_min. destruct (Qle_bool a b) eqn:E.
  - left. split; [by apply Qle_bool_iff|done].
  - right. split; [|done]. apply Qnot_le_lt. intros H. apply Qle_bool_iff in H. congruence.
Qed.

(** Clamping into a larger interval moves a coordinate less. *)
Lemma clamp_axis (alo ahi blo bhi x : Q) :
  (alo <= ahi -> blo <= alo -> ahi <= bhi ->
   (THREE.Math_max blo (THREE.Math_min bhi x) - x) *
   (THREE.Math_max blo (THREE.Math_min bhi x) - x)
   <= (THREE.Math_max alo (THREE.Math_min ahi x) - x) *
      (THREE.Math_max alo (THREE.Math_min ahi x) - x))%Q.
Proof.
  intros H1 H2 H3.
  destruct (Math_min_spec bhi x) as [[B1 ->]|[B1 ->]];
  destruct (Math_min_spec ahi x) as [[A1 ->]|[A1 ->]];
  match goal with |- context [THREE.Math_max blo ?u] =>
    destruct (Math_max_spec blo u) as [[B2 ->]|[B2 ->]] end;
  match goal with |- context [THREE.Math_max alo ?u] =>
    destruct (Math_max_spec alo u) as [[A2 ->]|[A2 ->]] end;
  nra.
Qed.

Lemma sphereIntersectsBox_mono (sphere : THREE.Sphere) (a b : THREE.Box3) :
  wellFormed a -> boxIn a b ->
  THREE.sphereIntersectsBox sphere a = true -> THREE.sphereIntersectsBox sphere b = true.
Proof.
  intros (Wx & Wy & Wz) (X1 & X2 & Y1 & Y2 & Z1 & Z2).
  unfold THREE.sphereIntersectsBox, THREE.intersectsSphere. rewrite !Qle_bool_iff.
  unfold THREE.distanceToSquared, THREE.clampPoint, THREE.clamp. cbv zeta.
  cbn [THREE.x THREE.y THREE.z].
  pose proof (clamp_axis _ _ _ _ (THREE.x (THREE.center sphere)) Wx X1 X2).
  pose proof (clamp_axis _ _ _ _ (THREE.y (THREE.center sphere)) Wy Y1 Y2).
  pose proof (clamp_axis _ _ _ _ (THREE.z (THREE.center sphere)) Wz Z1 Z2).
  lra.
Qed.

(** X8 ([intersectSphere]).  On an index that is up to date with the boxes
    [bb], when the boxes of the tracked objects have [min <= max] on every
    axis, [intersectSphere] returns exactly the tracked objects whose bounding
    box intersects the sphere ([Sphere.intersectsBox]), each of them once. *)
Theorem intersectSphere_exact bb s sphere :
  tracking bb s ->
  (forall o, is_Some (objectToNode (shared s) !! o) -> wellFormed (bb o)) ->
  Octree.intersectSphere bb s sphere
    = filter (fun o => THREE.sphereIntersectsBox sphere (bb o) = true) (objs (root s)) /\
  NoDup (Octree.intersectSphere bb s sphere) /\
  forall o, o ∈ Octree.intersectSphere bb s sphere <->
            is_Some (objectToNode (shared s) !! o) /\
            THREE.sphereIntersectsBox sphere (bb o) = true.
Proof.
  intros Hs Hwf. pose proof (tracking_reachable _ _ Hs) as Hr.
  assert (Octree.intersectSphere bb s sphere
          = filter (fun o => THREE.sphereIntersectsBox sphere (bb o) = true)
              (objs (root s))) as Heq.
  { unfold Octree.intersectSphere, node_intersectSphere.
    rewrite node_intersect_exact; [done|by apply tracking_Placed|].
    intros o b Ho. apply sphereIntersectsBox_mono. apply Hwf. by apply (tracked_objs s o Hr). }
  split; [done|]. rewrite Heq. split.
  - apply NoDup_filter. apply (Heap_objs_NoDup _ (shared s)).
    apply (inv_heap _ (reachable_Inv s Hr)).
  - intros o. rewrite list_elem_of_filter, (tracked_objs s o Hr). tauto.
Qed.

Definition demo_sphere : THREE.Sphere :=
  THREE.mkSphere (THREE.mkVector3 (1 # 2) (1 # 4) (1 # 4)) (1 # 5).

Lemma cube_wellFormed (cx cy cz h : Q) : (0 <= h)%Q -> wellFormed (cube cx cy cz h).
Proof. intros H. unfold wellFormed, cube. simpl. split_and!; lra. Qed.

Lemma demo_bb_wellFormed o : wellFormed (demo_bb o).
Proof.
  unfold demo_bb. destruct (o <? 10)%nat; [|destruct (o =? 10)%nat; [|destruct (o =? 11)%nat]];
    apply cube_wellFormed; lra.
Qed.

Lemma intersectSphere_exact_witness :
  tracking demo_bb demo11 /\
  (forall o, is_Some (objectToNode (shared demo11) !! o) -> wellFormed (demo_bb o)) /\
  Octree.intersectSphere demo_bb demo11 demo_sphere
    = filter (fun o => THREE.sphereIntersectsBox demo_sphere (demo_bb o) = true)
        (objs (root demo11)) /\
  NoDup (Octree.intersectSphere demo_bb demo11 demo_sphere) /\
  forall o, o ∈ Octree.intersectSphere demo_bb demo11 demo_sphere <->
            is_Some (objectToNode (shared demo11) !! o) /\
            THREE.sphereIntersectsBox demo_sphere (demo_bb o) = true.
Proof.
  split; [exact demo11_tracking|].
  split; [intros o _; apply demo_bb_wellFormed|].
  apply (intersectSphere_exact demo_bb demo11 demo_sphere demo11_tracking).
  intros o _. apply demo_bb_wellFormed.
Defined.

(** ** Rays *)

Section RaycastExact.
Variable rayIntersectsBox : THREE.Vector3 -> THREE.Vector3 -> THREE.Box3 -> bool.
Variable isIntersectedByRay :
  OctreeObject -> THREE.Vector3 -> THREE.Vector3 -> option THREE.Vector3.
Variable distanceTo : THREE.Vector3 -> THREE.Vector3 -> Q.
Variable rayOrigin rayDirection : THREE.Vector3.
Variable bb : OctreeObject -> THREE.Box3.

Lemma testObjects_app l1 l2 acc :
  testObjects isIntersectedByRay distanceTo rayOrigin rayDirection (l1 ++ l2) acc
  = testObjects isIntersectedByRay distanceTo rayOrigin rayDirection l2
      (testObjects isIntersectedByRay distanceTo rayOrigin rayDirection l1 acc).
Proof. unfold testObjects. apply foldl_app. Qed.

Lemma testObjects_none l : forall acc,
  (forall o, o ∈ l -> isIntersectedByRay o rayOrigin rayDirection = None) ->
  testObjects isIntersectedByRay distanceTo rayOrigin rayDirection l acc = acc.
Proof.
  induction l as [|o l IH]; intros acc Hnone; simpl; [done|].
  rewrite (Hnone o) by left. apply IH. intros x Hx. apply Hnone. by right.
Qed.

Hypothesis box_mono : forall a b,
  boxIn a b -> rayIntersectsBox rayOrigin rayDirection a = true ->
  rayIntersectsBox rayOrigin rayDirection b = true.

(** The traversal tests exactly the objects of the subtree that a test of
    every object would hit. *)
Lemma node_raycast_exact n :
  Placed bb True n ->
  (forall o p, o ∈ objs n -> isIntersectedByRay o rayOrigin rayDirection = Some p ->
     rayIntersectsBox rayOrigin rayDirection (bb o) = true) ->
  forall acc,
  node_raycast rayIntersectsBox isIntersectedByRay distanceTo n rayOrigin rayDirection acc
  = testObjects isIntersectedByRay distanceTo rayOrigin rayDirection (objs n) acc.
Proof.
  induction n as [n IH] using node_ind'. intros Hp Hin acc.
  rewrite node_raycast_unfold.
  destruct (rayIntersectsBox rayOrigin rayDirection (looseBoundingBox n)) eqn:Et; cbn [negb].
  2:{ rewrite testObjects_none; [done|]. intros o Ho.
      destruct (isIntersectedByRay o rayOrigin rayDirection) as [p|] eqn:E; [|done].
      rewrite (box_mono (bb o) (looseBoundingBox n)) in Et; [done| |by eapply Hin].
      by apply (Placed_covered bb True). }
  rewrite objs_eq, testObjects_app.
  pose proof (Placed_children _ _ _ Hp) as Hch.
  assert (forall o p, o ∈ children n ≫= objs ->
            isIntersectedByRay o rayOrigin rayDirection = Some p ->
            rayIntersectsBox rayOrigin rayDirection (bb o) = true) as Hic.
  { intros o p Ho. apply Hin. rewrite objs_eq. apply elem_of_app. by right. }
  clear Hin Hp Et.
  generalize (testObjects isIntersectedByRay distanceTo rayOrigin rayDirection (objects n) acc).
  induction IH as [|c l Hc _ IHl]; intros acc'; cbn [foldl]; [done|].
  apply Forall_cons in Hch as [Hpc Hch].
  rewrite Hc; [|done|].
  2:{ intros o p Ho. apply Hic. rewrite bind_cons. apply elem_of_app. by left. }
  rewrite IHl; [|done|].
  2:{ intros o p Ho. apply Hic. rewrite bind_cons. apply elem_of_app. by right. }
  by rewrite bind_cons, testObjects_app.
Qed.
End RaycastExact.

(** X9 ([raycast] misses nothing).  Let the ray-box test answer [true] on a
    box as soon as it does on a box inside it, and let every tracked object
    that the ray hits have a bounding box that the ray-box test accepts.
    Then, on an index that is up to date, [raycast] returns what testing
    every stored object would give, sorted by distance. *)
Theorem raycast_exact rayIntersectsBox isIntersectedByRay distanceTo rayOrigin rayDirection
    bb s :
  tracking bb s ->
  (forall a b, boxIn a b -> rayIntersectsBox rayOrigin rayDirection a = true ->
     rayIntersectsBox rayOrigin rayDirection b = true) ->
  (forall o p, is_Some (objectToNode (shared s) !! o) ->
     isIntersectedByRay o rayOrigin rayDirection = Some p ->
     rayIntersectsBox rayOrigin rayDirection (bb o) = true) ->
  Octree.raycast rayIntersectsBox isIntersectedByRay distanceTo s rayOrigin rayDirection
  = sortByDistance
      (testObjects isIntersectedByRay distanceTo rayOrigin rayDirection (objs (root s)) []).
Proof.
  intros Hs Hmono Hin. pose proof (tracking_reachable _ _ Hs) as Hr.
  unfold Octree.raycast. cbv zeta. f_equal.
  apply (node_raycast_exact _ _ _ _ _ bb); [done|by apply tracking_Placed|].
  intros o p Ho. apply Hin. by apply (tracked_objs s o Hr).
Qed.

(** A ray test for the witness: the ray is the single point [rayOrigin]. *)
Definition pointInBox (rayOrigin _ : THREE.Vector3) (box : THREE.Box3) : bool :=
  THREE.intersectsBox (THREE.mkBox3 rayOrigin rayOrigin) box.

Definition pointHits (o : OctreeObject) (rayOrigin rayDirection : THREE.Vector3)
  : option THREE.Vector3 :=
  if pointInBox rayOrigin rayDirection (demo_bb o) then Some rayOrigin else None.

Definition demo_origin : THREE.Vector3 := THREE.mkVector3 (1 # 4) (1 # 4) (1 # 4).

Lemma raycast_exact_witness :
  tracking demo_bb demo11 /\
  Octree.raycast pointInBox pointHits (fun _ _ => 0%Q) demo11 demo_origin demo_origin
  = sortByDistance
      (testObjects pointHits (fun _ _ => 0%Q) demo_origin demo_origin (objs (root demo11)) []).
Proof.
  split; [exact demo11_tracking|].
  apply (raycast_exact pointInBox pointHits (fun _ _ => 0%Q) demo_origin demo_origin
           demo_bb demo11 demo11_tracking).
  - intros a b. apply intersectsBox_mono.
  - intros o p _. unfold pointHits. by destruct (pointInBox _ _ _).
Defined.

(** ** What the ray traversal visits *)

Section RaycastVisits.
Variable rayIntersectsBox : THREE.Vector3 -> THREE.Vector3 -> THREE.Box3 -> bool.
Variable isIntersectedByRay :
  OctreeObject -> THREE.Vector3 -> THREE.Vector3 -> option THREE.Vector3.
Variable distanceTo : THREE.Vector3 -> THREE.Vector3 -> Q.
Variable rayOrigin rayDirection : THREE.Vector3.

(** [visited n m]: the traversal that starts at [n] reaches node [m], that
    is, the ray-box test accepts the loose box of every node from [n] down
    to [m]. *)
Inductive visited : OctreeNode.t -> OctreeNode.t -> Prop :=
| visited_here n :
    rayIntersectsBox rayOrigin rayDirection (looseBoundingBox n) = true -> visited n n
| visited_below n c m :
    rayIntersectsBox rayOrigin rayDirection (looseBoundingBox n) = true ->
    c ∈ children n -> visited c m -> visited n m.

Lemma elem_of_testObjects l : forall acc h,
  h ∈ testObjects isIntersectedByRay distanceTo rayOrigin rayDirection l acc
  <-> h ∈ acc \/ hitOn isIntersectedByRay distanceTo rayOrigin rayDirection l h.
Proof.
  unfold hitOn.
  induction l as [|o l IH]; intros acc h; simpl.
  - split; [by left|]. intros [H|[H _]]; [done|]. by apply elem_of_nil in H.
  - rewrite IH. destruct (isIntersectedByRay o rayOrigin rayDirection) as [p|] eqn:E.
    + rewrite elem_of_app, list_elem_of_singleton. split.
      * intros [[H| ->]|(H1 & H2 & H3)]; [by left| |].
        -- right. simpl. split_and!; [left|done|done].
        -- right. split_and!; [by right|done|done].
      * intros [H|(H1 & H2 & H3)]; [by left; left|].
        apply elem_of_cons in H1 as [H1|H1]; [|by right].
        left. right. destruct h as [ho hp hd]. simpl in *. subst ho.
        rewrite E in H2. injection H2 as ->. by rewrite H3.
    + split.
      * intros [H|(H1 & H2 & H3)]; [by left|]. right. split_and!; [by right|done|done].
      * intros [H|(H1 & H2 & H3)]; [by left|].
        apply elem_of_cons in H1 as [H1|H1]; [|by right].
        rewrite <- H1, H2 in E. done.
Qed.

Lemma node_raycast_visited n : forall acc h,
  h ∈ node_raycast rayIntersectsBox isIntersectedByRay distanceTo n rayOrigin rayDirection acc
  <-> h ∈ acc \/
      exists m, visited n m /\
        hitOn isIntersectedByRay distanceTo rayOrigin rayDirection (objects m) h.
Proof.
  induction n as [n IH] using node_ind'. intros acc h.
  rewrite node_raycast_unfold.
  destruct (rayIntersectsBox rayOrigin rayDirection (looseBoundingBox n)) eqn:Et; cbn [negb].
  2:{ split; [by left|]. intros [H|(m & Hv & _)]; [done|].
      inversion Hv; congruence. }
  assert (forall l acc',
            Forall (fun c => forall acc h,
              h ∈ node_raycast rayIntersectsBox isIntersectedByRay distanceTo c
                    rayOrigin rayDirection acc
              <-> h ∈ acc \/
                  exists m, visited c m /\
                    hitOn isIntersectedByRay distanceTo rayOrigin rayDirection
                      (objects m) h) l ->
            (h ∈ foldl (fun acc c =>
                     node_raycast rayIntersectsBox isIntersectedByRay distanceTo
                       c rayOrigin rayDirection acc) acc' l
             <-> h ∈ acc' \/
                 exists c m, c ∈ l /\ visited c m /\
                   hitOn isIntersectedByRay distanceTo rayOrigin rayDirection
                     (objects m) h)) as Hfold.
  { clear. induction l as [|c l IHl]; intros acc' Hall; cbn [foldl].
    - split; [by left|]. intros [H|(c & m & Hc & _)]; [done|]. by apply elem_of_nil in Hc.
    - apply Forall_cons in Hall as [Hc Hall]. rewrite (IHl _ Hall), Hc. split.
      + intros [[H|(m & Hv & Hh)]|(c' & m & Hc' & Hv & Hh)]; [by left| |].
        * right. exists c, m. split_and!; [left|done|done].
        * right. exists c', m. split_and!; [by right|done|done].
      + intros [H|(c' & m & Hc' & Hv & Hh)]; [by left; left|].
        apply elem_of_cons in Hc' as [->|Hc']; [left; right; eauto|right; eauto 6]. }
  rewrite (Hfold _ _ IH), elem_of_testObjects. split.
  - intros [[H|Hh]|(c & m & Hc & Hv & Hh)]; [by left| |].
    + right. exists n. split; [by apply visited_here|done].
    + right. exists m. split; [by eapply visited_below|done].
  - intros [H|(m & Hv & Hh)]; [by left; left|].
    inversion Hv as [n' _|n' c m' _ Hc Hv']; subst.
    + left. by right.
    + right. eauto 6.
Qed.

End RaycastVisits.

(** C8.  For every ray, [raycast] returns a list in ascending order of
    distance that holds exactly the hits collected from the tree: a hit is
    returned if and only if it is the hit of an object of a node that the
    traversal visits (the ray-box test accepts the loose box of the node and
    of all nodes above it), with the intersection point of that object and
    the distance from the ray origin to that point.  Every hit is on a stored
    object.  On an index that is up to date, with a ray-box test that is
    monotone in the box and accepts the box of every tracked object the ray
    hits, the visited nodes hold every stored object the ray hits: the result
    is the sorted list of the hits of all stored objects.  The list may be
    empty. *)
Theorem raycast_sorted rayIntersectsBox isIntersectedByRay distanceTo
    rayOrigin rayDirection s :
  let result :=
    Octree.raycast rayIntersectsBox isIntersectedByRay distanceTo s rayOrigin rayDirection in
  let hit := hitOn isIntersectedByRay distanceTo rayOrigin rayDirection in
  StronglySorted byDistance result /\
  result ≡ₚ node_raycast rayIntersectsBox isIntersectedByRay distanceTo
              (root s) rayOrigin rayDirection [] /\
  (forall h, h ∈ result <->
     exists m, visited rayIntersectsBox rayOrigin rayDirection (root s) m /\
               hit (objects m) h) /\
  Forall (hit (objs (root s))) result /\
  (forall bb, tracking bb s ->
     (forall a b, boxIn a b -> rayIntersectsBox rayOrigin rayDirection a = true ->
        rayIntersectsBox rayOrigin rayDirection b = true) ->
     (forall o p, is_Some (objectToNode (shared s) !! o) ->
        isIntersectedByRay o rayOrigin rayDirection = Some p ->
        rayIntersectsBox rayOrigin rayDirection (bb o) = true) ->
     result = sortByDistance
                (testObjects isIntersectedByRay distanceTo rayOrigin rayDirection
                   (objs (root s)) []) /\
     forall h, h ∈ result <-> hit (objs (root s)) h).
Proof.
  cbv zeta.
  destruct (raycast_hits_sorted rayIntersectsBox isIntersectedByRay distanceTo
              rayOrigin rayDirection s) as (Hperm & Hsorted & Hhits).
  split_and!; auto.
  - intros h. rewrite Hperm, node_raycast_visited. split; [|by right].
    intros [H|H]; [by apply elem_of_nil in H|done].
  - intros bb Hs Hmono Hin. pose proof (tracking_reachable _ _ Hs) as Hr.
    assert (node_raycast rayIntersectsBox isIntersectedByRay distanceTo
              (root s) rayOrigin rayDirection []
            = testObjects isIntersectedByRay distanceTo rayOrigin rayDirection
                (objs (root s)) []) as Hex.
    { apply (node_raycast_exact _ _ _ _ _ bb); [done|by apply tracking_Placed|].
      intros o p Ho. apply Hin. by apply (tracked_objs s o Hr). }
    split; [unfold Octree.raycast; cbv zeta; by rewrite Hex|].
    intros h. rewrite Hperm, Hex, elem_of_testObjects. split; [|by right].
    intros [H|H]; [by apply elem_of_nil in H|done].
Qed.

Lemma raycast_sorted_witness :
  tracking demo_bb demo11 /\
  forall h,
    h ∈ Octree.raycast pointInBox pointHits (fun _ _ => 0%Q) demo11 demo_origin demo_origin
    <-> hitOn pointHits (fun _ _ => 0%Q) demo_origin demo_origin (objs (root demo11)) h.
Proof.
  split; [exact demo11_tracking|].
  destruct (raycast_sorted pointInBox pointHits (fun _ _ => 0%Q) demo_origin demo_origin
              demo11) as (_ & _ & _ & _ & H).
  destruct (H demo_bb demo11_tracking) as [_ Hall].
  - intros a b. apply intersectsBox_mono.
  - intros o p _. unfold pointHits. by destruct (pointInBox _ _ _).
  - exact Hall.
Defined.

(** ** The set of tracked objects *)

Definition tracked (s : Octree.t) (o : OctreeObject) : Prop :=
  is_Some (objectToNode (shared s) !! o).

(** X10 ([insert] adds one object).  In a reachable state, after an [insert]
    that printed no warning, the tracked objects are the ones tracked before
    and the inserted object. *)
Theorem insert_tracks bb s o s' :
  reachable s -> Octree.insert bb s o = Ok s' -> console s' = console s ->
  forall x, tracked s' x <-> x = o \/ tracked s x.
Proof.
  intros Hs Hrun Hcon x. pose proof (reachable_Inv s Hs) as Hinv.
  destruct (insert_spec bb s o Hinv) as (s1 & Hrun1 & Hinv1 & Hsome & Hnone).
  assert (s1 = s') as -> by congruence. unfold tracked.
  destruct (objectToNode (shared s) !! o) as [m|] eqn:Eo.
  - rewrite Hsome by eauto. split; [tauto|]. intros [->|]; [|done]. rewrite Eo. eauto.
  - destruct (Hnone eq_refl) as [(_ & Hperm & _)|(Hcon' & _)].
    + rewrite (Inv_tracked s' x Hinv1), (Inv_tracked s x Hinv), Hperm.
      apply elem_of_cons.
    + rewrite Hcon in Hcon'. apply (f_equal length) in Hcon'.
      rewrite length_app in Hcon'. simpl in Hcon'. lia.
Qed.

Lemma insert_tracks_witness :
  reachable demo10 /\ Octree.insert demo_bb demo10 10%nat = Ok demo11 /\
  console demo11 = console demo10 /\
  forall x, tracked demo11 x <-> x = 10%nat \/ tracked demo10 x.
Proof.
  assert (Octree.insert demo_bb demo10 10%nat = Ok demo11) as Hrun
    by (vm_compute; reflexivity).
  assert (console demo11 = console demo10) as Hcon by (vm_compute; reflexivity).
  split; [exact demo10_reachable|]. split; [exact Hrun|]. split; [exact Hcon|].
  apply (insert_tracks demo_bb demo10 10%nat demo11 demo10_reachable Hrun Hcon).
Defined.

Lemma remove_tracked s o :
  reachable s ->
  exists s', Octree.remove s o = Ok s' /\ console s' = console s /\
    forall x, tracked s' x <-> x <> o /\ tracked s x.
Proof.
  intros Hs. pose proof (reachable_Inv s Hs) as Hinv.
  destruct (remove_op_spec s o Hinv) as (s' & Hrun & Hinv' & Hcon & Hnone & Hsome).
  exists s'. split; [done|]. split; [done|]. intros x. unfold tracked.
  destruct (objectToNode (shared s) !! o) as [m|] eqn:Eo.
  - destruct Hsome as [Hperm Hgone]; [eauto|].
    pose proof (Heap_objs_NoDup _ _ (inv_heap _ Hinv)) as Hnd.
    rewrite Hperm in Hnd. apply NoDup_cons in Hnd as [Hnotin _].
    rewrite (Inv_tracked s' x Hinv'), (Inv_tracked s x Hinv), Hperm, elem_of_cons.
    split; [|tauto]. intros Hx. split; [by intros ->|by right].
  - rewrite (Hnone eq_refl). split; [|tauto]. intros Hx. split; [|done].
    intros ->. rewrite Eo in Hx. by destruct Hx.
Qed.

(** X11 ([remove] removes one object).  In a reachable state [remove]
    returns, prints nothing, and leaves tracked exactly the objects that were
    tracked before other than the removed one (all of them when the object
    was not tracked). *)
Theorem remove_untracks s o :
  reachable s ->
  exists s', Octree.remove s o = Ok s' /\ console s' = console s /\
    forall x, tracked s' x <-> x <> o /\ tracked s x.
Proof. apply remove_tracked. Qed.

(** X12 ([update]).  In a reachable state [update] returns, and either it
    prints nothing and the object is tracked afterwards next to all objects
    tracked before, or it prints the MIN_DEPTH warning and the object is not
    tracked afterwards: an object whose new box cannot be fitted is dropped
    from the index. *)
Theorem update_retracks bb s o :
  reachable s ->
  exists s', Octree.update bb s o = Ok s' /\
    ((console s' = console s /\ forall x, tracked s' x <-> x = o \/ tracked s x) \/
     (console s' = console s ++ [Octree.warning] /\
      forall x, tracked s' x <-> x <> o /\ tracked s x)).
Proof.
  intros Hs. pose proof (reachable_Inv s Hs) as Hinv.
  destruct (remove_tracked s o Hs) as (s1 & Hrem & Hcon1 & Hset1).
  assert (reachable s1) as Hs1 by (by eapply reach_remove).
  pose proof (reachable_Inv s1 Hs1) as Hinv1.
  destruct (insert_spec bb s1 o Hinv1) as (s' & Hins & Hinv' & _ & Hnone).
  exists s'. unfold Octree.update. rewrite Hrem. cbn [mbind Res_bind]. split; [done|].
  assert (objectToNode (shared s1) !! o = None) as Eo.
  { destruct (objectToNode (shared s1) !! o) eqn:E; [|done].
    assert (tracked s1 o) as Ht by (unfold tracked; rewrite E; eauto).
    apply Hset1 in Ht as [? _]. done. }
  destruct (Hnone Eo) as [(Hcon & Hperm & _)|(Hcon & Hperm & _)]; [left|right].
  - split; [congruence|]. intros x. unfold tracked at 1.
    rewrite (Inv_tracked s' x Hinv'), Hperm, elem_of_cons.
    rewrite <- (Inv_tracked s1 x Hinv1). fold (tracked s1 x). rewrite Hset1.
    destruct (decide (x = o)); tauto.
  - split; [congruence|]. intros x. unfold tracked at 1.
    rewrite (Inv_tracked s' x Hinv'), Hperm.
    rewrite <- (Inv_tracked s1 x Hinv1). apply Hset1.
Qed.

Lemma update_retracks_witness :
  reachable demo11 /\
  exists s', Octree.update demo_bb demo11 10%nat = Ok s' /\
    ((console s' = console demo11 /\
      forall x, tracked s' x <-> x = 10%nat \/ tracked demo11 x) \/
     (console s' = console demo11 ++ [Octree.warning] /\
      forall x, tracked s' x <-> x <> 10%nat /\ tracked demo11 x)).
Proof.
  split; [exact demo11_reachable|].
  apply (update_retracks demo_bb demo11 10%nat demo11_reachable).
Defined.

Lemma remove_untracks_witness :
  reachable demo11 /\
  exists s', Octree.remove demo11 10%nat = Ok s' /\ console s' = console demo11 /\
    forall x, tracked s' x <-> x <> 10%nat /\ tracked demo11 x.
Proof.
  split; [exact demo11_reachable|].
  apply (remove_untracks demo11 10%nat demo11_reachable).
Defined.

(** X13 (the root counts the tracked objects).  In every reachable state the
    [count] of the root is the number of entries of [objectToNode], which is
    the number of objects stored in the tree; no object is stored twice. *)
Theorem root_count_tracked s :
  reachable s ->
  count (root s) = Z.of_nat (base.size (objectToNode (shared s))) /\
  count (root s) = Z.of_nat (length (objs (root s))) /\
  NoDup (objs (root s)).
Proof.
  intros Hs. pose proof (reachable_Inv s Hs) as Hinv.
  pose proof (Heap_objs_NoDup _ _ (inv_heap _ Hinv)) as Hnd.
  pose proof (count_objs _ (inv_node _ Hinv)) as Hc.
  split; [|done]. rewrite Hc. f_equal.
  rewrite <- size_dom, <- (size_list_to_set (C := gset OctreeObject)) by done.
  f_equal. apply set_eq. intros x.
  rewrite elem_of_list_to_set, elem_of_dom. symmetry. apply (Inv_tracked s x Hinv).
Qed.

Lemma root_count_tracked_witness :
  reachable demo11 /\
  count (root demo11) = Z.of_nat (base.size (objectToNode (shared demo11))) /\
  count (root demo11) = Z.of_nat (length (objs (root demo11))) /\
  NoDup (objs (root demo11)).
Proof.
  split; [exact demo11_reachable|]. apply (root_count_tracked demo11 demo11_reachable).
Defined.

Lemma subnodes_trans n r k : k ∈ subnodes n -> n ∈ subnodes r -> k ∈ subnodes r.
Proof.
  intros Hk. induction r as [r IH] using node_ind'. intros Hn.
  rewrite subnodes_eq in Hn. apply elem_of_cons in Hn as [->|Hn]; [done|].
  apply list_elem_of_bind in Hn as (c & Hn & Hc).
  rewrite Forall_forall in IH. apply (subnodes_child r c); auto.
Qed.

(** X14 (capacity of a leaf).  In every reachable state a node without
    octants holds at most eight objects, unless it is at MAX_DEPTH; a node at
    MAX_DEPTH has no octants. *)
Theorem leaf_capacity s n :
  reachable s -> n ∈ subnodes (root s) ->
  (octants n = None -> depth n <> MAX_DEPTH -> (length (objects n) <= 8)%nat) /\
  (depth n = MAX_DEPTH -> octants n = None).
Proof.
  intros Hs Hn. pose proof (inv_node _ (reachable_Inv s Hs)) as Hinv.
  unfold NodeInv in Hinv. rewrite Forall_forall in Hinv.
  pose proof (Hinv n Hn) as Hl. split; [apply (l_leaf _ Hl)|].
  intros Hd. destruct (octants n) as [os|] eqn:Eos; [exfalso|done].
  destruct (l_oct _ Hl os Eos) as [Hlen Hch].
  destruct os as [|c os]; [done|]. apply Forall_cons in Hch as [[Hdc _] _].
  assert (c ∈ subnodes (root s)) as Hc.
  { apply (subnodes_trans n); [|done].
    apply (subnodes_child n c); [|apply subnodes_self].
    unfold children. rewrite Eos. left. }
  pose proof (l_depth _ (Hinv c Hc)) as Hdepth. unfold P_depth in Hdepth. lia.
Qed.

Lemma leaf_capacity_witness :
  reachable demo11 /\ demo_octant ∈ subnodes (root demo11) /\
  (octants demo_octant = None -> depth demo_octant <> MAX_DEPTH ->
   (length (objects demo_octant) <= 8)%nat) /\
  (depth demo_octant = MAX_DEPTH -> octants demo_octant = None).
Proof.
  assert (demo_octant ∈ subnodes (root demo11)) as Hn.
  { apply (subnodes_trans demo_cell); [|exact demo_cell_node].
    apply (subnodes_child demo_cell demo_octant); [exact demo_octant_child|apply subnodes_self]. }
  split; [exact demo11_reachable|]. split; [exact Hn|].
  apply (leaf_capacity demo11 demo_octant demo11_reachable Hn).
Defined.

(** ** The cube of the root *)

(** The cube of node [n] lies inside the cube of node [m]. *)
Definition cubeIn (n m : OctreeNode.t) : Prop :=
  forall p, OctreeNode.containsPoint n p = true -> OctreeNode.containsPoint m p = true.

Lemma cubeIn_hdr n n' m m' : hdr n' = hdr n -> hdr m' = hdr m -> cubeIn n m -> cubeIn n' m'.
Proof.
  unfold hdr. intros Hn Hm. inversion Hn as [[N1 N2 N3 N4]]. inversion Hm as [[M1 M2 M3 M4]].
  unfold cubeIn, OctreeNode.containsPoint. rewrite N2, N3, M2, M3. done.
Qed.

Lemma merge_hdr n sh : hdr (OctreeNode.merge n sh).1 = hdr n.
Proof.
  unfold OctreeNode.merge. destruct (octants n); [|done].
  destruct (8 <? count n); [done|]. by rewrite merge_fold.
Qed.

Lemma grow_root bb s towards :
  let r' := root (Octree.grow bb s towards) in
  let newRoot := Octree.newRootFor (root s)
                   (Octree.growthDirection (root s) (bb towards)) (nextId (shared s)) in
  hdr r' = hdr newRoot.
Proof.
  cbv zeta. unfold Octree.grow. cbv zeta. destruct (0 <? count (root s)); [|done].
  cbn [nextId objectToNode].
  match goal with |- context [OctreeNode.merge ?n ?sh] =>
    pose proof (merge_hdr n sh) as H; destruct (OctreeNode.merge n sh) as [n' sh'] end.
  cbn [fst root] in *. rewrite H. reflexivity.
Qed.

Lemma axis_grow (lo s x : Q) (b : bool) :
  (0 < s)%Q -> inCell lo s x -> inCell (if b then lo - s else lo)%Q (s * 2)%Q x.
Proof. unfold inCell. intros Hs [H1 H2]. destruct b; split; lra. Qed.

Lemma grow_cube bb s towards :
  (0 < size (root s))%Q ->
  cubeIn (root s) (root (Octree.grow bb s towards)) /\
  depth (root (Octree.grow bb s towards)) = depth (root s) - 1 /\
  (size (root (Octree.grow bb s towards)) == size (root s) * 2)%Q.
Proof.
  intros Hs. pose proof (grow_root bb s towards) as Hh. cbv zeta in Hh.
  unfold hdr in Hh. inversion Hh as [[H1 H2 H3 H4]]. clear Hh.
  split; [|split; [done|by rewrite H3]].
  intros p. rewrite !containsPoint_spec. rewrite H2, H3.
  unfold Octree.newRootFor. cbn [min size THREE.x THREE.y THREE.z].
  intros (Hx & Hy & Hz). split_and!.
  - destruct (Qltb (THREE.x _) 0);
      by apply (axis_grow _ _ _ true) || by apply (axis_grow _ _ _ false).
  - destruct (Qltb (THREE.y _) 0);
      by apply (axis_grow _ _ _ true) || by apply (axis_grow _ _ _ false).
  - destruct (Qltb (THREE.z _) 0);
      by apply (axis_grow _ _ _ true) || by apply (axis_grow _ _ _ false).
Qed.

Lemma growLoop_cube bb o f : forall s s1 fitted,
  (0 < size (root s))%Q -> Octree.growLoop bb f s o = Ok (s1, fitted) ->
  cubeIn (root s) (root s1) /\ depth (root s1) <= depth (root s) /\
  (fits bb (root s) o = true -> root s1 = root s).
Proof.
  induction f as [|f IH]; intros s s1 fitted Hs Hrun; [done|].
  simpl in Hrun.
  destruct (negb (OctreeNode.largerThan bb (root s) o)
            || negb (OctreeNode.containsCenter bb (root s) o)) eqn:Eg.
  2:{ injection Hrun as <- <-. split_and!; [by intros ?|lia|done]. }
  assert (fits bb (root s) o = false) as Hnofit.
  { unfold fits. apply orb_true_iff in Eg as [H|H]; apply negb_true_iff in H; rewrite H;
      [done|apply andb_false_r]. }
  destruct (depth (root s) =? MIN_DEPTH).
  { injection Hrun as <- <-. split_and!; [by intros ?|simpl; lia|done]. }
  destruct (grow_cube bb s o Hs) as (G1 & G2 & G3).
  destruct (IH (Octree.grow bb s o) s1 fitted) as (I1 & I2 & _); [|done|].
  { rewrite G3. lra. }
  split_and!; [|lia|congruence].
  intros p Hp. by apply I1, G1.
Qed.

Lemma insert_root bb s o s' :
  Inv s -> objectToNode (shared s) !! o = None -> Octree.insert bb s o = Ok s' ->
  exists s1 fitted,
    Octree.growLoop bb (Z.to_nat (depth (root s) - MIN_DEPTH) + 1) s o = Ok (s1, fitted) /\
    hdr (root s') = hdr (root s1).
Proof.
  intros Hinv Eo Hrun. unfold Octree.insert in Hrun. rewrite Eo in Hrun.
  pose proof (inv_depth _ Hinv) as Hd.
  destruct (growLoop_spec bb o (Z.to_nat (depth (root s) - MIN_DEPTH) + 1) s Hinv)
    as (s1 & fitted & Hgrow & G1 & G2 & _); [lia|].
  rewrite Hgrow in Hrun. cbn [mbind Res_bind] in Hrun. exists s1, fitted. split; [done|].
  destruct fitted; [|by injection Hrun as <-].
  assert (o ∉ objs (root s1)) as Hnew.
  { rewrite G2. intros Hin. apply (Inv_tracked s o Hinv) in Hin.
    rewrite Eo in Hin. by destruct Hin. }
  destruct (node_insert_spec bb (root s1) o (shared s1) (inv_node _ G1) (inv_heap _ G1) Hnew)
    as (r' & sh' & Hins & [Q1 Q2 Q3 Q4 Q5 Q6] & Hc & Hp).
  rewrite Hins in Hrun. cbn [mbind Res_bind] in Hrun.
  destruct (Z.eqb_spec (count (root s1)) 0) as [Hz|]; [|by injection Hrun as <-].
  rewrite shrink_stop in Hrun; cbn [root].
  - by injection Hrun as <-.
  - apply (l_depth _ (NodeInv_local _ Q1)).
  - right. destruct (small_is_leaf r' Q1) as [_ Hleaf]; [lia|].
    rewrite <- Hleaf. intros Hnil. rewrite Hnil in Hp.
    by apply Permutation_nil_cons in Hp.
Qed.

(** X15 ([insert] only enlarges the root cube).  In a reachable state the
    cube of the root after [insert] contains the cube of the root before, the
    root is not deeper than before, and when the root already fitted the
    object its identity, min corner, edge and depth are unchanged. *)
Theorem insert_keeps_region bb s o s' :
  reachable s -> Octree.insert bb s o = Ok s' ->
  cubeIn (root s) (root s') /\
  depth (root s') <= depth (root s) /\
  (fits bb (root s) o = true -> hdr (root s') = hdr (root s)).
Proof.
  intros Hs Hrun. pose proof (reachable_Inv s Hs) as Hinv.
  destruct (objectToNode (shared s) !! o) as [m|] eqn:Eo.
  { unfold Octree.insert in Hrun. rewrite Eo in Hrun. injection Hrun as <-.
    split_and!; [by intros ?|lia|done]. }
  destruct (insert_root bb s o s' Hinv Eo Hrun) as (s1 & fitted & Hgrow & Hh).
  destruct (growLoop_cube bb o (Z.to_nat (depth (root s) - MIN_DEPTH) + 1) s s1 fitted)
    as (G1 & G2 & G3); [|exact Hgrow|].
  { pose proof (inv_size _ Hinv). qlra. }
  split_and!.
  - apply (cubeIn_hdr (root s) _ (root s1)); [done|done|exact G1].
  - unfold hdr in Hh. inversion Hh as [[H1 H2 H3 H4]]. lia.
  - intros Hfit. rewrite Hh. by rewrite G3.
Qed.

Definition demoFar : Octree.t := run (Octree.insert demo_bb Octree.new 11%nat).

Lemma insert_keeps_region_witness :
  reachable Octree.new /\ Octree.insert demo_bb Octree.new 11%nat = Ok demoFar /\
  cubeIn (root Octree.new) (root demoFar) /\
  depth (root demoFar) <= depth (root Octree.new) /\
  (fits demo_bb (root Octree.new) 11%nat = true -> hdr (root demoFar) = hdr (root Octree.new)).
Proof.
  assert (Octree.insert demo_bb Octree.new 11%nat = Ok demoFar) as Hrun
    by (vm_compute; reflexivity).
  split; [exact reach_new|]. split; [exact Hrun|].
  apply (insert_keeps_region demo_bb Octree.new 11%nat demoFar reach_new Hrun).
Defined.

(** ** The octant of the old root *)

(** How [grow] treats one axis: a negative component of the direction moves
    the min corner of the new root down by the size of the old root and sets
    the bit of the octant index; a component that is zero or positive does
    neither. *)
Definition slotAxis (d lo lo' sz b : Q) : Prop :=
  ((d < 0)%Q -> (lo' == lo - sz)%Q /\ (b == 1)%Q) /\
  ((0 <= d)%Q -> (lo' == lo)%Q /\ (b == 0)%Q).

Lemma newRootFor_slotAxis r direction fresh :
  let n := Octree.newRootFor r direction fresh in
  let i := Octree.octantIndex direction in
  slotAxis (THREE.x direction) (THREE.x (min r)) (THREE.x (min n)) (size r)
    (OctreeNode.bit i 1 0) /\
  slotAxis (THREE.y direction) (THREE.y (min r)) (THREE.y (min n)) (size r)
    (OctreeNode.bit i 2 1) /\
  slotAxis (THREE.z direction) (THREE.z (min r)) (THREE.z (min n)) (size r)
    (OctreeNode.bit i 4 2).
Proof.
  cbv zeta. unfold slotAxis, Octree.newRootFor, Octree.octantIndex.
  cbn [min THREE.x THREE.y THREE.z].
  destruct (Qltb (THREE.x direction) 0) eqn:Ex, (Qltb (THREE.y direction) 0) eqn:Ey,
    (Qltb (THREE.z direction) 0) eqn:Ez;
    try apply Qltb_lt in Ex; try apply Qltb_ge in Ex;
    try apply Qltb_lt in Ey; try apply Qltb_ge in Ey;
    try apply Qltb_lt in Ez; try apply Qltb_ge in Ez;
    cbn [Nat.add]; eval_bits;
    repeat split; intros; try lra; try reflexivity.
Qed.

Lemma adopted_objects (r : OctreeNode.t) n fresh i :
  (i < 8)%nat ->
  <[i := r]> (OctreeNode.createOctants n fresh) ≫= objects = objects r.
Proof.
  intros Hi. do 8 (try destruct i as [|i]); try lia;
    cbn; by rewrite ?app_nil_r.
Qed.

(** C10.  When the old root is not empty, the root that [grow] installs is
    laid out so that its cell with the computed octant index is the region of
    the old root: the node [createOctants] makes at that index has the min
    corner and the size of the old root, for every growth direction.  On each
    axis a negative component of the direction shifts the min corner and sets
    the bit of the index, a zero or positive one does neither.  When the old
    root counts more than eight objects the new root holds the old root at
    that index and seven empty leaves in the other cells; otherwise [merge]
    dissolves the octants again and the new root is a leaf that holds the
    objects of the old root. *)
Theorem grow_octant_slot bb s towards :
  0 < count (root s) ->
  let r := root s in
  let r' := root (Octree.grow bb s towards) in
  let direction := Octree.growthDirection r (bb towards) in
  let i := Octree.octantIndex direction in
  (i < 8)%nat /\
  octantAt r' i r /\
  (forall fresh, exists cell,
     OctreeNode.createOctants r' fresh !! i = Some cell /\
     (THREE.x (min cell) == THREE.x (min r))%Q /\
     (THREE.y (min cell) == THREE.y (min r))%Q /\
     (THREE.z (min cell) == THREE.z (min r))%Q /\
     (size cell == size r)%Q) /\
  slotAxis (THREE.x direction) (THREE.x (min r)) (THREE.x (min r')) (size r)
    (OctreeNode.bit i 1 0) /\
  slotAxis (THREE.y direction) (THREE.y (min r)) (THREE.y (min r')) (size r)
    (OctreeNode.bit i 2 1) /\
  slotAxis (THREE.z direction) (THREE.z (min r)) (THREE.z (min r')) (size r)
    (OctreeNode.bit i 4 2) /\
  count r' = count r /\
  (8 < count r ->
   exists os, octants r' = Some os /\ length os = 8%nat /\ os !! i = Some r /\
     objects r' = [] /\
     forall j c, j <> i -> os !! j = Some c ->
       octantAt r' j c /\ count c = 0 /\ objects c = [] /\ octants c = None) /\
  (count r <= 8 ->
   octants r' = None /\ (reachable s -> objects r' = objs r)).
Proof.
  intros Hpos. cbv zeta.
  set (r := root s). set (direction := Octree.growthDirection r (bb towards)).
  set (i := Octree.octantIndex direction).
  set (newRoot := Octree.newRootFor r direction (nextId (shared s))).
  pose proof (octantIndex_lt direction) as Hi. fold i in Hi.
  pose proof (grow_root bb s towards) as Hh. cbv zeta in Hh.
  fold r direction newRoot in Hh.
  pose proof (newRootFor_octantAt r direction (nextId (shared s))) as Hat.
  fold newRoot i in Hat.
  assert (octantAt (root (Octree.grow bb s towards)) i r) as Hat'
    by (by apply (octantAt_hdr newRoot _ i r r)).
  pose proof (newRootFor_slotAxis r direction (nextId (shared s))) as Hax.
  cbv zeta in Hax. fold newRoot i in Hax.
  assert (min (root (Octree.grow bb s towards)) = min newRoot) as Hmin
    by (unfold hdr in Hh; congruence).
  split; [done|]. split; [done|]. split.
  { intros fresh.
    destruct (lookup_lt_is_Some_2 (OctreeNode.createOctants
                (root (Octree.grow bb s towards)) fresh) i) as [cell Hcell].
    { by rewrite createOctants_length. }
    exists cell. split; [done|].
    destruct (proj2 (createOctants_octantAt _ fresh) i cell Hcell) as (_ & C2 & C3 & C4 & C5).
    destruct Hat' as (_ & D2 & D3 & D4 & D5).
    split_and!; [by rewrite C3, D3|by rewrite C4, D4|by rewrite C5, D5|by rewrite C2, D2]. }
  rewrite Hmin. split; [apply Hax|]. split; [apply Hax|]. split; [apply Hax|].
  clear Hh Hat' Hmin.
  unfold Octree.grow. cbv zeta. fold r direction newRoot.
  apply Z.ltb_lt in Hpos. fold r in Hpos. rewrite Hpos.
  cbn [nextId objectToNode]. unfold Octree.adoptOldRoot. fold i.
  unfold OctreeNode.merge.
  cbn [octants OctreeNode.set_count OctreeNode.set_octants count nid min size depth objects].
  destruct (Z.ltb_spec 8 (count r)) as [Hgt|Hle].
  - cbn [root octants count objects]. split; [done|]. split; [|lia].
    intros _. eexists. split; [reflexivity|].
    split; [by rewrite length_insert, createOctants_length|].
    split; [apply list_lookup_insert_eq; by rewrite createOctants_length|].
    split; [done|]. intros j c Hj Hc.
    rewrite list_lookup_insert_ne in Hc by done.
    pose proof (proj2 (createOctants_octantAt newRoot _) j c Hc) as Hjc.
    apply createOctants_lookup in Hc as [_ ->].
    split; [|done]. revert Hjc. by apply octantAt_hdr.
  - rewrite merge_fold. cbn [root octants count objects fst].
    split; [done|]. split; [intros; lia|]. intros _. split; [done|].
    intros Hs. pose proof (reachable_Inv s Hs) as Hinv.
    rewrite adopted_objects by done.
    destruct (small_is_leaf r (inv_node _ Hinv) Hle) as [_ ->].
    pose proof (Heap_objs_NoDup _ _ (inv_heap _ Hinv)) as Hnd.
    rewrite set_adds; [done|]. simpl.
    destruct (small_is_leaf r (inv_node _ Hinv) Hle) as [_ <-]. done.
Qed.

Lemma grow_octant_slot_witness :
  0 < count (root demo11) /\
  octantAt (root (Octree.grow demo_bb demo11 11%nat))
    (Octree.octantIndex (Octree.growthDirection (root demo11) (demo_bb 11%nat)))
    (root demo11) /\
  exists os, octants (root (Octree.grow demo_bb demo11 11%nat)) = Some os /\
    os !! Octree.octantIndex (Octree.growthDirection (root demo11) (demo_bb 11%nat))
    = Some (root demo11).
Proof.
  assert (0 < count (root demo11)) as Hpos by (vm_compute; reflexivity).
  destruct (grow_octant_slot demo_bb demo11 11%nat Hpos)
    as (_ & Hat & _ & _ & _ & _ & _ & Hbig & _).
  split; [exact Hpos|]. split; [exact Hat|].
  destruct Hbig as (os & H1 & _ & H3 & _); [vm_compute; reflexivity|].
  exists os. split; [exact H1|exact H3].
Defined.

(** ** The operations return *)

(** X17 (no operation fails).  In every reachable state [insert], [remove],
    [update] and [shrink] return a state: the node that [objectToNode] names
    is in the tree, [shrink] finds a non-empty octant whenever it looks for
    one, an [octants] array is never empty, and the recursion stays within
    the levels of the tree. *)
Theorem operations_return bb s o :
  reachable s ->
  (exists s', Octree.insert bb s o = Ok s') /\
  (exists s', Octree.remove s o = Ok s') /\
  (exists s', Octree.update bb s o = Ok s') /\
  (exists s', Octree.shrink s = Ok s').
Proof.
  intros Hs. pose proof (reachable_Inv s Hs) as Hinv.
  destruct (operations_total bb s o Hinv) as (H1 & H2 & H3).
  split_and!; auto.
  destruct (shrink_spec s Hinv) as (s' & H & _). eauto.
Qed.

Lemma operations_return_witness :
  reachable demo11 /\
  (exists s', Octree.insert demo_bb demo11 11%nat = Ok s') /\
  (exists s', Octree.remove demo11 11%nat = Ok s') /\
  (exists s', Octree.update demo_bb demo11 11%nat = Ok s') /\
  (exists s', Octree.shrink demo11 = Ok s').
Proof.
  split; [exact demo11_reachable|].
  apply (operations_return demo_bb demo11 11%nat demo11_reachable).
Defined.

(** ** The octants tile the cube of their node *)

Lemma axis_same (lo s b1 b2 l1 s1 l2 s2 x : Q) :
  (b1 == 0 \/ b1 == 1)%Q -> (b2 == 0 \/ b2 == 1)%Q ->
  (l1 == lo + s / 2 * b1)%Q -> (s1 == s / 2)%Q ->
  (l2 == lo + s / 2 * b2)%Q -> (s2 == s / 2)%Q ->
  inCell l1 s1 x -> inCell l2 s2 x -> (b1 == b2)%Q.
Proof.
  unfold inCell. intros [B1|B1] [B2|B2] L1 S1 L2 S2 [? ?] [? ?];
    rewrite B1 in *; rewrite B2 in *; try reflexivity; exfalso; qlra.
Qed.

(** X4 (the octants tile the cube).  In every reachable state, for a node
    with octants: every point of the node's cube (half-open test
    [containsPoint]) lies in the cube of the octant at its cell index; no
    point lies in the cubes of two octants; the cube of every octant lies
    inside the cube of the node. *)
Theorem octants_tile s n os :
  reachable s -> n ∈ subnodes (root s) -> octants n = Some os ->
  (forall p, OctreeNode.containsPoint n p = true ->
     exists c, os !! cellIndex n p = Some c /\ OctreeNode.containsPoint c p = true) /\
  (forall i j c c' p, os !! i = Some c -> os !! j = Some c' ->
     OctreeNode.containsPoint c p = true -> OctreeNode.containsPoint c' p = true -> i = j) /\
  (forall i c, os !! i = Some c -> cubeIn c n).
Proof.
  intros Hs Hn Eos.
  pose proof (reachable_Placed s Hs (fun _ => cube 0 0 0 0)) as Hp.
  unfold Placed in Hp. rewrite Forall_forall in Hp. pose proof (Hp n Hn) as Hl.
  pose proof (pl_oct _ _ _ Hl os Eos) as Ht. destruct Ht as [Hlen Hat].
  pose proof (placed_pos _ _ _ Hl) as Hpos.
  split_and!.
  - intros p Hin. apply (tiles_cover n os p); [by split|done].
  - intros i j c c' p Hi Hj Hc Hc'.
    pose proof (lookup_lt8 _ _ _ Hlen Hi) as Hi8. pose proof (lookup_lt8 _ _ _ Hlen Hj) as Hj8.
    destruct (Hat i c Hi) as (_ & Si & Xi & Yi & Zi).
    destruct (Hat j c' Hj) as (_ & Sj & Xj & Yj & Zj).
    apply containsPoint_spec in Hc as (Hx & Hy & Hz).
    apply containsPoint_spec in Hc' as (Hx' & Hy' & Hz').
    destruct (bit_cases i Hi8) as (Bxi & Byi & Bzi).
    destruct (bit_cases j Hj8) as (Bxj & Byj & Bzj).
    pose proof (axis_same _ _ _ _ _ _ _ _ _ Bxi Bxj Xi Si Xj Sj Hx Hx') as Bx.
    pose proof (axis_same _ _ _ _ _ _ _ _ _ Byi Byj Yi Si Yj Sj Hy Hy') as By.
    pose proof (axis_same _ _ _ _ _ _ _ _ _ Bzi Bzj Zi Si Zj Sj Hz Hz') as Bz.
    clear -Hi8 Hj8 Bx By Bz.
    do 8 (try destruct i as [|i]); try lia; do 8 (try destruct j as [|j]); try lia;
      try reflexivity; exfalso; vm_compute in Bx, By, Bz; congruence.
  - intros i c Hi p. rewrite !containsPoint_spec.
    pose proof (lookup_lt8 _ _ _ Hlen Hi) as Hi8.
    destruct (Hat i c Hi) as (_ & Si & Xi & Yi & Zi).
    destruct (bit_cases i Hi8) as (Bx & By & Bz).
    intros (Hx & Hy & Hz). split_and!.
    + exact (axis_up _ _ _ _ _ _ Bx Hpos Xi Si Hx).
    + exact (axis_up _ _ _ _ _ _ By Hpos Yi Si Hy).
    + exact (axis_up _ _ _ _ _ _ Bz Hpos Zi Si Hz).
Qed.

Lemma octants_tile_witness :
  reachable demo11 /\ demo_cell ∈ subnodes (root demo11) /\
  octants demo_cell = Some (children demo_cell) /\
  (forall p, OctreeNode.containsPoint demo_cell p = true ->
     exists c, children demo_cell !! cellIndex demo_cell p = Some c /\
               OctreeNode.containsPoint c p = true) /\
  (forall i j c c' p, children demo_cell !! i = Some c -> children demo_cell !! j = Some c' ->
     OctreeNode.containsPoint c p = true -> OctreeNode.containsPoint c' p = true -> i = j) /\
  (forall i c, children demo_cell !! i = Some c -> cubeIn c demo_cell).
Proof.
  split; [exact demo11_reachable|]. split; [exact demo_cell_node|].
  split; [exact demo_cell_octants|].
  apply (octants_tile demo11 demo_cell _ demo11_reachable demo_cell_node demo_cell_octants).
Defined.

(** ** [shrink] and [grow] lose nothing *)

(** X18 ([shrink] loses nothing).  In every reachable state [shrink]
    returns, and the tree holds the same objects in the same order of
    traversal afterwards, with the same root count; the reverse lookup and
    the console are untouched. *)
Theorem shrink_keeps_objects s :
  reachable s ->
  exists s', Octree.shrink s = Ok s' /\
    objs (root s') = objs (root s) /\ count (root s') = count (root s) /\
    shared s' = shared s /\ console s' = console s.
Proof.
  intros Hs. pose proof (reachable_Inv s Hs) as Hinv.
  destruct (shrink_spec s Hinv) as (s' & Hrun & Hinv' & Hobjs & Hsh & Hcon).
  exists s'. split_and!; auto.
  by rewrite (count_objs _ (inv_node _ Hinv')), (count_objs _ (inv_node _ Hinv)), Hobjs.
Qed.

Lemma shrink_keeps_objects_witness :
  reachable demo10 /\
  exists s', Octree.shrink demo10 = Ok s' /\
    objs (root s') = objs (root demo10) /\ count (root s') = count (root demo10) /\
    shared s' = shared demo10 /\ console s' = console demo10.
Proof.
  split; [exact demo10_reachable|]. apply (shrink_keeps_objects demo10 demo10_reachable).
Defined.

(** X19 ([grow] loses nothing).  In a reachable state whose root is above
    MIN_DEPTH, [grow] keeps the stored and the tracked objects and the root
    count; the new root is one level higher, has twice the edge, and its cube
    contains the cube of the old root. *)
Theorem grow_keeps_objects bb s towards :
  reachable s -> depth (root s) <> MIN_DEPTH ->
  objs (root (Octree.grow bb s towards)) ≡ₚ objs (root s) /\
  (forall x, tracked (Octree.grow bb s towards) x <-> tracked s x) /\
  count (root (Octree.grow bb s towards)) = count (root s) /\
  depth (root (Octree.grow bb s towards)) = depth (root s) - 1 /\
  (size (root (Octree.grow bb s towards)) == size (root s) * 2)%Q /\
  cubeIn (root s) (root (Octree.grow bb s towards)).
Proof.
  intros Hs Hne. pose proof (reachable_Inv s Hs) as Hinv.
  destruct (grow_spec bb s towards Hinv Hne) as (G1 & G2 & G3 & G4 & G5).
  destruct (grow_cube bb s towards) as (C1 & C2 & C3).
  { pose proof (inv_size _ Hinv). qlra. }
  split_and!; auto.
  intros x. unfold tracked.
  by rewrite (Inv_tracked _ x G1), (Inv_tracked s x Hinv), G2.
Qed.

Lemma grow_keeps_objects_witness :
  reachable demo11 /\ depth (root demo11) <> MIN_DEPTH /\
  objs (root (Octree.grow demo_bb demo11 11%nat)) ≡ₚ objs (root demo11) /\
  (forall x, tracked (Octree.grow demo_bb demo11 11%nat) x <-> tracked demo11 x) /\
  count (root (Octree.grow demo_bb demo11 11%nat)) = count (root demo11) /\
  depth (root (Octree.grow demo_bb demo11 11%nat)) = depth (root demo11) - 1 /\
  (size (root (Octree.grow demo_bb demo11 11%nat)) == size (root demo11) * 2)%Q /\
  cubeIn (root demo11) (root (Octree.grow demo_bb demo11 11%nat)).
Proof.
  assert (depth (root demo11) <> MIN_DEPTH) as Hne by (vm_compute; discriminate).
  split; [exact demo11_reachable|]. split; [exact Hne|].
  apply (grow_keeps_objects demo_bb demo11 11%nat demo11_reachable Hne).
Defined.

(** * Loading the mission library (src/ts/mission_library.ts)

    Two loops of [MissionLibrary.init] that work on plain data: the closure
    [collectMissionFiles], and the removal of duplicate custom levels.  Strings
    are Rocq strings; the [Set] of identifiers is a [gset]. *)

From stdpp Require Import strings.

Module MissionLibrary.
Local Open Scope nat_scope.

(** A [CLAEntry] (mission.ts): the fields that [init] reads, and [id], which
    stands for the rest of the entry. *)
Record CLAEntry := mkCLAEntry {
  id : nat;
  name : string;
  desc : string;
  modification : string;
  gameType : string;
  gameMode : option string
}.

Definition identifier (mission : CLAEntry) : string := name mission +:+ desc mission.

(** The loop that removes duplicate platinum levels.  [splice(i--, 1)]
    deletes the entry at [i] and the [i++] of the loop then leaves [i] where
    it was; every turn either deletes an entry or moves on, so the loop runs
    at most [platCustoms.length] times. *)
Fixpoint removeDuplicates (fuel : nat) (i : nat) (platCustoms : list CLAEntry)
    (platCustomNames : gset string) : list CLAEntry :=
  match fuel with
  | O => platCustoms
  | S fuel' =>
      match platCustoms !! i with
      | None => platCustoms
      | Some mission =>
          if decide (identifier mission ∈ platCustomNames)
          then removeDuplicates fuel' i (delete i platCustoms) platCustomNames
          else removeDuplicates fuel' (S i) platCustoms ({[identifier mission]} ∪ platCustomNames)
      end
  end.

Definition removeDuplicatePlatinumLevels (platCustoms : list CLAEntry) : list CLAEntry :=
  removeDuplicates (length platCustoms) 0 platCustoms ∅.

(** The entries that are the first of their identifier. *)
Fixpoint firsts (seen : gset string) (l : list CLAEntry) : list CLAEntry :=
  match l with
  | [] => []
  | m :: r =>
      if decide (identifier m ∈ seen) then firsts seen r
      else m :: firsts ({[identifier m]} ∪ seen) r
  end.

Lemma removeDuplicates_firsts fuel : forall i l seen,
  (length l - i <= fuel)%nat ->
  removeDuplicates fuel i l seen = take i l ++ firsts seen (drop i l).
Proof.
  induction fuel as [|fuel IH]; intros i l seen Hf; simpl.
  - rewrite drop_ge by lia. rewrite take_ge by lia. by rewrite app_nil_r.
  - destruct (l !! i) as [m|] eqn:E.
    + pose proof (lookup_lt_Some _ _ _ E) as Hlt.
      rewrite (drop_S l m i E). simpl.
      destruct (decide (identifier m ∈ seen)).
      * rewrite IH by (rewrite length_delete by eauto; lia).
        rewrite delete_take_drop.
        rewrite take_app_length' by (rewrite length_take; lia).
        rewrite drop_app_length' by (rewrite length_take; lia). done.
      * rewrite IH by lia. rewrite (take_S_r l i m E), <- (assoc (++)). done.
    + apply lookup_ge_None in E. rewrite drop_ge by lia. rewrite take_ge by lia.
      by rewrite app_nil_r.
Qed.

Lemma firsts_sublist l : forall seen, firsts seen l `sublist_of` l.
Proof.
  induction l as [|m l IH]; intros seen; simpl; [done|].
  destruct (decide _); [by apply sublist_cons|by apply sublist_skip].
Qed.

Lemma firsts_fresh l : forall seen m, m ∈ firsts seen l -> identifier m ∉ seen.
Proof.
  induction l as [|a l IH]; intros seen m Hm; simpl in Hm; [by apply elem_of_nil in Hm|].
  destruct (decide (identifier a ∈ seen)) as [|Hn]; [by apply IH|].
  apply elem_of_cons in Hm as [->|Hm]; [done|].
  apply IH in Hm. set_solver.
Qed.

Lemma firsts_NoDup l : forall seen, NoDup (identifier <$> firsts seen l).
Proof.
  induction l as [|a l IH]; intros seen; simpl; [constructor|].
  destruct (decide (identifier a ∈ seen)) as [|Hn]; [apply IH|].
  rewrite fmap_cons. constructor; [|apply IH].
  intros (m & Heq & Hm)%list_elem_of_fmap. apply firsts_fresh in Hm. set_solver.
Qed.

Lemma firsts_covers l : forall seen m,
  m ∈ l -> identifier m ∈ seen \/ identifier m ∈ identifier <$> firsts seen l.
Proof.
  induction l as [|a l IH]; intros seen m Hm; [by apply elem_of_nil in Hm|]. simpl.
  apply elem_of_cons in Hm as [->|Hm].
  - destruct (decide (identifier a ∈ seen)); [by left|right]. rewrite fmap_cons. left.
  - destruct (decide (identifier a ∈ seen)); [by apply IH|].
    rewrite fmap_cons. destruct (IH ({[identifier a]} ∪ seen) m Hm) as [H|H].
    + apply elem_of_union in H as [H|H]; [|by left].
      apply elem_of_singleton in H. rewrite H. right. left.
    + right. by right.
Qed.

Lemma firsts_keeps_first l1 : forall seen m l2,
  identifier m ∉ seen -> identifier m ∉ identifier <$> l1 ->
  m ∈ firsts seen (l1 ++ m :: l2).
Proof.
  induction l1 as [|a l1 IH]; intros seen m l2 Hs Hl; simpl.
  - rewrite decide_False by done. left.
  - rewrite fmap_cons in Hl. apply not_elem_of_cons in Hl as [Hne Hl].
    destruct (decide (identifier a ∈ seen)); [by apply IH|].
    right. apply IH; [|done].
    intros [H|H]%elem_of_union; [|done]. apply elem_of_singleton in H. congruence.
Qed.

(** X20 (duplicate platinum levels).  The loop of [init] that removes
    duplicates leaves a subsequence of the list in which no two entries have
    the same identifier [name + desc]; every identifier of the list is still
    there, and the entry kept for it is the first one that has it. *)
Theorem duplicates_removed (platCustoms : list CLAEntry) :
  let result := removeDuplicatePlatinumLevels platCustoms in
  result `sublist_of` platCustoms /\
  NoDup (identifier <$> result) /\
  (forall m, m ∈ platCustoms -> identifier m ∈ identifier <$> result) /\
  (forall l1 m l2, platCustoms = l1 ++ m :: l2 ->
     identifier m ∉ identifier <$> l1 -> m ∈ result).
Proof.
  cbv zeta. unfold removeDuplicatePlatinumLevels.
  rewrite removeDuplicates_firsts by lia. rewrite take_0, drop_0. cbn [app].
  split_and!.
  - apply firsts_sublist.
  - apply firsts_NoDup.
  - intros m Hm. destruct (firsts_covers platCustoms ∅ m Hm) as [H|H]; [set_solver|done].
  - intros l1 m l2 -> Hl. apply firsts_keeps_first; [set_solver|done].
Qed.

(** Two entries with different names and descriptions, but the same
    concatenation: the second one goes. *)
Example duplicates_by_concatenation :
  removeDuplicatePlatinumLevels
    [mkCLAEntry 1 "ab" "c" "platinum" "single" None;
     mkCLAEntry 2 "a" "bc" "platinum" "single" None]
  = [mkCLAEntry 1 "ab" "c" "platinum" "single" None].
Proof. vm_compute. reflexivity. Qed.

(** ** [collectMissionFiles]

    A [DirectoryStructure] (resources.ts) maps a name to [null] (a file) or
    to the structure of a subdirectory; its entries are listed in the order
    in which [for ... in] visits the keys. *)
#[warnings="-register-all"] Inductive DirectoryStructure :=
| Dir (entries : list (string * option DirectoryStructure)).

(** [String.prototype.endsWith]. *)
Definition endsWith (s suffix : string) : bool :=
  let n := String.length s in
  let m := String.length suffix in
  (m <=? n)%nat && String.eqb (substring (n - m) m s) suffix.

Fixpoint collectMissionFiles (arr : list string) (directory : DirectoryStructure)
    (path : string) {struct directory} : list string :=
  match directory with
  | Dir entries =>
      (fix go (entries : list (string * option DirectoryStructure)) (arr : list string)
         : list string :=
         match entries with
         | [] => arr
         | (name, sub) :: rest =>
             match sub with
             | Some d => go rest (collectMissionFiles arr d ((path +:+ name) +:+ "/"))
             | None =>
                 if endsWith name ".mis" then go rest (arr ++ [path +:+ name])
                 else go rest arr
             end
         end) entries arr
  end.

Definition collectEntry (path : string) (arr : list string)
    (e : string * option DirectoryStructure) : list string :=
  match e.2 with
  | Some d => collectMissionFiles arr d ((path +:+ e.1) +:+ "/")
  | None => if endsWith e.1 ".mis" then arr ++ [path +:+ e.1] else arr
  end.

Lemma collectMissionFiles_unfold arr entries path :
  collectMissionFiles arr (Dir entries) path = foldl (collectEntry path) arr entries.
Proof.
  simpl. revert arr. induction entries as [|[name [d|]] rest IH]; intros arr; simpl; [done|..].
  - apply IH.
  - unfold collectEntry at 2. simpl. destruct (endsWith name ".mis"); apply IH.
Qed.

Lemma append_cons ch (a b : string) : String ch a +:+ b = String ch (a +:+ b).
Proof. reflexivity. Qed.

Lemma append_assoc (a b c : string) : (a +:+ b) +:+ c = a +:+ (b +:+ c).
Proof. induction a as [|ch a IH]; [done|]. by rewrite !append_cons, IH. Qed.

Lemma length_append (a b : string) :
  String.length (a +:+ b) = (String.length a + String.length b)%nat.
Proof. induction a as [|ch a IH]; [done|]. rewrite append_cons. simpl. by rewrite IH. Qed.

Lemma substring_append (a s : string) (k m : nat) :
  substring (String.length a + k) m (a +:+ s) = substring k m s.
Proof. induction a as [|ch a IH]; [done|]. rewrite append_cons. simpl. apply IH. Qed.

Lemma endsWith_append (a s suffix : string) :
  endsWith s suffix = true -> endsWith (a +:+ s) suffix = true.
Proof.
  unfold endsWith. cbv zeta. rewrite !andb_true_iff, !Nat.leb_le, length_append.
  intros [Hle Heq]. split; [lia|].
  replace (String.length a + String.length s - String.length suffix)%nat
    with (String.length a + (String.length s - String.length suffix))%nat by lia.
  by rewrite substring_append.
Qed.

(** A path below [path] that ends with ".mis". *)
Definition misFileBelow (path f : string) : Prop :=
  (exists rel, f = path +:+ rel) /\ endsWith f ".mis" = true.

Lemma misFileBelow_up path name f :
  misFileBelow ((path +:+ name) +:+ "/") f -> misFileBelow path f.
Proof.
  intros [(rel & ->) He]. split; [|done].
  exists (name +:+ "/" +:+ rel). by rewrite !append_assoc.
Qed.

Section DirectoryInduction.
Variable P : DirectoryStructure -> Prop.
Hypothesis step : forall entries,
  Forall (fun e => forall d, e.2 = Some d -> P d) entries -> P (Dir entries).

Lemma DirectoryStructure_ind' : forall d, P d.
Proof.
  fix IH 1. intros [entries]. apply step.
  induction entries as [|[name [d|]] rest IHr]; constructor; try exact IHr.
  - intros d' [= <-]. apply IH.
  - intros d' [=].
Qed.
End DirectoryInduction.

Lemma collectMissionFiles_spec directory : forall arr path,
  exists new, collectMissionFiles arr directory path = arr ++ new /\
    Forall (misFileBelow path) new /\
    collectMissionFiles [] directory path = new.
Proof.
  induction directory as [entries IH] using DirectoryStructure_ind'. intros arr path.
  rewrite !collectMissionFiles_unfold.
  assert (forall acc, exists new, foldl (collectEntry path) acc entries = acc ++ new /\
            Forall (misFileBelow path) new /\
            forall acc', foldl (collectEntry path) acc' entries = acc' ++ new) as H.
  { induction IH as [|[name sub] rest He _ IHr]; intros acc.
    { exists []. simpl. split_and!; [by rewrite app_nil_r|done|].
      intros acc'. by rewrite app_nil_r. }
    assert (exists one, (forall a, collectEntry path a (name, sub) = a ++ one) /\
              Forall (misFileBelow path) one) as (one & Hone & Hall).
    { unfold collectEntry. cbn [fst snd]. destruct sub as [d|].
      - destruct (He d eq_refl [] ((path +:+ name) +:+ "/")) as (new & _ & Hn & Heq).
        exists new. split.
        + intros a. destruct (He d eq_refl a ((path +:+ name) +:+ "/")) as (new' & -> & _ & E).
          congruence.
        + eapply Forall_impl; [exact Hn|]. intros f. apply misFileBelow_up.
      - destruct (endsWith name ".mis") eqn:E.
        + exists [path +:+ name]. split; [done|]. constructor; [|done].
          split; [by exists name|]. by apply endsWith_append.
        + exists []. split; [|done]. intros a. by rewrite app_nil_r. }
    simpl. destruct (IHr (collectEntry path acc (name, sub))) as (new & H1 & H2 & H3).
    exists (one ++ new). split_and!.
    - rewrite H1, Hone. by rewrite <- (assoc (++)).
    - apply Forall_app. done.
    - intros acc'. rewrite H3, Hone. by rewrite <- (assoc (++)). }
  destruct (H arr) as (new & H1 & H2 & H3). exists new. split_and!; auto.
Qed.

(** X21 ([collectMissionFiles]).  The paths are appended to what [arr] held;
    each new one starts with [path] and ends with ".mis".  A file of the
    directory whose name ends with ".mis" is collected as [path + name], and
    so is everything that the subdirectories yield with [path + name + "/"]
    as their path. *)
Theorem mission_files_collected arr entries path :
  let result := collectMissionFiles arr (Dir entries) path in
  (exists new, result = arr ++ new /\ Forall (misFileBelow path) new) /\
  (forall name, (name, None) ∈ entries -> endsWith name ".mis" = true ->
     path +:+ name ∈ result) /\
  (forall name d f, (name, Some d) ∈ entries ->
     f ∈ collectMissionFiles [] d ((path +:+ name) +:+ "/") -> f ∈ result).
Proof.
  cbv zeta. split_and!.
  - destruct (collectMissionFiles_spec (Dir entries) arr path) as (new & H1 & H2 & _). eauto.
  - intros name Hin He. rewrite collectMissionFiles_unfold.
    apply list_elem_of_split in Hin as (l1 & l2 & ->).
    rewrite foldl_app. cbn [foldl]. unfold collectEntry at 2. cbn [fst snd]. rewrite He.
    destruct (collectMissionFiles_spec (Dir l2) (foldl (collectEntry path) arr l1 ++ [path +:+ name])
                path) as (new & H1 & _).
    rewrite collectMissionFiles_unfold in H1. rewrite H1.
    rewrite !elem_of_app, list_elem_of_singleton. auto.
  - intros name d f Hin Hf. rewrite collectMissionFiles_unfold.
    apply list_elem_of_split in Hin as (l1 & l2 & ->).
    rewrite foldl_app. cbn [foldl]. unfold collectEntry at 2. cbn [fst snd].
    destruct (collectMissionFiles_spec d (foldl (collectEntry path) arr l1)
                ((path +:+ name) +:+ "/")) as (one & -> & _ & Hone).
    destruct (collectMissionFiles_spec (Dir l2) (foldl (collectEntry path) arr l1 ++ one)
                path) as (new & H1 & _).
    rewrite collectMissionFiles_unfold in H1. rewrite H1.
    rewrite !elem_of_app. rewrite Hone in Hf. auto.
Qed.

End MissionLibrary.

(** * class Nuke (src/ts/shapes/nuke.ts)

    [computeExplosionForce] takes the length of a vector, a square root: the
    numbers of this class are modelled by real numbers, and the value
    [-Infinity] that [disappearTime] starts with by a constructor of its own.
    The calls that leave the class (the marble's body, the base class
    [Shape], audio, particles, the replay) are recorded, in order, as the
    effects of a method.  As for the index, rounding is outside the model:
    the statements are about the expressions the code evaluates and the
    comparisons it makes, not about magnitudes to the last digit. *)

From Stdlib Require Import Reals Lra.

Module Nuke.
Local Open Scope R_scope.

(** [OIMO.Vec3]: [length], [sub] (a new vector) and [scaleEq] (in place). *)
Record Vec3 := mkVec3 { x : R; y : R; z : R }.

Definition length (v : Vec3) : R := sqrt (x v * x v + y v * y v + z v * z v).
Definition scaleEq (v : Vec3) (s : R) : Vec3 := mkVec3 (x v * s) (y v * s) (z v * s).
Definition sub (a b : Vec3) : Vec3 := mkVec3 (x a - x b) (y a - y b) (z a - z b).

(** A JavaScript number that may be infinite. *)
Inductive Num :=
| NegInf
| Fin (r : R)
| PosInf.

Definition plus (a : Num) (r : R) : Num :=
  match a with Fin v => Fin (v + r) | _ => a end.
Definition minus (r : R) (a : Num) : Num :=
  match a with NegInf => PosInf | Fin v => Fin (r - v) | PosInf => NegInf end.
Definition div (a : Num) (r : R) : Num :=
  match a with Fin v => Fin (v / r) | _ => a end.
Definition geb (r : R) (a : Num) : bool :=
  match a with
  | NegInf => true
  | Fin v => if Rle_dec v r then true else false
  | PosInf => false
  end.

(** [Util.clamp] (util.ts): the value, moved into [min, max]. *)
Definition clamp (value : Num) (min max : R) : R :=
  match value with
  | NegInf => min
  | Fin v => if Rlt_dec v min then min else if Rlt_dec max v then max else v
  | PosInf => max
  end.

Inductive particle := nukeParticle | nukeSmokeParticle | nukeSparksParticle.

Inductive effect :=
| AddLinearVelocity (v : Vec3)      (* marble.body.addLinearVelocity *)
| SetSlidingTimeout (n : R)         (* marble.slidingTimeout = n *)
| SetCollisionEnabled (b : bool)    (* this.setCollisionEnabled *)
| Play (sound : string)             (* AudioManager.play *)
| CreateEmitter (p : particle) (at_ : Vec3)
| RecordMarbleContact               (* level.replay.recordMarbleContact *)
| SetOpacity (o : R).               (* this.setOpacity *)

Record t := mk {
  disappearTime : Num;
  worldPosition : Vec3
}.

Definition new (worldPosition : Vec3) : t := mk NegInf worldPosition.

Definition sounds : list string := ["nukeexplode.wav"%string].

Definition computeExplosionForce (distVec : Vec3) : Vec3 :=
  let range := 10 in
  let power := 100 in
  let dist := length distVec in
  if Rlt_dec dist range then
    let scalar := (1 - dist / range) * power in
    scaleEq distVec scalar
  else distVec.

(** [marbleLastPos] is [this.level.marble.lastPos], [time] is
    [time.timeSinceLoad]. *)
Definition onMarbleContact (this : t) (marbleLastPos : Vec3) (time : R) : t * list effect :=
  let minePos := worldPosition this in
  let explosionForce := computeExplosionForce (sub marbleLastPos minePos) in
  (mk (Fin time) (worldPosition this),
   [AddLinearVelocity explosionForce; SetSlidingTimeout 2; SetCollisionEnabled false;
    Play (List.nth 0 sounds EmptyString);
    CreateEmitter nukeParticle (worldPosition this);
    CreateEmitter nukeSmokeParticle (worldPosition this);
    CreateEmitter nukeSparksParticle (worldPosition this);
    RecordMarbleContact]).

Definition tick (this : t) (time : R) (onlyVisual : bool) : list effect :=
  if onlyVisual then []
  else
    let visible := geb time (plus (disappearTime this) 15000) in
    [SetCollisionEnabled visible].

Definition render (this : t) (time : R) : list effect :=
  let opacity := clamp (div (minus time (plus (disappearTime this) 15000)) 1000) 0 1 in
  [SetOpacity opacity].

Lemma length_nonneg v : 0 <= length v.
Proof. apply sqrt_pos. Qed.

(** Component [b] does not point against component [a]. *)
Definition sameSign (a b : R) : Prop := (0 <= a -> 0 <= b) /\ (a <= 0 -> b <= 0).

(** X22 (force of the explosion).  Within the range of 10 the distance
    vector is scaled by [(1 - dist / 10) * 100], a factor that is positive
    and at most 100: no component of the force points against the
    corresponding component of the vector from the nuke to the marble, and
    the force is never turned around.  From distance 10 on the vector is
    returned as it is, not scaled down to nothing. *)
Theorem explosion_force (distVec : Vec3) :
  let dist := length distVec in
  let force := computeExplosionForce distVec in
  let scalar := (1 - dist / 10) * 100 in
  (dist < 10 ->
     0 < scalar <= 100 /\
     force = scaleEq distVec scalar /\
     sameSign (x distVec) (x force) /\
     sameSign (y distVec) (y force) /\
     sameSign (z distVec) (z force)) /\
  (10 <= dist -> force = distVec).
Proof.
  cbv zeta. pose proof (length_nonneg distVec) as Hnn.
  unfold computeExplosionForce. cbv zeta.
  destruct (Rlt_dec (length distVec) 10) as [Hlt|Hge]; split; intros H; try lra.
  - assert (0 < (1 - length distVec / 10) * 100 <= 100) as Hs by lra.
    split; [exact Hs|]. split; [done|].
    unfold sameSign, scaleEq. cbn [x y z]. repeat split; intros; nra.
  - done.
Qed.

Lemma length_3_4_0 : length (mkVec3 3 4 0) = 5.
Proof.
  unfold length. simpl. replace (3 * 3 + 4 * 4 + 0 * 0) with (5 * 5) by ring.
  apply sqrt_square. lra.
Qed.

Lemma explosion_force_witness :
  length (mkVec3 3 4 0) < 10 /\
  computeExplosionForce (mkVec3 3 4 0) = mkVec3 150 200 0.
Proof.
  assert (length (mkVec3 3 4 0) < 10) as Hlt by (rewrite length_3_4_0; lra).
  destruct (explosion_force (mkVec3 3 4 0)) as [Hin _].
  destruct (Hin Hlt) as (_ & Hforce & _).
  split; [exact Hlt|].
  rewrite Hforce, length_3_4_0. unfold scaleEq. simpl. f_equal; field.
Defined.

(** X23 (a nuke comes back after 15 seconds).  A nuke that was never touched
    is solid and fully opaque at every time.  After a contact at time [t0],
    a [tick] at [time] enables the collision exactly when
    [t0 + 15000 <= time], and [render] sets the opacity to 0 up to
    [t0 + 15000], lets it rise linearly and sets it to 1 from [t0 + 16000]
    on; whenever the opacity is positive the collision is enabled. *)
Theorem visibility_after_contact (this : t) (marbleLastPos : Vec3) (t0 time : R) :
  let this' := fst (onMarbleContact this marbleLastPos t0) in
  (tick (new (worldPosition this)) time false = [SetCollisionEnabled true] /\
   render (new (worldPosition this)) time = [SetOpacity 1]) /\
  exists visible opacity,
    tick this' time false = [SetCollisionEnabled visible] /\
    render this' time = [SetOpacity opacity] /\
    (visible = true <-> t0 + 15000 <= time) /\
    (time <= t0 + 15000 -> opacity = 0) /\
    (t0 + 15000 <= time <= t0 + 16000 -> opacity = (time - (t0 + 15000)) / 1000) /\
    (t0 + 16000 <= time -> opacity = 1) /\
    (0 < opacity -> visible = true).
Proof.
  cbv zeta. split; [done|].
  unfold onMarbleContact, tick, render. cbv zeta.
  cbn [fst disappearTime plus minus div geb clamp].
  eexists _, _. split; [reflexivity|]. split; [reflexivity|].
  destruct (Rle_dec (t0 + 15000) time) as [Hle|Hgt];
    destruct (Rlt_dec ((time - (t0 + 15000)) / 1000) 0) as [H0|H0];
    try destruct (Rlt_dec 1 ((time - (t0 + 15000)) / 1000)) as [H1|H1];
    split_and!; try done; try (intros; lra).
Qed.
End Nuke.
